(** * bili-transcripts: the incremental collector and the quota-rotating
    batch processor

    A shallow embedding of [scripts/step3_asr_groq.py] (module [Asr]) and of
    [scripts/step1_fetch_metadata.py] (module [Fetch]), with the file
    operations of their checkpoint writers (module [Ckpt]) and the key
    handling of [scripts/wbi.py] (module [Wbi]).

    Conventions.
    - Python floats ([time.time()], the [duration] a transcription reports,
      the usage counters they are added to) are rationals [Q]; rounding is
      not modelled.  Python ints are [Z] or [nat].
    - A [dict] used as a map is a [gmap]; a [set] of identifiers is a [gset].
    - What the scripts read from the outside world (the clock, the download,
      the speech-to-text backend, the favourites API) is an oracle indexed by
      a call counter, so that two calls with the same arguments may answer
      differently.
    - Every effect the claims speak about (a checkpoint save, a download, a
      backend call, a page fetch, a sleep) is an event; a computation returns
      its value, the new state and the events it performed, in order. *)

From Stdlib Require Import Ascii String QArith Lqa.
From stdpp Require Import gmap strings list fin_maps.

Local Open Scope string_scope.
Local Open Scope list_scope.
Local Open Scope nat_scope.

(** ** A state monad that also collects the events of a computation *)

Module SM.

Definition M (W Ev A : Type) : Type := W -> A * W * list Ev.

Definition ret {W Ev A} (a : A) : M W Ev A := fun w => (a, w, []).

Definition bind {W Ev A B} (m : M W Ev A) (f : A -> M W Ev B) : M W Ev B :=
  fun w =>
    let '(a, w1, e1) := m w in
    let '(b, w2, e2) := f a w1 in
    (b, w2, e1 ++ e2).

Definition gets {W Ev A} (f : W -> A) : M W Ev A := fun w => (f w, w, []).

Definition modify {W Ev} (f : W -> W) : M W Ev unit := fun w => (tt, f w, []).

Definition emit {W Ev} (e : Ev) : M W Ev unit := fun w => (tt, w, [e]).

(** The three components of a finished run. *)
Definition value {W Ev A} (r : A * W * list Ev) : A := fst (fst r).
Definition world {W Ev A} (r : A * W * list Ev) : W := snd (fst r).
Definition events {W Ev A} (r : A * W * list Ev) : list Ev := snd r.

End SM.

Declare Scope sm_scope.
Delimit Scope sm_scope with sm.
Notation "'let*' x ':=' m 'in' k" := (SM.bind m (fun x => k))
  (at level 10, x name, m at level 100, k at level 200,
   format "'[v' 'let*'  x  :=  m  'in' '/' k ']'") : sm_scope.
Notation "'let*' ' p ':=' m 'in' k" := (SM.bind m (fun p => k))
  (at level 10, p strict pattern, m at level 100, k at level 200,
   format "'[v' 'let*'  ' p  :=  m  'in' '/' k ']'") : sm_scope.

(** ** Strings as the scripts use them *)

Module Str.

(** [s[-n:]]: the last [n] characters, the whole string when it is shorter. *)
Definition last_chars (n : nat) (s : string) : string :=
  String.substring (String.length s - n) n s.

(** [s[:n]] *)
Definition first_chars (n : nat) (s : string) : string :=
  String.substring 0 n s.

Definition lower_ascii (c : ascii) : ascii :=
  let n := nat_of_ascii c in
  if (65 <=? n) && (n <=? 90) then ascii_of_nat (n + 32) else c.

(** [s.lower()] on ASCII letters; other bytes are left as they are. *)
Fixpoint lower (s : string) : string :=
  match s with
  | EmptyString => EmptyString
  | String c r => String (lower_ascii c) (lower r)
  end.

(** [p in s] *)
Definition contains (p s : string) : bool :=
  match String.index 0 p s with Some _ => true | None => false end.

(** Truthiness of a string: [if s:] *)
Definition truthy (s : string) : bool :=
  match s with EmptyString => false | _ => true end.

End Str.

(** ** step3_asr_groq.py *)

Module Asr.

Definition MAX_DURATION_SEC : Z := 1800.
Definition DELAY_BETWEEN : Q := 4.
Definition HOURLY_LIMIT_PER_KEY : Q := 6000.
Definition DAILY_LIMIT_PER_KEY : Q := 25000.

(** The four strings written into [st["processed"]]. *)
Inductive ItemStatus : Type :=
| ok | no_speech | error_download | error_transcribe.

#[global] Instance ItemStatus_eq_dec : EqDecision ItemStatus.
Proof. solve_decision. Defined.

(** [s in ("ok", "no_speech")], for the value of [st["processed"].get(bvid)]. *)
Definition is_done (o : option ItemStatus) : bool :=
  match o with
  | Some ok | Some no_speech => true
  | _ => false
  end.

(** One entry of [st["key_usage"]]. *)
Record KeyUsage : Type := mkKeyUsage {
  hourly_audio : Q;
  hour_start : Q;
  daily_audio : Q;
  day_start : Q
}.

(** [st["stats"]] *)
Record Stats : Type := mkStats {
  n_ok : nat;
  n_no_speech : nat;
  n_error_download : nat;
  n_error_transcribe : nat
}.

(** The checkpoint: what [load_status] returns and [save_status] writes. *)
Record Status : Type := mkStatus {
  processed : gmap string ItemStatus;
  key_usage : gmap string KeyUsage;
  stats : Stats
}.

(** What [load_status] returns when the file does not exist. *)
Definition empty_status : Status :=
  {| processed := ∅; key_usage := ∅; stats := mkStats 0 0 0 0 |}.

(** An entry of the queue.  [bvid] is [v.get("bvid")], the empty string
    standing for a missing or empty identifier (both are falsy);
    [duration] is the value of [int(v.get("duration", 0) or 0)]. *)
Record Video : Type := mkVideo {
  bvid : string;
  duration : Z
}.

(** The answer of [transcribe]: the stripped text with the reported
    duration, or an exception with its message [str(e)]. *)
Inductive TranscribeResult : Type :=
| Transcribed (text : string) (actual : Q)
| Raised (msg : string).

(** The outside world.  The first argument of each oracle is the number of
    oracle calls made so far in the run. *)
Record Env : Type := mkEnv {
  clock : nat -> Q;
  download_audio : nat -> string -> bool;
  transcribe : nat -> string -> string -> TranscribeResult
}.

Inductive Event : Type :=
| EvSave (s : Status)
| EvDownload (b : string)
| EvTranscribe (key : string) (b : string)
| EvWriteText (b : string) (text : string)
| EvSleep (secs : Q).

(** The mutable state of a run: the dictionary [st] and the number of
    oracle calls made so far. *)
Record World : Type := mkWorld {
  w_st : Status;
  w_tick : nat
}.

Definition key_hash (key : string) : string := Str.last_chars 8 key.

(** The test of line 220 on [err_msg = str(e)[:200]]. *)
Definition is_rate_limit (msg : string) : bool :=
  let err_msg := Str.first_chars 200 msg in
  Str.contains "rate_limit" (Str.lower err_msg) || Str.contains "429" err_msg.

Definition set_processed (b : string) (s : ItemStatus) (st : Status) : Status :=
  {| processed := <[b := s]> (processed st);
     key_usage := key_usage st;
     stats := stats st |}.

Definition set_key_usage (kh : string) (ku : KeyUsage) (st : Status) : Status :=
  {| processed := processed st;
     key_usage := <[kh := ku]> (key_usage st);
     stats := stats st |}.

Definition bump_stats (s : ItemStatus) (st : Status) : Status :=
  let t := stats st in
  {| processed := processed st;
     key_usage := key_usage st;
     stats :=
       match s with
       | ok => mkStats (S (n_ok t)) (n_no_speech t) (n_error_download t) (n_error_transcribe t)
       | no_speech => mkStats (n_ok t) (S (n_no_speech t)) (n_error_download t) (n_error_transcribe t)
       | error_download => mkStats (n_ok t) (n_no_speech t) (S (n_error_download t)) (n_error_transcribe t)
       | error_transcribe => mkStats (n_ok t) (n_no_speech t) (n_error_download t) (S (n_error_transcribe t))
       end |}.

Section Processor.

Variable API_KEYS : list string.
Variable E : Env.

Local Open Scope sm_scope.

Abbreviation M := (SM.M World Event).

Definition get_st : M Status := SM.gets w_st.

Definition upd_st (f : Status -> Status) : M unit :=
  SM.modify (fun w => mkWorld (f (w_st w)) (w_tick w)).

Definition emit (e : Event) : M unit := SM.emit e.

(** One oracle call: read the call counter and advance it. *)
Definition next_tick : M nat :=
  fun w => (w_tick w, mkWorld (w_st w) (S (w_tick w)), []).

(** [time.time()] *)
Definition time_time : M Q := let* n := next_tick in SM.ret (clock E n).

Definition save_status : M unit := let* st := get_st in emit (EvSave st).

Definition sleep (secs : Q) : M unit := emit (EvSleep secs).

(** The two window resets of [get_key_usage], at time [now]. *)
Definition reset_hour (now : Q) (ku : KeyUsage) : KeyUsage :=
  if Qle_bool 3600 (now - hour_start ku)
  then mkKeyUsage 0 now (daily_audio ku) (day_start ku)
  else ku.

Definition reset_day (now : Q) (ku : KeyUsage) : KeyUsage :=
  if Qle_bool 86400 (now - day_start ku)
  then mkKeyUsage (hourly_audio ku) (hour_start ku) 0 now
  else ku.

Definition get_key_usage (kh : string) : M KeyUsage :=
  let* st := get_st in
  let* ku := match key_usage st !! kh with
             | Some ku => SM.ret ku
             | None =>
                 let* t1 := time_time in
                 let* t2 := time_time in
                 SM.ret (mkKeyUsage 0 t1 0 t2)
             end in
  let* now := time_time in
  let ku' := reset_day now (reset_hour now ku) in
  let* _ := upd_st (set_key_usage kh ku') in
  SM.ret ku'.

(** The comparison of [key_has_quota] on an entry. *)
Definition within_limits (ku : KeyUsage) (dur : Z) : bool :=
  Qle_bool (hourly_audio ku + inject_Z dur) HOURLY_LIMIT_PER_KEY
  && Qle_bool (daily_audio ku + inject_Z dur) DAILY_LIMIT_PER_KEY.

Definition key_has_quota (kh : string) (dur : Z) : M bool :=
  let* ku := get_key_usage kh in
  SM.ret (within_limits ku dur).

(** [API_KEYS[idx]] *)
Definition api_key (idx : nat) : string := nth idx API_KEYS "".

(** The body of the [for i in range(len(API_KEYS))] of
    [find_available_key], over the remaining values of [i]. *)
Fixpoint find_loop (js : list nat) (start_idx : nat) (dur : Z)
  : M (option (nat * string)) :=
  match js with
  | [] => SM.ret None
  | i :: rest =>
      let idx := (start_idx + i) mod length API_KEYS in
      let kh := key_hash (api_key idx) in
      let* b := key_has_quota kh dur in
      if b then SM.ret (Some (idx, kh)) else find_loop rest start_idx dur
  end.

Definition find_available_key (start_idx : nat) (dur : Z)
  : M (option (nat * string)) :=
  find_loop (seq 0 (length API_KEYS)) start_idx dur.

(** The keys at offsets [js] from [start_idx] are checked in this order and
    each is found without quota; the result is the state after the last
    check, [None] if one of them has quota. *)
Fixpoint all_refused (js : list nat) (start_idx : nat) (dur : Z) (w : World)
  : option World :=
  match js with
  | [] => Some w
  | i :: rest =>
      let idx := (start_idx + i) mod length API_KEYS in
      let '(b, w1, _) := key_has_quota (key_hash (api_key idx)) dur w in
      if b then None else all_refused rest start_idx dur w1
  end.

(** Key [idx] is the first one, in the order [start_idx], [start_idx + 1],
    ... taken modulo the size of the pool, whose check succeeds; [w'] is the
    state this check leaves. *)
Definition round_robin_pick (start_idx : nat) (dur : Z) (w : World)
    (idx : nat) (w' : World) : Prop :=
  exists (i : nat) (wc : World),
    i < length API_KEYS /\
    idx = (start_idx + i) mod length API_KEYS /\
    all_refused (seq 0 i) start_idx dur w = Some wc /\
    key_has_quota (key_hash (api_key idx)) dur wc = (true, w', []).

(** The local variables of [main] that live across iterations.  [client] is
    always the client of [API_KEYS[current_key_idx]]. *)
Record Loop : Type := mkLoop {
  current_key_idx : nat;
  kh : string;
  run_ok : nat;
  consecutive_dl_fails : nat
}.

(** Which [break] (or early [return]) ended the run; [main] itself returns
    [None] in Python on each of them. *)
Inductive Halt : Type :=
| HaltNoKeyAtStart
| HaltQuota
| HaltRateLimit
| HaltStreak.

Definition call_download (b : string) : M bool :=
  let* _ := emit (EvDownload b) in
  let* n := next_tick in
  SM.ret (download_audio E n b).

Definition call_transcribe (key b : string) : M TranscribeResult :=
  let* _ := emit (EvTranscribe key b) in
  let* n := next_tick in
  SM.ret (transcribe E n key b).

Definition record (b : string) (s : ItemStatus) : M unit :=
  upd_st (fun st => bump_stats s (set_processed b s st)).

(** [ku["hourly_audio"] += actual; ku["daily_audio"] += actual] *)
Definition add_audio (actual : Q) (ku : KeyUsage) : KeyUsage :=
  mkKeyUsage (hourly_audio ku + actual) (hour_start ku)
             (daily_audio ku + actual) (day_start ku).

(** Lines 172-186: check the current key, rotate if it lacks quota.
    [None] is the [break] of line 186. *)
Definition rotate_if_needed (L : Loop) (dur : Z) : M (option Loop) :=
  let* b := key_has_quota (kh L) dur in
  if b then SM.ret (Some L)
  else
    let* _ := get_key_usage (kh L) in
    let* _ := save_status in
    let* f := find_available_key (current_key_idx L + 1) dur in
    match f with
    | Some (new_idx, new_kh) =>
        let* _ := get_key_usage new_kh in
        SM.ret (Some (mkLoop new_idx new_kh (run_ok L) (consecutive_dl_fails L)))
    | None => SM.ret None
    end.

(** Lines 238-242. *)
Definition after_item (L : Loop) : M unit :=
  let* _ := (if (run_ok L mod 20 =? 0) && (0 <? run_ok L)
             then let* _ := save_status in
                  let* _ := get_key_usage (kh L) in
                  SM.ret tt
             else SM.ret tt) in
  sleep DELAY_BETWEEN.

(** One iteration of the [for] loop of [main].  The second component is
    [None] when the loop goes on with the next video ([continue] or the end
    of the body) and [Some h] on [break]. *)
Definition process_video (v : Video) (L : Loop) : M (Loop * option Halt) :=
  let* st := get_st in
  if negb (Str.truthy (bvid v)) || is_done (processed st !! bvid v)
  then SM.ret (L, None)
  else
    let dur := duration v in
    let* r := rotate_if_needed L dur in
    match r with
    | None => SM.ret (L, Some HaltQuota)
    | Some L =>
        let* d := call_download (bvid v) in
        if negb d then
          let* _ := record (bvid v) error_download in
          let L := mkLoop (current_key_idx L) (kh L) (run_ok L)
                          (S (consecutive_dl_fails L)) in
          let* _ := save_status in
          if 10 <=? consecutive_dl_fails L
          then SM.ret (L, Some HaltStreak)
          else let* _ := sleep 1 in SM.ret (L, None)
        else
          let L := mkLoop (current_key_idx L) (kh L) (run_ok L) 0 in
          let* t := call_transcribe (api_key (current_key_idx L)) (bvid v) in
          match t with
          | Transcribed text actual =>
              let* ku := get_key_usage (kh L) in
              let* L :=
                (if Str.truthy text
                 then let* _ := emit (EvWriteText (bvid v) text) in
                      let* _ := record (bvid v) ok in
                      SM.ret (mkLoop (current_key_idx L) (kh L) (S (run_ok L))
                                     (consecutive_dl_fails L))
                 else let* _ := record (bvid v) no_speech in
                      SM.ret L) in
              let* _ := upd_st (set_key_usage (kh L) (add_audio actual ku)) in
              let* _ := after_item L in
              SM.ret (L, None)
          | Raised msg =>
              if is_rate_limit msg then
                let* f := find_available_key (current_key_idx L + 1) dur in
                match f with
                | Some (new_idx, new_kh) =>
                    SM.ret (mkLoop new_idx new_kh (run_ok L)
                                   (consecutive_dl_fails L), None)
                | None => SM.ret (L, Some HaltRateLimit)
                end
              else
                let* _ := record (bvid v) error_transcribe in
                let* _ := after_item L in
                SM.ret (L, None)
          end
    end.

(** [for idx, v in enumerate(videos, 1): ...] *)
Fixpoint run_loop (vs : list Video) (L : Loop) : M (Loop * option Halt) :=
  match vs with
  | [] => SM.ret (L, None)
  | v :: rest =>
      let* '(L', h) := process_video v L in
      match h with
      | Some _ => SM.ret (L', h)
      | None => run_loop rest L'
      end
  end.

(** Lines 248-251: the usage of each key is read once more for the log. *)
Fixpoint final_report (keys : list string) : M unit :=
  match keys with
  | [] => SM.ret tt
  | k :: rest =>
      let* _ := get_key_usage (key_hash k) in
      final_report rest
  end.

(** Line 143. *)
Definition short_enough (v : Video) : bool := (duration v <=? MAX_DURATION_SEC)%Z.

(** Lines 165-252: the loop over the videos that are left, the save at the
    end of the run and the report. *)
Definition drain (vs : list Video) (L : Loop) : M (option Halt) :=
  let* '(_, h) := run_loop vs L in
  let* _ := save_status in
  let* _ := final_report API_KEYS in
  SM.ret h.

Definition main (queue : list Video) : M (option Halt) :=
  let videos := List.filter short_enough queue in
  let* f := find_available_key 0 0 in
  match f with
  | None =>
      let* _ := save_status in
      SM.ret (Some HaltNoKeyAtStart)
  | Some (idx, _) =>
      let kh0 := key_hash (api_key idx) in
      let* _ := get_key_usage kh0 in
      drain videos (mkLoop idx kh0 0 0)
  end.

(** A run of the script from the checkpoint [st0] found on disk. *)
Definition run (queue : list Video) (st0 : Status)
  : option Halt * World * list Event :=
  main queue (mkWorld st0 0).

(** Lines 151-163: the variables and the state with which the loop of
    [main] starts from the checkpoint [st0]; [None] when no key has quota
    at the start. *)
Definition loop_start (st0 : Status) : option (Loop * World) :=
  let '(f, w0, _) := find_available_key 0 0 (mkWorld st0 0) in
  match f with
  | None => None
  | Some (idx, _) =>
      let kh0 := key_hash (api_key idx) in
      let '(_, w1, _) := get_key_usage kh0 w0 in
      Some (mkLoop idx kh0 0 0, w1)
  end.

End Processor.

(** *** What a run amounts to for a backend that answers by item *)

Section Deterministic.

Variables (dl : string -> bool) (tr : string -> TranscribeResult).

(** The backend of [E] answers by identifier alone: neither the moment of
    the call nor the key matters.  The clock is left free. *)
Definition deterministic (E : Env) : Prop :=
  (forall n b, download_audio E n b = dl b) /\
  (forall n k b, transcribe E n k b = tr b).

(** The status an item gets when it is processed; [None] when the backend
    rejects it with a rate limit and nothing is recorded. *)
Definition outcome (b : string) : option ItemStatus :=
  if dl b then
    match tr b with
    | Transcribed text _ => Some (if Str.truthy text then ok else no_speech)
    | Raised msg => if is_rate_limit msg then None else Some error_transcribe
    end
  else Some error_download.

Definition settle (P : gmap string ItemStatus) (v : Video) : gmap string ItemStatus :=
  if negb (Str.truthy (bvid v)) || is_done (P !! bvid v) then P
  else match outcome (bvid v) with
       | Some s => <[bvid v := s]> P
       | None => P
       end.

Definition settle_all (P : gmap string ItemStatus) (vs : list Video)
  : gmap string ItemStatus :=
  fold_left settle vs P.

End Deterministic.

(** The checkpoints that a run writes, in order. *)
Definition saved (evs : list Event) : list Status :=
  omap (fun e => match e with EvSave s => Some s | _ => None end) evs.

(** The checkpoints a kill can leave on disk: the one the run started from,
    or one that the run saved. *)
Definition left_on_disk (st0 : Status) (evs : list Event) (s : Status) : Prop :=
  s = st0 \/ EvSave s ∈ evs.

Definition backend_call_for (b : string) (e : Event) : Prop :=
  match e with
  | EvDownload b' => b' = b
  | EvTranscribe _ b' => b' = b
  | _ => False
  end.

Definition is_backend_call (e : Event) : bool :=
  match e with
  | EvDownload _ | EvTranscribe _ _ => true
  | _ => false
  end.

(** The key with hash [kh] can take [dur] more seconds in both windows. *)
Definition headroom (st : Status) (kh : string) (dur : Z) : Prop :=
  exists ku, key_usage st !! kh = Some ku /\
    (hourly_audio ku + inject_Z dur <= HOURLY_LIMIT_PER_KEY)%Q /\
    (daily_audio ku + inject_Z dur <= DAILY_LIMIT_PER_KEY)%Q.

(** An event of the iteration that follows the choice of the key: it
    concerns the item [b] and the key [key], and a checkpoint written there
    carries the status map [P]. *)
Definition iteration_event (b key : string) (P : gmap string ItemStatus)
    (e : Event) : Prop :=
  match e with
  | EvDownload b' => b' = b
  | EvTranscribe k b' => k = key /\ b' = b
  | EvWriteText b' _ => b' = b
  | EvSleep _ => True
  | EvSave s => processed s = P
  end.

(** [kh] is the hash of the key the client was built with. *)
Definition key_ok (API_KEYS : list string) (L : Loop) : Prop :=
  current_key_idx L < length API_KEYS /\
  kh L = key_hash (api_key API_KEYS (current_key_idx L)).

(** No key of the pool can take [dur] more seconds, and none of their
    windows ends at a later reading of the clock. *)
Definition exhausted (API_KEYS : list string) (E : Env) (w : World) (dur : Z)
  : Prop :=
  forall k, k ∈ API_KEYS ->
    exists ku,
      key_usage (w_st w) !! key_hash k = Some ku /\
      within_limits ku dur = false /\
      forall t, w_tick w <= t ->
        (clock E t - hour_start ku < 3600)%Q /\
        (clock E t - day_start ku < 86400)%Q.

(** The event [e] is not about the item [b0]: it is no download, backend
    call or transcript of [b0], and a checkpoint it writes has for [b0] the
    entry of [P]. *)
Definition leaves_alone (b0 : string) (P : gmap string ItemStatus)
    (e : Event) : Prop :=
  match e with
  | EvDownload b | EvTranscribe _ b | EvWriteText b _ => b <> b0
  | EvSave s => processed s !! b0 = P !! b0
  | EvSleep _ => True
  end.

(** How lines 172-186 choose the key for an item of duration [dur] in the
    iteration that starts with the variables [L] in the state [w].  Either
    the check of the current key succeeds in [w]: the key is kept, and the
    state [wsel] that the check leaves is the state [w1] in which the
    download starts.  Or this check fails in [w] and leaves [w0]; the usage
    of the current key is read once more for the log, which leaves [wa];
    the key of [L1] is the first whose check succeeds, in round-robin order
    from the next key and starting in the state [wa]; [wsel] is the state
    that this successful check leaves, and [w1] the state after the usage
    of the new key was read for the log. *)
Definition selected_for (API_KEYS : list string) (E : Env) (dur : Z)
    (L : Loop) (w : World) (L1 : Loop) (wsel w1 : World) : Prop :=
  (key_has_quota E (kh L) dur w = (true, wsel, []) /\ L1 = L /\ w1 = wsel) \/
  (exists w0 ku wa ku1,
     key_has_quota E (kh L) dur w = (false, w0, []) /\
     get_key_usage E (kh L) w0 = (ku, wa, []) /\
     round_robin_pick API_KEYS E (current_key_idx L + 1) dur wa
                      (current_key_idx L1) wsel /\
     kh L1 = key_hash (api_key API_KEYS (current_key_idx L1)) /\
     get_key_usage E (kh L1) wsel = (ku1, w1, [])).

(** Lines 172-186 find no key for an item of duration [dur] in the
    iteration that starts with [L] in the state [w]: the check of the
    current key fails, and so does the check of every key of the pool, in
    round-robin order from the next one; [w1] is the state after the last
    check. *)
Definition none_for (API_KEYS : list string) (E : Env) (dur : Z)
    (L : Loop) (w : World) (w1 : World) : Prop :=
  exists w0 ku wa,
    key_has_quota E (kh L) dur w = (false, w0, []) /\
    get_key_usage E (kh L) w0 = (ku, wa, []) /\
    all_refused API_KEYS E (seq 0 (length API_KEYS))
                (current_key_idx L + 1) dur wa = Some w1.

End Asr.

(** ** step1_fetch_metadata.py *)

Module Fetch.

Definition PAGE_SIZE : nat := 20.
Definition DELAY : Q := 3 # 2.
Definition INCREMENTAL_STOP_THRESHOLD : nat := 3.

(** An entry of [data['data']['medias']]: [item.get('bvid', '')] and
    [item.get('fav_time', 0)].  The descriptive fields that
    [parse_video_item] copies are left out. *)
Record Item : Type := mkItem {
  i_bvid : string;
  i_fav_time : Z
}.

(** An entry of [videos.json]. *)
Record Video : Type := mkVideo {
  bvid : string;
  fav_time : Z;
  folder : string
}.

Definition parse_video_item (item : Item) (folder_title : string) : Video :=
  {| bvid := i_bvid item; fav_time := i_fav_time item; folder := folder_title |}.

(** An entry of the list [get_all_folders] returns. *)
Record Folder : Type := mkFolder {
  id : Z;
  title : string;
  media_count : nat
}.

(** [(img_key, sub_key)] *)
Definition Keys : Type := string * string.

(** What a call of [fetch_page] does: it raises [httpx.TimeoutException],
    raises another exception (also while the answer is decoded), or returns
    the decoded answer with [data['code']], [data['data'].get('medias') or []]
    and [data['data'].get('has_more', False)]. *)
Inductive Response : Type :=
| Timeout
| OtherError
| Data (code : Z) (medias : list Item) (has_more : bool).

Inductive WbiResult : Type :=
| WbiTimeout
| WbiError
| WbiKeys (k : Keys).

(** The favourites API; the first argument of each oracle is the number of
    remote calls made so far.  [list_folders] is [None] when
    [get_all_folders] raises. *)
Record Remote : Type := mkRemote {
  fetch_page : nat -> Keys -> Z -> nat -> Response;
  get_wbi_keys : nat -> WbiResult;
  list_folders : nat -> Keys -> option (list Folder)
}.

(** [.fetch_progress.json] *)
Record Progress : Type := mkProgress {
  p_videos : list Video;
  next_page : nat;
  total : option nat;
  folder_idx : nat;
  seen_bvids : option (list string)
}.

(** [.last_scan.json], without the wall-clock [last_scan_time]. *)
Record LastScan : Type := mkLastScan {
  latest_fav_time : Z;
  total_known : nat
}.

(** The three files of the collector; [None] is a file that does not exist.
    Of [videos.json] only the list under ['videos'] is kept. *)
Record Disk : Type := mkDisk {
  progress_file : option Progress;
  last_scan_file : option LastScan;
  output_file : option (list Video)
}.

Inductive Event : Type :=
| EvFetch (media_id : Z) (page : nat)
| EvWbi
| EvFolders
| EvSleep (secs : Q)
| EvSaveProgress (p : Progress)
| EvUnlinkProgress
| EvWriteOutput (videos : list Video) (cookie_expired : bool)
| EvSaveLastScan (ls : LastScan).

Record World : Type := mkWorld {
  w_tick : nat;
  w_disk : Disk
}.

Definition is_fetch (e : Event) : bool :=
  match e with EvFetch _ _ => true | _ => false end.

(** The computation [m] leaves the files as they are. *)
Definition keeps_disk {A : Type} (m : SM.M World Event A) : Prop :=
  forall w, w_disk (SM.world (m w)) = w_disk w.

(** The state after one remote call. *)
Definition ticked (w : World) : World := mkWorld (S (w_tick w)) (w_disk w).

(** The state after [n] remote calls. *)
Fixpoint later (n : nat) (w : World) : World :=
  match n with
  | 0 => w
  | S n => later n (ticked w)
  end.

(** What [load_progress] returns when the file does not exist. *)
Definition empty_progress : Progress :=
  {| p_videos := []; next_page := 1; total := None; folder_idx := 0;
     seen_bvids := Some [] |}.

(** The local variables of [fetch_folder], with the set [seen_bvids] that
    it shares with [main] and updates in place. *)
Record FState : Type := mkFState {
  videos : list Video;
  page : nat;
  errors : nat;
  consecutive_known : nat;
  should_stop_after_page : bool;
  keys : Keys;
  seen : gset string
}.

(** [(new_videos, last_page, img_key, sub_key, cookie_expired)], with the
    shared set as [fetch_folder] leaves it. *)
Record FResult : Type := mkFResult {
  r_videos : list Video;
  r_page : nat;
  r_keys : Keys;
  r_expired : bool;
  r_seen : gset string
}.

Definition result (s : FState) (expired : bool) : FResult :=
  mkFResult (videos s) (page s) (keys s) expired (seen s).

(** The test of line 214:
    [incremental and bvid in seen_bvids and fav_time <= cutoff_fav_time]. *)
Definition known_below (incremental : bool) (cutoff_fav_time : Z)
    (s : FState) (item : Item) : bool :=
  incremental && bool_decide (i_bvid item ∈ seen s)
  && (i_fav_time item <=? cutoff_fav_time)%Z.

(** The body of [for item in medias]: the counters, the set and the list
    after one item. *)
Definition scan_item (incremental : bool) (cutoff_fav_time : Z)
    (folder_title : string) (s : FState) (item : Item) : FState :=
  let bv := i_bvid item in
  if known_below incremental cutoff_fav_time s item
  then
    let ck := S (consecutive_known s) in
    mkFState (videos s) (page s) (errors s) ck
             (if INCREMENTAL_STOP_THRESHOLD <=? ck then true
              else should_stop_after_page s)
             (keys s) (seen s)
  else if bool_decide (bv ∈ seen s)
  then mkFState (videos s) (page s) (errors s) 0 (should_stop_after_page s)
                (keys s) (seen s)
  else mkFState (videos s ++ [parse_video_item item folder_title]) (page s)
                (errors s) 0 (should_stop_after_page s) (keys s)
                ({[bv]} ∪ seen s).

Definition scan_page (incremental : bool) (cutoff_fav_time : Z)
    (folder_title : string) (s : FState) (medias : list Item) : FState :=
  fold_left (scan_item incremental cutoff_fav_time folder_title) medias s.

(** [errors = n] and [page = n]. *)
Definition set_errors (n : nat) (s : FState) : FState :=
  mkFState (videos s) (page s) n (consecutive_known s)
           (should_stop_after_page s) (keys s) (seen s).

Definition set_page (n : nat) (s : FState) : FState :=
  mkFState (videos s) n (errors s) (consecutive_known s)
           (should_stop_after_page s) (keys s) (seen s).

(** [img_key, sub_key = k] *)
Definition set_keys (k : Keys) (s : FState) : FState :=
  mkFState (videos s) (page s) (errors s) (consecutive_known s)
           (should_stop_after_page s) k (seen s).

Inductive Step : Type :=
| Again (s : FState)
| Done (r : FResult).

Section Collector.

Variable R : Remote.

Local Open Scope sm_scope.

Abbreviation M := (SM.M World Event).

Definition next_tick : M nat :=
  fun w => (w_tick w, mkWorld (S (w_tick w)) (w_disk w), []).

Definition sleep (secs : Q) : M unit := SM.emit (EvSleep secs).

Definition call_fetch_page (k : Keys) (media_id : Z) (pn : nat) : M Response :=
  let* _ := SM.emit (EvFetch media_id pn) in
  let* n := next_tick in
  SM.ret (fetch_page R n k media_id pn).

Definition call_get_wbi_keys : M WbiResult :=
  let* _ := SM.emit EvWbi in
  let* n := next_tick in
  SM.ret (get_wbi_keys R n).

Section Folder.

Variables (media_id : Z) (folder_title : string).
Variables (incremental : bool) (cutoff_fav_time : Z).

(** [except httpx.TimeoutException] *)
Definition on_timeout (s : FState) : M Step :=
  let* _ := sleep 10 in SM.ret (Again s).

(** [except Exception] *)
Definition on_exception (s : FState) : M Step :=
  SM.ret (Done (result s false)).

(** The [if errors >= 5: break] and the retry of the same page. *)
Definition retry_or_give_up (s : FState) : M Step :=
  if 5 <=? errors s then SM.ret (Done (result s false))
  else let* _ := sleep 3 in SM.ret (Again s).

(** Lines 200-242: a page that was read with code 0. *)
Definition process_page (s : FState) (medias : list Item) (has_more : bool)
  : M Step :=
  let s := set_errors 0 s in
  match medias with
  | [] => SM.ret (Done (result s false))
  | _ =>
      let s := scan_page incremental cutoff_fav_time folder_title s medias in
      if should_stop_after_page s then SM.ret (Done (result s false))
      else
        let s := set_page (S (page s)) s in
        if negb has_more then SM.ret (Done (result s false))
        else let* _ := sleep DELAY in SM.ret (Again s)
  end.

(** One pass through the body of [while True]. *)
Definition body (s : FState) : M Step :=
  let* r := call_fetch_page (keys s) media_id (page s) in
  match r with
  | Timeout => on_timeout s
  | OtherError => on_exception s
  | Data code medias has_more =>
      if negb (code =? 0)%Z then
        let s := set_errors (S (errors s)) s in
        if (code =? -403)%Z then
          let* k := call_get_wbi_keys in
          match k with
          | WbiTimeout => on_timeout s
          | WbiError => on_exception s
          | WbiKeys k' =>
              let s := set_keys k' s in
              let* _ := sleep 3 in
              let* r2 := call_fetch_page k' media_id (page s) in
              match r2 with
              | Timeout => on_timeout s
              | OtherError => on_exception s
              | Data code2 medias2 has_more2 =>
                  if (code2 =? -101)%Z then SM.ret (Done (result s true))
                  else if negb (code2 =? 0)%Z then retry_or_give_up s
                  else process_page s medias2 has_more2
              end
          end
        else if (code =? -101)%Z then SM.ret (Done (result s true))
        else retry_or_give_up s
      else process_page s medias has_more
  end.

(** [while True], cut after [fuel] passes: [None] means that the loop was
    still running. *)
Fixpoint fetch_loop (fuel : nat) (s : FState) : M (option FResult) :=
  match fuel with
  | 0 => SM.ret None
  | S fuel' =>
      let* st := body s in
      match st with
      | Done r => SM.ret (Some r)
      | Again s' => fetch_loop fuel' s'
      end
  end.

Definition fetch_folder (fuel : nat) (k : Keys) (start_page : nat)
    (seen_bvids : gset string) : M (option FResult) :=
  fetch_loop fuel (mkFState [] start_page 0 0 false k seen_bvids).

End Folder.

(** The local variables of [main] that change in the loop over the
    folders. *)
Record MState : Type := mkMState {
  all_videos : list Video;
  m_seen : gset string;
  m_keys : Keys;
  start_page : nat;
  new_count : nat;
  max_fav_time : Z;
  cookie_expired : bool
}.

(** How the script ends: normally, with [sys.exit(1)] after an expired
    cookie, or with an uncaught exception before anything was written. *)
Inductive Exit : Type :=
| ExitOk
| ExitCookieExpired
| ExitCrash.

Definition get_disk : M Disk := SM.gets w_disk.

Definition put_disk (d : Disk) : M unit :=
  SM.modify (fun w => mkWorld (w_tick w) d).

Definition save_progress (p : Progress) : M unit :=
  let* _ := SM.emit (EvSaveProgress p) in
  let* d := get_disk in
  put_disk (mkDisk (Some p) (last_scan_file d) (output_file d)).

Definition unlink_progress : M unit :=
  let* _ := SM.emit EvUnlinkProgress in
  let* d := get_disk in
  put_disk (mkDisk None (last_scan_file d) (output_file d)).

Definition write_output (vs : list Video) (expired : bool) : M unit :=
  let* _ := SM.emit (EvWriteOutput vs expired) in
  let* d := get_disk in
  put_disk (mkDisk (progress_file d) (last_scan_file d) (Some vs)).

Definition save_last_scan (latest : Z) (known : nat) : M unit :=
  let ls := mkLastScan latest known in
  let* _ := SM.emit (EvSaveLastScan ls) in
  let* d := get_disk in
  put_disk (mkDisk (progress_file d) (Some ls) (output_file d)).

Definition load_progress (d : Disk) : Progress :=
  match progress_file d with
  | Some p => p
  | None => empty_progress
  end.

Definition load_existing_videos (d : Disk) : list Video :=
  match output_file d with
  | Some vs => vs
  | None => []
  end.

Definition bvid_set (l : list string) : gset string := list_to_set l.

(** Lines 333-335. *)
Definition track_fav_time (m : Z) (new_videos : list Video) : Z :=
  fold_left (fun m v => if (m <? fav_time v)%Z then fav_time v else m)
            new_videos m.

(** Lines 379-380: [max(fav_times) if fav_times else 0]. *)
Definition max_known_fav_time (vs : list Video) : Z :=
  match List.filter (fun t => (0 <? t)%Z) (map fav_time vs) with
  | [] => 0%Z
  | t :: ts => fold_left Z.max ts t
  end.

(** Lines 378-380. *)
Definition final_cursor (m : Z) (vs : list Video) : Z :=
  if (m =? 0)%Z && negb (Nat.eqb (length vs) 0) then max_known_fav_time vs
  else m.

Section Main.

Variable is_incremental : bool.
Variable cutoff_fav_time : Z.
Variable total_expected : nat.
Variable start_folder_idx : nat.
Variable fuel : nat.

(** One iteration of [for i, folder in enumerate(folders)].  The result is
    [None] when [fetch_folder] was still running after [fuel] passes; the
    boolean is [true] on [break]. *)
Definition visit_folder (i : nat) (f : Folder) (ms : MState)
  : M (option (MState * bool)) :=
  if negb is_incremental && (i <? start_folder_idx)
  then SM.ret (Some (ms, false))
  else
    let pg := if negb is_incremental && (i =? start_folder_idx)
              then start_page ms else 1 in
    let ms := mkMState (all_videos ms) (m_seen ms) (m_keys ms) 1
                       (new_count ms) (max_fav_time ms) (cookie_expired ms) in
    if media_count f =? 0 then SM.ret (Some (ms, false))
    else
      let* r := fetch_folder (id f) (title f) is_incremental cutoff_fav_time
                             fuel (m_keys ms) pg (m_seen ms) in
      match r with
      | None => SM.ret None
      | Some r =>
          let ms := mkMState (all_videos ms ++ r_videos r) (r_seen r)
                             (r_keys r) 1
                             (new_count ms + length (r_videos r))
                             (track_fav_time (max_fav_time ms) (r_videos r))
                             (cookie_expired ms) in
          let* _ := (if negb is_incremental
                     then save_progress
                            (mkProgress (all_videos ms) 1 (Some total_expected)
                                        (S i) (Some (elements (m_seen ms))))
                     else SM.ret tt) in
          if r_expired r
          then SM.ret (Some (mkMState (all_videos ms) (m_seen ms) (m_keys ms)
                                      (start_page ms) (new_count ms)
                                      (max_fav_time ms) true, true))
          else let* _ := sleep 1 in SM.ret (Some (ms, false))
      end.

Fixpoint visit_folders (i : nat) (fs : list Folder) (ms : MState)
  : M (option MState) :=
  match fs with
  | [] => SM.ret (Some ms)
  | f :: rest =>
      let* r := visit_folder i f ms in
      match r with
      | None => SM.ret None
      | Some (ms', true) => SM.ret (Some ms')
      | Some (ms', false) => visit_folders (S i) rest ms'
      end
  end.

End Main.

(** Lines 357-386: what [main] writes after the loop. *)
Definition finish (ms : MState) : M Exit :=
  let* _ := write_output (all_videos ms) (cookie_expired ms) in
  let* d := get_disk in
  let* _ := (if negb (cookie_expired ms) && bool_decide (is_Some (progress_file d))
             then unlink_progress else SM.ret tt) in
  let* _ := save_last_scan (final_cursor (max_fav_time ms) (all_videos ms))
                           (length (all_videos ms)) in
  SM.ret (if cookie_expired ms then ExitCookieExpired else ExitOk).

(** [main], with [full] the flag [--full].  [None]: a folder was still being
    read after [fuel] passes of its loop. *)
Definition main (full : bool) (fuel : nat) : M (option Exit) :=
  let* d := get_disk in
  let last_scan := last_scan_file d in
  let is_incremental := negb full && bool_decide (is_Some last_scan) in
  let* k := call_get_wbi_keys in
  match k with
  | WbiTimeout | WbiError => SM.ret (Some ExitCrash)
  | WbiKeys k =>
      let* _ := SM.emit EvFolders in
      let* n := next_tick in
      match list_folders R n k with
      | None => SM.ret (Some ExitCrash)
      | Some folders =>
          let total_expected := foldr (fun f t => media_count f + t) 0 folders in
          let progress := load_progress d in
          let vs0 := if is_incremental then load_existing_videos d
                     else p_videos progress in
          let seen0 :=
            if is_incremental then bvid_set (map bvid vs0)
            else bvid_set (match seen_bvids progress with
                           | Some l => l
                           | None => map bvid vs0
                           end) in
          let cutoff :=
            match last_scan with
            | Some ls => if is_incremental then latest_fav_time ls else 0%Z
            | None => 0%Z
            end in
          let start_folder_idx := if is_incremental then 0 else folder_idx progress in
          let start_pg :=
            if is_incremental then 1
            else if (0 <? start_folder_idx) || (1 <? next_page progress)
                 then next_page progress else 1 in
          let* r := visit_folders is_incremental cutoff total_expected
                                  start_folder_idx fuel 0 folders
                                  (mkMState vs0 seen0 k start_pg 0 cutoff false) in
          match r with
          | None => SM.ret None
          | Some ms => let* e := finish ms in SM.ret (Some e)
          end
      end
  end.

(** A run of the script on the files [d]. *)
Definition run (full : bool) (fuel : nat) (d : Disk)
  : option Exit * World * list Event :=
  main full fuel (mkWorld 0 d).

End Collector.

End Fetch.

(** ** The checkpoint writers as sequences of file operations *)

Module Ckpt.

(** The calls that [atomic_write_json] (step 1) and [save_status] (step 3)
    make on the file system. *)
Inductive FsOp : Type :=
| OpOpenW (path : string)
| OpWrite (path : string) (bytes : string)
| OpFlush (path : string)
| OpFsync (path : string)
| OpClose (path : string)
| OpReplace (src dst : string).

(** [atomic_write_json(path, data)], with [json] the text [json.dump]
    produces: [tmp = Path(str(path) + '.tmp')]. *)
Definition atomic_write_json (path json : string) : list FsOp :=
  let tmp := (path ++ ".tmp")%string in
  [OpOpenW tmp; OpWrite tmp json; OpFlush tmp; OpFsync tmp; OpClose tmp;
   OpReplace tmp path].

Definition STATUS_PATH : string := "data/raw/asr_status.json".

(** [STATUS_PATH.with_suffix(".tmp")] *)
Definition STATUS_TMP : string := "data/raw/asr_status.tmp".

(** [save_status(st)]: the [with] block closes the file, nothing forces the
    bytes to the disk. *)
Definition save_status (json : string) : list FsOp :=
  [OpOpenW STATUS_TMP; OpWrite STATUS_TMP json; OpClose STATUS_TMP;
   OpReplace STATUS_TMP STATUS_PATH].

Definition is_fsync (o : FsOp) : bool :=
  match o with OpFsync _ => true | _ => false end.

(** A file: what a reader sees now, and the part of it that is on the disk.
    Only [fsync] moves the first into the second. *)
Record File : Type := mkFile {
  visible : string;
  durable : string
}.

Definition exec (fs : gmap string File) (o : FsOp) : gmap string File :=
  match o with
  | OpOpenW p => <[p := mkFile "" ""]> fs
  | OpWrite p b =>
      match fs !! p with
      | Some f => <[p := mkFile (visible f ++ b) (durable f)]> fs
      | None => fs
      end
  | OpFlush _ | OpClose _ => fs
  | OpFsync p =>
      match fs !! p with
      | Some f => <[p := mkFile (visible f) (visible f)]> fs
      | None => fs
      end
  | OpReplace src dst =>
      match fs !! src with
      | Some f => <[dst := f]> (delete src fs)
      | None => fs
      end
  end.

Definition exec_all (fs : gmap string File) (ops : list FsOp) : gmap string File :=
  fold_left exec ops fs.

(** What a reader finds under [path] while the process runs. *)
Definition read (fs : gmap string File) (path : string) : option string :=
  visible <$> fs !! path.

(** What a reader finds under [path] after a power loss. *)
Definition read_after_crash (fs : gmap string File) (path : string) : option string :=
  durable <$> fs !! path.

End Ckpt.

(** ** Concrete runs used below *)

Module AsrCases.

Import Asr.

Definition key1 : string := "gsk_pool_key_number_0001".
Definition key2 : string := "gsk_pool_key_number_0002".
Definition keys2 : list string := [key1; key2].

(** A clock that stands still, downloads that succeed, and a backend that
    hears fifty minutes of speech in every item. *)
Definition steady : Env :=
  mkEnv (fun _ => 0%Q) (fun _ _ => true)
        (fun _ _ _ => Transcribed "spoken words" 3000).

Definition queue5 : list Video :=
  [mkVideo "BV1a" 1700; mkVideo "BV1b" 1700; mkVideo "BV1c" 1700;
   mkVideo "BV1d" 1700; mkVideo "BV1e" 1700].

(** The loop of [steady] on [queue5] with the two keys, up to the fifth
    item: each key has then heard 6000 seconds. *)
Definition start : Loop := mkLoop 0 (key_hash key1) 0 0.

Definition at_fifth : Loop * option Halt * World * list Event :=
  run_loop keys2 steady (take 4 queue5) start (mkWorld empty_status 0).

(** The same loop as [main] starts it from the empty checkpoint, up to the
    third item: the first key has then heard 6000 seconds. *)
Definition loop_world : World :=
  match loop_start keys2 steady empty_status with
  | Some (_, w) => w
  | None => mkWorld empty_status 0
  end.

Definition at_third : Loop * option Halt * World * list Event :=
  run_loop keys2 steady (take 2 queue5) start loop_world.

(** The first key is rejected by the backend with a rate limit, the second
    is served. *)
Definition first_key_limited : Env :=
  mkEnv (fun _ => 0%Q) (fun _ _ => true)
        (fun _ key _ =>
           if String.eqb key key1
           then Raised "Error code: 429 - rate_limit_exceeded"
           else Transcribed "spoken words" 60).

Definition queue_ab : list Video :=
  [mkVideo "BV1a" 100; mkVideo "BV1b" 100].

(** Twelve items of which only the tenth and the twelfth can be
    downloaded. *)
Definition dl_streak (b : string) : bool :=
  String.eqb b "BV10" || String.eqb b "BV12".

Definition tr_plain (b : string) : TranscribeResult :=
  Transcribed "spoken words" 60.

Definition streak_env : Env :=
  mkEnv (fun _ => 0%Q) (fun _ b => dl_streak b) (fun _ _ b => tr_plain b).

Definition queue12 : list Video :=
  map (fun b => mkVideo b 100)
      ["BV01"; "BV02"; "BV03"; "BV04"; "BV05"; "BV06";
       "BV07"; "BV08"; "BV09"; "BV10"; "BV11"; "BV12"].

(** The checkpoint that the run on [queue12] writes when the download of
    the eleventh item fails: its tenth save. *)
Definition killed_after_11 : Status :=
  nth 9 (saved (SM.events (run keys2 streak_env queue12 empty_status)))
      empty_status.

(** The checkpoint that the same run writes when the download of the
    fourth item fails, and the same backend an hour and a half later. *)
Definition killed_after_4 : Status :=
  nth 3 (saved (SM.events (run keys2 streak_env queue12 empty_status)))
      empty_status.

Definition streak_env_later : Env :=
  mkEnv (fun _ => 5400%Q) (fun _ b => dl_streak b) (fun _ _ b => tr_plain b).

(** A queue with a forty-minute item in the middle. *)
Definition long_item : Video := mkVideo "BV9z" 2400.

Definition queue_long : list Video :=
  [mkVideo "BV1a" 1700; long_item; mkVideo "BV1b" 1700].

End AsrCases.

Module FetchCases.

Import Fetch.

Definition keys0 : Keys := ("img", "sub").

Definition two_folders : list Folder :=
  [mkFolder 10 "A" 40; mkFolder 20 "B" 1].

(** Folder 10 answers its first page, with more to come, and rejects the
    cookie on the second; folder 20 has one page. *)
Definition expiring : Remote :=
  mkRemote
    (fun _ _ media_id pn =>
       if (media_id =? 10)%Z then
         if pn =? 1 then Data 0 [mkItem "BV1a" 50; mkItem "BV1b" 40] true
         else Data (-101) [] false
       else Data 0 [mkItem "BV1c" 30] false)
    (fun _ => WbiKeys keys0)
    (fun _ _ => Some two_folders).

(** The same folders once the cookie has been renewed: the second page of
    folder 10 holds one more item. *)
Definition renewed : Remote :=
  mkRemote
    (fun _ _ media_id pn =>
       if (media_id =? 10)%Z then
         if pn =? 1 then Data 0 [mkItem "BV1a" 50; mkItem "BV1b" 40] true
         else Data 0 [mkItem "BV1z" 35] false
       else Data 0 [mkItem "BV1c" 30] false)
    (fun _ => WbiKeys keys0)
    (fun _ _ => Some two_folders).

(** Every page read times out. *)
Definition always_timeout : Remote :=
  mkRemote (fun _ _ _ _ => Timeout) (fun _ => WbiKeys keys0)
           (fun _ _ => Some two_folders).

(** Every page read is answered with an error code. *)
Definition always_error : Remote :=
  mkRemote (fun _ _ _ _ => Data (-500) [] false) (fun _ => WbiKeys keys0)
           (fun _ _ => Some two_folders).

(** The cookie is rejected at once. *)
Definition expired : Remote :=
  mkRemote (fun _ _ _ _ => Data (-101) [] false) (fun _ => WbiKeys keys0)
           (fun _ _ => Some two_folders).

Definition fresh_disk : Disk := mkDisk None None None.

(** The files after an earlier scan whose newest item was marked 100. *)
Definition scanned_disk : Disk :=
  mkDisk None (Some (mkLastScan 100 2))
         (Some [mkVideo "BV0x" 100 "A"; mkVideo "BV0y" 90 "A"]).




End FetchCases.

(** ** Invariants of the collector *)

Module FetchMore.

Import Fetch.

(** The videos [vs] gathered since the set of known identifiers was
    [seen0]: their identifiers are pairwise distinct, none was in [seen0],
    and the set is now [sn]. *)
Definition distinct_new (seen0 : gset string) (vs : list Video)
    (sn : gset string) : Prop :=
  NoDup (map bvid vs) /\
  (forall v, v ∈ vs -> bvid v ∉ seen0) /\
  sn = seen0 ∪ list_to_set (map bvid vs).

(** A property of the list and the set that a pass of the loop hands on. *)
Definition step_inv (P : list Video -> gset string -> Prop) (st : Step) : Prop :=
  match st with
  | Again s => P (videos s) (seen s)
  | Done r => P (r_videos r) (r_seen r)
  end.

(** Every run of [m] returns a value with the property [P]. *)
Definition yields {A : Type} (P : A -> Prop) (m : SM.M World Event A) : Prop :=
  forall w, P (SM.value (m w)).

(** [is_incremental], [all_videos], [seen_bvids] and [cutoff_fav_time] as
    [main] sets them before the loop (lines 262 and 288-299). *)
Definition is_incremental (full : bool) (d : Disk) : bool :=
  negb full && bool_decide (is_Some (last_scan_file d)).

Definition initial_videos (full : bool) (d : Disk) : list Video :=
  if is_incremental full d then load_existing_videos d
  else p_videos (load_progress d).

Definition initial_seen (full : bool) (d : Disk) : gset string :=
  if is_incremental full d then bvid_set (map bvid (load_existing_videos d))
  else bvid_set (match seen_bvids (load_progress d) with
                 | Some l => l
                 | None => map bvid (p_videos (load_progress d))
                 end).

Definition initial_cutoff (full : bool) (d : Disk) : Z :=
  match last_scan_file d with
  | Some ls => if is_incremental full d then latest_fav_time ls else 0%Z
  | None => 0%Z
  end.

(** What the loop over the folders has added to [vs0] since the set was
    [seen0]: the new videos are distinct, were unknown, and none is marked
    above the running maximum. *)
Definition grown (vs0 : list Video) (seen0 : gset string) (ms : MState) : Prop :=
  exists new,
    all_videos ms = vs0 ++ new /\
    distinct_new seen0 new (m_seen ms) /\
    forall v, v ∈ new -> (fav_time v <= max_fav_time ms)%Z.

End FetchMore.

(** ** More concrete runs *)

Module MoreCases.

Import Fetch.

(** Folder 10 of [FetchCases.renewed], read in full mode from page 1 when
    ["BV1a"] is already known. *)
Definition read_renewed : option FResult * World * list Event :=
  fetch_folder FetchCases.renewed 10 "A" false 0 9 FetchCases.keys0 1
               {["BV1a"]} (mkWorld 0 FetchCases.fresh_disk).

Definition read_renewed_result : FResult :=
  default (mkFResult [] 0 FetchCases.keys0 false ∅) (SM.value read_renewed).

(** The remote cannot be reached: [get_wbi_keys] raises. *)
Definition unreachable : Remote :=
  mkRemote (fun _ _ _ _ => Timeout) (fun _ => WbiError)
           (fun _ _ => None).

(** Files left by a full run that the expired cookie stopped. *)
Definition stopped_disk : Disk :=
  w_disk (SM.world (run FetchCases.expiring true 9 FetchCases.fresh_disk)).

End MoreCases.

(** ** More on the batch processor *)

Module AsrMore.

Import Asr.

(** The first key has heard an hour of audio since time 0. *)
Definition used_status : Status :=
  {| processed := ∅;
     key_usage := {[key_hash AsrCases.key1 := mkKeyUsage 3600 0 3600 0]};
     stats := mkStats 0 0 0 0 |}.

Definition used_world : World := mkWorld used_status 0.

Definition is_download (e : Event) : bool :=
  match e with EvDownload _ => true | _ => false end.

Definition is_transcribe (e : Event) : bool :=
  match e with EvTranscribe _ _ => true | _ => false end.

Definition is_write_text (e : Event) : bool :=
  match e with EvWriteText _ _ => true | _ => false end.

(** A download, a backend call or a transcript written. *)
Definition is_work (e : Event) : bool :=
  is_download e || is_transcribe e || is_write_text e.

Definition count (p : Event -> bool) (evs : list Event) : nat :=
  length (List.filter p evs).

(** What the statistics [t'] count over [t] is what the events [evs] show:
    a transcript written for each [ok], a download without a backend call
    for each [error_download], and a backend call for each of the other
    entries. *)
Definition accounted (t t' : Stats) (evs : list Event) : Prop :=
  n_ok t' = n_ok t + count is_write_text evs /\
  n_error_download t' + count is_transcribe evs
    = n_error_download t + count is_download evs /\
  n_ok t' + n_no_speech t' + n_error_transcribe t'
    <= n_ok t + n_no_speech t + n_error_transcribe t + count is_transcribe evs /\
  n_no_speech t <= n_no_speech t' /\
  n_error_transcribe t <= n_error_transcribe t'.

(** The computation [m] leaves the statistics as they are and does no
    work. *)
Definition keeps_stats {A : Type} (m : SM.M World Event A) : Prop :=
  forall w, stats (w_st (SM.world (m w))) = stats (w_st w) /\
            List.filter is_work (SM.events (m w)) = [].

(** [consecutive_dl_fails] after the events [evs], from the value [c]: a
    download adds one, a backend call, which follows a download that
    succeeded, sets it to 0. *)
Definition streak_step (c : nat) (e : Event) : nat :=
  match e with
  | EvDownload _ => S c
  | EvTranscribe _ _ => 0
  | _ => c
  end.

Definition streak (evs : list Event) (c : nat) : nat :=
  fold_left streak_step evs c.

(** No download succeeds. *)
Definition no_network : Env :=
  mkEnv (fun _ => 0%Q) (fun _ _ => false) (fun _ _ _ => Raised "unreachable").

(** The first item of [AsrCases.queue_ab] was transcribed by an earlier
    run. *)
Definition half_done : Status := set_processed "BV1a" ok empty_status.

End AsrMore.

(** ** wbi.py *)

Module Wbi.

Definition MIXIN_KEY_ENC_TAB : list nat :=
  [46; 47; 18; 2; 53; 8; 23; 32; 15; 50; 10; 31; 58; 3; 45; 35;
   27; 43; 5; 49; 33; 9; 42; 19; 29; 28; 14; 39; 12; 38; 41; 13;
   37; 48; 7; 16; 24; 55; 40; 61; 26; 17; 0; 1; 60; 51; 30; 4;
   22; 25; 54; 21; 56; 59; 6; 63; 57; 62; 11; 36; 20; 34; 44; 52].

(** [reduce(lambda s, i: s + orig[i], tab, s)]; [None] is the [IndexError]
    of [orig[i]] for an index past the end. *)
Fixpoint reduce_index (orig : string) (tab : list nat) (s : string)
  : option string :=
  match tab with
  | [] => Some s
  | i :: rest =>
      match String.get i orig with
      | Some c => reduce_index orig rest (s ++ String c EmptyString)%string
      | None => None
      end
  end.

Definition get_mixin_key (orig : string) : option string :=
  match reduce_index orig MIXIN_KEY_ENC_TAB EmptyString with
  | Some s => Some (Str.first_chars 32 s)
  | None => None
  end.

(** [s.rsplit(sep, 1)[1]]: what follows the last [sep]; [None] is the
    [IndexError] on a string without [sep]. *)
Fixpoint after_last (sep : ascii) (s : string) : option string :=
  match s with
  | EmptyString => None
  | String c r =>
      match after_last sep r with
      | Some t => Some t
      | None => if Ascii.eqb c sep then Some r else None
      end
  end.

(** [s.split(sep)[0]]: what precedes the first [sep], the whole string when
    there is none. *)
Fixpoint before_first (sep : ascii) (s : string) : string :=
  match s with
  | EmptyString => EmptyString
  | String c r =>
      if Ascii.eqb c sep then EmptyString else String c (before_first sep r)
  end.

(** Lines 40-42 of [get_wbi_keys], on the two addresses of the answer. *)
Definition get_wbi_keys (img_url sub_url : string) : option (string * string) :=
  match after_last "/" img_url, after_last "/" sub_url with
  | Some a, Some b => Some (before_first "." a, before_first "." b)
  | _, _ => None
  end.

(** [c in s] *)
Fixpoint has_char (c : ascii) (s : string) : bool :=
  match s with
  | EmptyString => false
  | String d r => Ascii.eqb d c || has_char c r
  end.

End Wbi.

(** * Properties *)

(** ** Running a computation of the monad *)

Module SMFacts.

Lemma bind_inv {W Ev A B} (m : SM.M W Ev A) (f : A -> SM.M W Ev B) w b w2 evs :
  SM.bind m f w = (b, w2, evs) ->
  exists a w1 e1 e2, m w = (a, w1, e1) /\ f a w1 = (b, w2, e2) /\ evs = e1 ++ e2.
Proof.
  unfold SM.bind. destruct (m w) as [[a w1] e1].
  destruct (f a w1) as [[b' w2'] e2] eqn:Hf. intros [= <- <- <-].
  exists a, w1, e1, e2. auto.
Qed.

Lemma bind_run {W Ev A B} (m : SM.M W Ev A) (f : A -> SM.M W Ev B) w a w1 e1 :
  m w = (a, w1, e1) ->
  SM.bind m f w = (let '(b, w2, e2) := f a w1 in (b, w2, e1 ++ e2)).
Proof. unfold SM.bind. intros ->. reflexivity. Qed.

Lemma ret_inv {W Ev A} (a : A) (w : W) b w' (evs : list Ev) :
  SM.ret a w = (b, w', evs) -> b = a /\ w' = w /\ evs = [].
Proof. unfold SM.ret. intros [= <- <- <-]. auto. Qed.

End SMFacts.

(** Split a hypothesis [H : (let* x := m in k) w = r] into the run of [m]
    and the run of [k]. *)
Ltac sm_bind H a w e Hm :=
  let e2 := fresh "e" in
  let Happ := fresh "Hevs" in
  apply SMFacts.bind_inv in H;
  destruct H as (a & w & e & e2 & Hm & H & Happ);
  subst.

Ltac sm_ret H :=
  apply SMFacts.ret_inv in H; destruct H as (? & ? & ?); simplify_eq.

(** ** The batch processor *)

Module AsrFacts.

Import Asr.

Section Facts.

Context (API_KEYS : list string) (E : Env).

(** *** Reading the usage of a key *)

Lemma get_key_usage_inv kh w ku w' evs :
  get_key_usage E kh w = (ku, w', evs) ->
  evs = [] /\ w_st w' = set_key_usage kh ku (w_st w) /\ w_tick w < w_tick w'.
Proof.
  unfold get_key_usage, SM.bind, get_st, SM.gets, time_time, SM.bind,
    next_tick, upd_st, SM.modify, SM.ret.
  destruct (key_usage (w_st w) !! kh); simpl; intros [= <- <- <-]; simpl;
    repeat split; lia.
Qed.

Lemma get_key_usage_processed kh w ku w' evs :
  get_key_usage E kh w = (ku, w', evs) ->
  evs = [] /\ processed (w_st w') = processed (w_st w).
Proof.
  intros H. apply get_key_usage_inv in H as (-> & -> & _). auto.
Qed.

Lemma within_limits_true ku dur :
  within_limits ku dur = true <->
  (hourly_audio ku + inject_Z dur <= HOURLY_LIMIT_PER_KEY)%Q /\
  (daily_audio ku + inject_Z dur <= DAILY_LIMIT_PER_KEY)%Q.
Proof.
  unfold within_limits. rewrite andb_true_iff, !Qle_bool_iff. reflexivity.
Qed.

Lemma key_has_quota_inv kh dur w b w' evs :
  key_has_quota E kh dur w = (b, w', evs) ->
  evs = [] /\ processed (w_st w') = processed (w_st w) /\
  w_tick w < w_tick w' /\
  exists ku, key_usage (w_st w') !! kh = Some ku /\ b = within_limits ku dur.
Proof.
  unfold key_has_quota. intros H. sm_bind H ku w1 e1 Hku. sm_ret H.
  apply get_key_usage_inv in Hku as (-> & Hst & Ht).
  rewrite Hst. simpl. repeat split; [lia|].
  exists ku. split; [apply lookup_insert_eq | reflexivity].
Qed.

(** A key is taken exactly when it has headroom in the state the check
    leaves. *)
Lemma key_has_quota_true kh dur w w' evs :
  key_has_quota E kh dur w = (true, w', evs) -> headroom (w_st w') kh dur.
Proof.
  intros H. apply key_has_quota_inv in H as (_ & _ & _ & ku & Hku & Hb).
  exists ku. split; [exact Hku|]. apply within_limits_true. auto.
Qed.

Lemma key_has_quota_false kh dur w w' evs :
  key_has_quota E kh dur w = (false, w', evs) -> ~ headroom (w_st w') kh dur.
Proof.
  intros H. apply key_has_quota_inv in H as (_ & _ & _ & ku & Hku & Hb).
  intros (ku' & Hku' & Hlim). rewrite Hku in Hku'. injection Hku' as <-.
  apply within_limits_true in Hlim. congruence.
Qed.

(** *** Searching the pool *)

Lemma seq_split a n (pre : list nat) i post :
  seq a n = pre ++ i :: post ->
  pre = seq a (length pre) /\ i = a + length pre /\ length pre < n.
Proof.
  revert a n. induction pre as [|p pre IH]; intros a n H.
  - destruct n as [|n]; simpl in H; [discriminate|].
    injection H as <- _. simpl. repeat split; lia.
  - destruct n as [|n]; simpl in H; [discriminate|].
    injection H as <- H. apply IH in H as (Hpre & -> & Hlt).
    simpl. rewrite <- Hpre. repeat split; lia.
Qed.

Lemma all_refused_processed js s d w w' :
  all_refused API_KEYS E js s d w = Some w' ->
  processed (w_st w') = processed (w_st w) /\ w_tick w <= w_tick w'.
Proof.
  revert w. induction js as [|j js IH]; intros w H; simpl in H.
  - injection H as <-. auto.
  - destruct (key_has_quota _ _ _ w) as [[b w1] e1] eqn:Hq.
    destruct b; [discriminate|].
    apply key_has_quota_inv in Hq as (_ & Hp & Ht & _).
    apply IH in H as (Hp' & Ht'). split; [congruence | lia].
Qed.

Lemma find_loop_inv js s d w r w' evs :
  find_loop API_KEYS E js s d w = (r, w', evs) ->
  evs = [] /\
  match r with
  | Some (idx, kh) =>
      exists pre i post wc,
        js = pre ++ i :: post /\
        all_refused API_KEYS E pre s d w = Some wc /\
        idx = (s + i) mod length API_KEYS /\
        kh = key_hash (api_key API_KEYS idx) /\
        key_has_quota E kh d wc = (true, w', [])
  | None => all_refused API_KEYS E js s d w = Some w'
  end.
Proof.
  revert w evs. induction js as [|j js IH]; intros w evs H; simpl in H.
  - sm_ret H. auto.
  - sm_bind H b w1 e1 Hq.
    pose proof (key_has_quota_inv _ _ _ _ _ _ Hq) as (-> & _).
    destruct b.
    + sm_ret H. split; [reflexivity|].
      exists [], j, js, w. simpl. auto.
    + apply IH in H as (-> & H). split; [reflexivity|].
      destruct r as [[idx kh]|].
      * destruct H as (pre & i & post & wc & -> & Hr & Hi & Hk & Hq').
        exists (j :: pre), i, post, wc. simpl. rewrite Hq. auto.
      * simpl. rewrite Hq. exact H.
Qed.

Lemma find_available_key_inv s d w r w' evs :
  find_available_key API_KEYS E s d w = (r, w', evs) ->
  evs = [] /\ processed (w_st w') = processed (w_st w) /\
  match r with
  | Some (idx, kh) =>
      idx < length API_KEYS /\
      kh = key_hash (api_key API_KEYS idx) /\
      headroom (w_st w') kh d /\
      round_robin_pick API_KEYS E s d w idx w'
  | None => all_refused API_KEYS E (seq 0 (length API_KEYS)) s d w = Some w'
  end.
Proof.
  unfold find_available_key. intros H.
  apply find_loop_inv in H as (-> & H). split; [reflexivity|].
  destruct r as [[idx kh]|].
  - destruct H as (pre & i & post & wc & Hjs & Hr & -> & -> & Hq).
    apply seq_split in Hjs as (Hpre & -> & Hlt). simpl in *.
    pose proof (all_refused_processed _ _ _ _ _ Hr) as (Hp1 & _).
    pose proof (key_has_quota_inv _ _ _ _ _ _ Hq) as (_ & Hp2 & _).
    split; [congruence|].
    split; [apply Nat.mod_upper_bound; lia|]. split; [reflexivity|].
    split; [eapply key_has_quota_true; eauto|].
    exists (length pre), wc. rewrite <- Hpre. auto.
  - pose proof (all_refused_processed _ _ _ _ _ H) as (Hp & _). auto.
Qed.

(** *** The primitive steps *)

Lemma save_status_inv w u w' evs :
  save_status w = (u, w', evs) -> w' = w /\ evs = [EvSave (w_st w)].
Proof. unfold save_status. cbn. intros [= <- <- <-]. auto. Qed.

Lemma sleep_inv q w u w' evs :
  sleep q w = (u, w', evs) -> w' = w /\ evs = [EvSleep q].
Proof. cbn. intros [= <- <- <-]. auto. Qed.

Lemma emit_inv e w u w' evs :
  emit e w = (u, w', evs) -> w' = w /\ evs = [e].
Proof. cbn. intros [= <- <- <-]. auto. Qed.

Lemma record_inv b s w u w' evs :
  record b s w = (u, w', evs) ->
  evs = [] /\ w_tick w' = w_tick w /\
  processed (w_st w') = <[b := s]> (processed (w_st w)) /\
  key_usage (w_st w') = key_usage (w_st w).
Proof. cbn. intros [= <- <- <-]. auto. Qed.

Lemma upd_key_usage_inv kh ku w u w' evs :
  upd_st (set_key_usage kh ku) w = (u, w', evs) ->
  evs = [] /\ w_tick w' = w_tick w /\
  processed (w_st w') = processed (w_st w).
Proof. cbn. intros [= <- <- <-]. auto. Qed.

Lemma call_download_inv b w d w' evs :
  call_download E b w = (d, w', evs) ->
  d = download_audio E (w_tick w) b /\ w_st w' = w_st w /\
  w_tick w' = S (w_tick w) /\ evs = [EvDownload b].
Proof. cbn. intros [= <- <- <-]. auto. Qed.

Lemma call_transcribe_inv key b w t w' evs :
  call_transcribe E key b w = (t, w', evs) ->
  t = transcribe E (w_tick w) key b /\ w_st w' = w_st w /\
  w_tick w' = S (w_tick w) /\ evs = [EvTranscribe key b].
Proof. cbn. intros [= <- <- <-]. auto. Qed.

Lemma after_item_inv L w u w' evs :
  after_item E L w = (u, w', evs) ->
  processed (w_st w') = processed (w_st w) /\
  forall b key, Forall (iteration_event b key (processed (w_st w))) evs.
Proof.
  unfold after_item. intros H. sm_bind H u1 w1 e1 Hc.
  apply sleep_inv in H as (-> & ->).
  destruct (_ && _).
  - sm_bind Hc u2 w2 e2 Hs. apply save_status_inv in Hs as (-> & ->).
    sm_bind Hc ku w3 e3 Hk. sm_ret Hc.
    apply get_key_usage_processed in Hk as (-> & Hp).
    split; [exact Hp|]. intros b key. simpl.
    repeat constructor; simpl; auto.
  - sm_ret Hc. split; [reflexivity|]. intros b key.
    repeat constructor; simpl; auto.
Qed.

(** *** The check before an item (lines 172-186) *)

Lemma rotate_if_needed_inv L d w r w1 evs :
  rotate_if_needed API_KEYS E L d w = (r, w1, evs) ->
  processed (w_st w1) = processed (w_st w) /\
  (evs = [] \/ exists s, evs = [EvSave s] /\ processed s = processed (w_st w)) /\
  match r with
  | Some L1 =>
      run_ok L1 = run_ok L /\
      consecutive_dl_fails L1 = consecutive_dl_fails L /\
      exists wsel,
        headroom (w_st wsel) (kh L1) d /\
        ((L1 = L /\ wsel = w1 /\ key_has_quota E (kh L) d w = (true, wsel, [])) \/
         (key_ok API_KEYS L1 /\
          exists w0 wr,
            key_has_quota E (kh L) d w = (false, w0, []) /\
            round_robin_pick API_KEYS E (current_key_idx L + 1) d wr
                             (current_key_idx L1) wsel))
  | None =>
      exists w0 wr,
        key_has_quota E (kh L) d w = (false, w0, []) /\
        all_refused API_KEYS E (seq 0 (length API_KEYS))
                    (current_key_idx L + 1) d wr = Some w1
  end.
Proof.
  unfold rotate_if_needed. intros H. sm_bind H b w0 e0 Hq.
  pose proof (key_has_quota_inv _ _ _ _ _ _ Hq) as (-> & Hp0 & _).
  destruct b.
  - sm_ret H. split; [exact Hp0|]. split; [left; reflexivity|].
    repeat split. exists w0. split; [eapply key_has_quota_true; eauto|].
    left. auto.
  - sm_bind H ku wa ea Hk. apply get_key_usage_processed in Hk as (-> & Hpa).
    sm_bind H u wb eb Hs. apply save_status_inv in Hs as (-> & ->).
    sm_bind H f wc ec Hf.
    pose proof (find_available_key_inv _ _ _ _ _ _ Hf) as (-> & Hpc & Hfind).
    destruct f as [[new_idx new_kh]|].
    + sm_bind H ku' wd ed Hk'.
      apply get_key_usage_processed in Hk' as (-> & Hpd). sm_ret H.
      split; [congruence|].
      split; [right; eexists; split; [reflexivity | congruence]|].
      simpl. repeat split.
      destruct Hfind as (Hlt & -> & Hhead & Hpick).
      exists wc. split; [exact Hhead|]. right.
      split; [split; [exact Hlt | reflexivity]|].
      exists w0, wa. auto.
    + sm_ret H. split; [congruence|].
      split; [right; eexists; split; [reflexivity | congruence]|].
      exists w0, wa. auto.
Qed.

(** *** One iteration of the loop *)

Lemma process_video_inv v L w L' h w' evs :
  process_video API_KEYS E v L w = (L', h, w', evs) ->
  let b := bvid v in
  let P := processed (w_st w) in
  if negb (Str.truthy b) || is_done (P !! b)
  then L' = L /\ h = None /\ w' = w /\ evs = []
  else
    exists r w1 evs1,
      rotate_if_needed API_KEYS E L (duration v) w = (r, w1, evs1) /\
      match r with
      | None => L' = L /\ h = Some HaltQuota /\ w' = w1 /\ evs = evs1
      | Some L1 =>
          exists n1 n2 evs2,
            evs = evs1 ++ EvDownload b :: evs2 /\
            Forall (iteration_event b (api_key API_KEYS (current_key_idx L1))
                                    (processed (w_st w'))) evs2 /\
            (key_ok API_KEYS L1 -> key_ok API_KEYS L') /\
            if download_audio E n1 b then
              match transcribe E n2 (api_key API_KEYS (current_key_idx L1)) b with
              | Transcribed text _ =>
                  h = None /\
                  processed (w_st w') =
                    <[b := if Str.truthy text then ok else no_speech]> P
              | Raised msg =>
                  if is_rate_limit msg
                  then processed (w_st w') = P /\
                       (h = None \/ h = Some HaltRateLimit)
                  else h = None /\
                       processed (w_st w') = <[b := error_transcribe]> P
              end
            else
              processed (w_st w') = <[b := error_download]> P /\
              consecutive_dl_fails L' = S (consecutive_dl_fails L1) /\
              h = (if 10 <=? consecutive_dl_fails L' then Some HaltStreak else None)
      end.
Proof.
  intros H. cbv zeta. unfold process_video in H.
  sm_bind H st w0 e0 Hg. cbn in Hg. injection Hg as <- <- <-.
  destruct (negb (Str.truthy (bvid v)) || is_done (processed (w_st w) !! bvid v)).
  { sm_ret H. auto. }
  sm_bind H r w1 evs1 Hr. exists r, w1, evs1. split; [exact Hr|].
  pose proof (rotate_if_needed_inv _ _ _ _ _ _ Hr) as (Hp1 & _ & _).
  destruct r as [L1|]; [|sm_ret H; simpl; rewrite app_nil_r; auto].
  sm_bind H d w2 e2 Hd.
  apply call_download_inv in Hd as (Hd & Hst2 & Ht2 & ->).
  exists (w_tick w1), (w_tick w2). rewrite <- Hd.
  destruct d; simpl negb in H; cbv iota in H.
  - (* the download succeeded *)
    sm_bind H t w3 e3 Ht. simpl current_key_idx in *.
    apply call_transcribe_inv in Ht as (Ht & Hst3 & Ht3 & ->).
    rewrite <- Ht. simpl kh in *.
    destruct t as [text actual | msg].
    + sm_bind H ku w4 e4 Hk. apply get_key_usage_processed in Hk as (-> & Hp4).
      sm_bind H L2 w5 e5 Hrec. sm_bind H u w6 e6 Hu.
      apply upd_key_usage_inv in Hu as (-> & _ & Hp6).
      sm_bind H u' w7 e7 Ha. sm_ret H.
      apply after_item_inv in Ha as (Hp7 & Hev7).
      assert (Hfin : processed (w_st w7) =
                <[bvid v := if Str.truthy text then ok else no_speech]>
                  (processed (w_st w)) /\
              Forall (iteration_event (bvid v)
                        (api_key API_KEYS (current_key_idx L1))
                        (processed (w_st w7))) e5 /\
              (key_ok API_KEYS L1 -> key_ok API_KEYS L2)).
      { destruct (Str.truthy text).
        - sm_bind Hrec u1 wa ea He. apply emit_inv in He as (-> & ->).
          sm_bind Hrec u2 wb eb Hrc. apply record_inv in Hrc as (-> & _ & Hpb & _).
          sm_ret Hrec. split; [|split; [repeat constructor | auto]].
          rewrite Hp7, Hp6, Hpb, Hp4, Hst3, Hst2, Hp1. reflexivity.
        - sm_bind Hrec u2 wb eb Hrc. apply record_inv in Hrc as (-> & _ & Hpb & _).
          sm_ret Hrec. split; [|split; [constructor | auto]].
          rewrite Hp7, Hp6, Hpb, Hp4, Hst3, Hst2, Hp1. reflexivity. }
      destruct Hfin as (Hfin & Hev5 & Hkey).
      eexists. split; [reflexivity|]. split; [|auto].
      simpl. rewrite !app_nil_r. constructor; [simpl; auto|].
      rewrite Forall_app. split; [exact Hev5|].
      rewrite Hp7. apply Hev7.
    + destruct (is_rate_limit msg).
      * sm_bind H f w4 e4 Hf.
        pose proof (find_available_key_inv _ _ _ _ _ _ Hf) as (-> & Hp4 & Hfind).
        assert (Hp : processed (w_st w4) = processed (w_st w))
          by (rewrite Hp4, Hst3, Hst2, Hp1; reflexivity).
        destruct f as [[new_idx new_kh]|]; sm_ret H;
          (eexists; split; [reflexivity|]; split;
           [repeat constructor; simpl; auto | split; [|auto]]).
        -- intros _. destruct Hfind as (Hlt & -> & _).
           split; [exact Hlt | reflexivity].
        -- auto.
      * sm_bind H u w4 e4 Hrc. apply record_inv in Hrc as (-> & _ & Hp4 & _).
        sm_bind H u' w5 e5 Ha. sm_ret H.
        apply after_item_inv in Ha as (Hp5 & Hev5).
        eexists. split; [reflexivity|]. split; [|split; [auto|]].
        -- simpl. rewrite !app_nil_r. constructor; [simpl; auto|].
           rewrite Hp5. apply Hev5.
        -- split; [reflexivity|].
           rewrite Hp5, Hp4, Hst3, Hst2, Hp1. reflexivity.
  - (* the download failed *)
    sm_bind H u w3 e3 Hrc. apply record_inv in Hrc as (-> & _ & Hp3 & _).
    sm_bind H u' w4 e4 Hs. apply save_status_inv in Hs as (-> & ->).
    assert (Hp : processed (w_st w3) =
              <[bvid v := error_download]> (processed (w_st w)))
      by (rewrite Hp3, Hst2, Hp1; reflexivity).
    cbn [consecutive_dl_fails] in H.
    destruct (10 <=? S (consecutive_dl_fails L1)) eqn:Hstreak.
    + sm_ret H. eexists. split; [reflexivity|].
      cbn [consecutive_dl_fails app]. rewrite Hstreak.
      split; [repeat constructor|auto].
    + sm_bind H u2 w5 e5 Hsl. apply sleep_inv in Hsl as (-> & ->). sm_ret H.
      eexists. split; [reflexivity|].
      cbn [consecutive_dl_fails app]. rewrite Hstreak.
      split; [repeat constructor|auto].
Qed.

(** *** The whole run *)

Lemma final_report_inv keys w u w' evs :
  final_report E keys w = (u, w', evs) ->
  evs = [] /\ processed (w_st w') = processed (w_st w).
Proof.
  revert w evs. induction keys as [|k keys IH]; intros w evs H; simpl in H.
  - sm_ret H. auto.
  - sm_bind H ku w1 e1 Hk. apply get_key_usage_processed in Hk as (-> & Hp).
    apply IH in H as (-> & Hp'). split; [reflexivity | congruence].
Qed.

Lemma drain_inv vs L w h w' evs :
  drain API_KEYS E vs L w = (h, w', evs) ->
  exists Ll w2 evsl,
    run_loop API_KEYS E vs L w = (Ll, h, w2, evsl) /\
    evs = evsl ++ [EvSave (w_st w2)] /\
    processed (w_st w') = processed (w_st w2).
Proof.
  unfold drain. intros H.
  sm_bind H r w2 e2 Hl. destruct r as [Ll hl].
  sm_bind H u w3 e3 Hs. apply save_status_inv in Hs as (-> & ->).
  sm_bind H u' w4 e4 Hr. apply final_report_inv in Hr as (-> & Hp4).
  sm_ret H. exists Ll, w2, e2. split; [exact Hl|].
  simpl. rewrite ?app_nil_r. auto.
Qed.

Lemma main_inv queue w h w' evs :
  main API_KEYS E queue w = (h, w', evs) ->
  (h = Some HaltNoKeyAtStart /\
   processed (w_st w') = processed (w_st w) /\
   exists s, evs = [EvSave s] /\ processed s = processed (w_st w)) \/
  (exists L0 w1 Ll w2 evsl,
     key_ok API_KEYS L0 /\ consecutive_dl_fails L0 = 0 /\
     processed (w_st w1) = processed (w_st w) /\
     run_loop API_KEYS E (List.filter short_enough queue) L0 w1
       = (Ll, h, w2, evsl) /\
     evs = evsl ++ [EvSave (w_st w2)] /\
     processed (w_st w') = processed (w_st w2)).
Proof.
  unfold main. intros H. sm_bind H f w0 e0 Hf.
  pose proof (find_available_key_inv _ _ _ _ _ _ Hf) as (-> & Hp0 & Hfind).
  destruct f as [[idx kh0]|].
  - right. sm_bind H ku w1 e1 Hk.
    apply get_key_usage_processed in Hk as (-> & Hp1).
    apply drain_inv in H as (Ll & w2 & evsl & Hl & -> & Hp).
    exists (mkLoop idx (key_hash (api_key API_KEYS idx)) 0 0), w1, Ll, w2, evsl.
    destruct Hfind as (Hlt & _).
    split; [split; [exact Hlt | reflexivity]|]. split; [reflexivity|].
    split; [congruence|]. split; [exact Hl|]. auto.
  - left. sm_bind H u w1 e1 Hs. apply save_status_inv in Hs as (-> & ->).
    sm_ret H. split; [reflexivity|]. split; [exact Hp0|].
    exists (w_st w0). auto.
Qed.

(** *** C1: the key used for an item had quota when it was chosen *)

Lemma run_loop_app pre vs L0 w0 L w e1 :
  run_loop API_KEYS E pre L0 w0 = (L, None, w, e1) ->
  run_loop API_KEYS E (pre ++ vs) L0 w0 =
    (let '(r, w', e2) := run_loop API_KEYS E vs L w in (r, w', e1 ++ e2)).
Proof.
  revert L0 w0 e1. induction pre as [|p pre IH]; intros L0 w0 e1 H; simpl in *.
  - sm_ret H. destruct (run_loop API_KEYS E vs _ _) as [[r w'] e2]. reflexivity.
  - sm_bind H r w1 ev1 Hv. destruct r as [L1 h1].
    rewrite (SMFacts.bind_run _ _ _ _ _ _ Hv).
    destruct h1 as [hh|]; [sm_ret H|].
    rewrite (IH _ _ _ H).
    destruct (run_loop API_KEYS E vs L w) as [[r w'] e2].
    rewrite app_assoc. reflexivity.
Qed.

(** Reading an entry can only empty its counters. *)
Lemma reset_keeps_limits now ku d :
  (inject_Z d <= HOURLY_LIMIT_PER_KEY)%Q ->
  within_limits ku d = true ->
  within_limits (reset_day now (reset_hour now ku)) d = true.
Proof.
  intros Hd Hlim. apply within_limits_true in Hlim as (Hh & Hday).
  apply within_limits_true.
  assert (Hd' : (inject_Z d <= DAILY_LIMIT_PER_KEY)%Q).
  { unfold HOURLY_LIMIT_PER_KEY, DAILY_LIMIT_PER_KEY in *. lra. }
  unfold reset_day, reset_hour.
  destruct (Qle_bool 3600 (now - hour_start ku));
    cbn [hourly_audio daily_audio day_start hour_start];
    destruct (Qle_bool 86400 (now - day_start ku));
    cbn [hourly_audio daily_audio day_start hour_start];
    split; try assumption; lra.
Qed.

Lemma get_key_usage_keeps_headroom kh d w ku w' evs :
  (inject_Z d <= HOURLY_LIMIT_PER_KEY)%Q ->
  headroom (w_st w) kh d ->
  get_key_usage E kh w = (ku, w', evs) ->
  headroom (w_st w') kh d.
Proof.
  intros Hd (ku0 & Hku0 & Hh & Hday) H.
  pose proof (get_key_usage_inv kh w ku w' evs H) as (_ & Hst & _).
  exists ku. rewrite Hst. simpl. split; [apply lookup_insert_eq|].
  apply within_limits_true.
  revert H.
  unfold get_key_usage, SM.bind, get_st, SM.gets, time_time, SM.bind,
    next_tick, upd_st, SM.modify, SM.ret.
  rewrite Hku0. simpl. intros [= <- _].
  apply reset_keeps_limits; [exact Hd|].
  apply within_limits_true. auto.
Qed.

Lemma short_enough_within v :
  short_enough v = true -> (inject_Z (duration v) <= HOURLY_LIMIT_PER_KEY)%Q.
Proof.
  unfold short_enough, MAX_DURATION_SEC, HOURLY_LIMIT_PER_KEY. intros H.
  apply Z.leb_le in H. unfold Qle. simpl. lia.
Qed.

(** The check before an item, with the states it goes through. *)
Lemma rotate_if_needed_tied L d w r w1 evs :
  rotate_if_needed API_KEYS E L d w = (r, w1, evs) ->
  List.filter is_backend_call evs = [] /\
  match r with
  | Some L1 =>
      exists wsel,
        selected_for API_KEYS E d L w L1 wsel w1 /\
        headroom (w_st wsel) (kh L1) d /\
        (key_ok API_KEYS L -> key_ok API_KEYS L1)
  | None => none_for API_KEYS E d L w w1
  end.
Proof.
  unfold rotate_if_needed. intros H. sm_bind H b w0 e0 Hq.
  pose proof (key_has_quota_inv _ _ _ _ _ _ Hq) as (-> & _).
  destruct b.
  - sm_ret H. split; [reflexivity|]. exists w0.
    split; [left; auto|]. split; [eapply key_has_quota_true; eauto | auto].
  - sm_bind H ku wa ea Hk.
    pose proof (get_key_usage_inv _ _ _ _ _ Hk) as (-> & _).
    sm_bind H u wb eb Hs. apply save_status_inv in Hs as (-> & ->).
    sm_bind H f wc ec Hf.
    pose proof (find_available_key_inv _ _ _ _ _ _ Hf) as (-> & _ & Hfind).
    destruct f as [[new_idx new_kh]|].
    + sm_bind H ku' wd ed Hk'.
      pose proof (get_key_usage_inv _ _ _ _ _ Hk') as (-> & _). sm_ret H.
      split; [reflexivity|].
      destruct Hfind as (Hlt & -> & Hhead & Hpick).
      exists wc. split; [|split; [exact Hhead|]].
      * right. exists w0, ku, wa, ku'. simpl. auto.
      * intros _. split; [exact Hlt | reflexivity].
    + sm_ret H. split; [reflexivity|]. exists w0, ku, wa. auto.
Qed.

Lemma process_video_key_ok v L w L' h w' evs :
  process_video API_KEYS E v L w = (L', h, w', evs) ->
  key_ok API_KEYS L -> key_ok API_KEYS L'.
Proof.
  intros H Hok. apply process_video_inv in H. cbv zeta in H.
  destruct (negb (Str.truthy (bvid v)) || is_done (processed (w_st w) !! bvid v)).
  { destruct H as (-> & _). exact Hok. }
  destruct H as (r & w1 & evs1 & Hr & H).
  apply rotate_if_needed_tied in Hr as (_ & Hsel).
  destruct r as [L1|].
  - destruct Hsel as (wsel & _ & _ & Hok1).
    destruct H as (n1 & n2 & evs2 & _ & _ & Hkey & _). auto.
  - destruct H as (-> & _). exact Hok.
Qed.

Lemma run_loop_key_ok vs L w L' h w' evs :
  run_loop API_KEYS E vs L w = (L', h, w', evs) ->
  key_ok API_KEYS L -> key_ok API_KEYS L'.
Proof.
  revert L w evs. induction vs as [|v vs IH]; intros L w evs H Hok; simpl in H.
  - sm_ret H. exact Hok.
  - sm_bind H r w1 e1 Hv. destruct r as [L1 h1].
    apply process_video_key_ok in Hv; [|exact Hok].
    destruct h1 as [hh|]; [sm_ret H; exact Hv|]. eauto.
Qed.

(** [main] is the loop run from [loop_start]. *)
Lemma main_from_loop_start queue st0 L0 w0 :
  loop_start API_KEYS E st0 = Some (L0, w0) ->
  key_ok API_KEYS L0 /\
  main API_KEYS E queue (mkWorld st0 0)
  = drain API_KEYS E (List.filter short_enough queue) L0 w0.
Proof.
  unfold loop_start, main. intros H.
  destruct (find_available_key API_KEYS E 0 0 (mkWorld st0 0))
    as [[f w00] e0] eqn:Hf.
  pose proof (find_available_key_inv _ _ _ _ _ _ Hf) as (-> & _ & Hfind).
  rewrite (SMFacts.bind_run _ _ _ _ _ _ Hf).
  destruct f as [[idx kh0]|]; [|discriminate].
  destruct (get_key_usage E (key_hash (api_key API_KEYS idx)) w00)
    as [[ku w1] e1] eqn:Hk.
  pose proof (get_key_usage_inv _ _ _ _ _ Hk) as (-> & _).
  rewrite (SMFacts.bind_run _ _ _ _ _ _ Hk).
  injection H as <- <-.
  destruct Hfind as (Hlt & _).
  split; [split; [exact Hlt | reflexivity]|].
  destruct (drain API_KEYS E _ _ w1) as [[h w'] evs]. reflexivity.
Qed.

(** C1.  The loop of a run has reached the item [v] of the queue, which is
    still to be processed, with the variables [L] in the state [w]: [L0]
    and [w0] are those with which [main] starts the loop from the
    checkpoint [st0], and the items [pre] before [v] have brought them to
    [L] and [w].  Then the events [evs] of the iteration for [v] are events
    of the run, and one of two things happens.  Either a key is chosen as
    [selected_for] says, from the state [w]: the current key if its check
    succeeds there, otherwise the first key whose check succeeds in
    round-robin order from the next one.  In the state [wsel] that the
    successful check leaves, and still in the state [w1] in which the
    download starts, the hourly counter of this key plus [duration v] does
    not exceed the hourly limit and its daily counter plus [duration v]
    does not exceed the daily limit ([headroom]); the download of [v] is
    the first download or backend call of the iteration, and every backend
    call of the iteration is for [v] with this key.  Or no key passes the
    check ([none_for]), the loop ends on [HaltQuota], and the iteration
    makes no download and no backend call. *)
Theorem selected_key_has_quota queue st0 pre v rest L0 w0 L w evs_pre :
  loop_start API_KEYS E st0 = Some (L0, w0) ->
  List.filter short_enough queue = pre ++ v :: rest ->
  run_loop API_KEYS E pre L0 w0 = (L, None, w, evs_pre) ->
  Str.truthy (bvid v) = true ->
  is_done (processed (w_st w) !! bvid v) = false ->
  let '(L', h, w', evs) := process_video API_KEYS E v L w in
  (exists evs_rest,
     SM.events (run API_KEYS E queue st0) = evs_pre ++ evs ++ evs_rest) /\
  ((exists L1 wsel w1 evs1 evs2,
      selected_for API_KEYS E (duration v) L w L1 wsel w1 /\
      headroom (w_st wsel) (kh L1) (duration v) /\
      headroom (w_st w1) (kh L1) (duration v) /\
      key_ok API_KEYS L1 /\
      evs = evs1 ++ EvDownload (bvid v) :: evs2 /\
      List.filter is_backend_call evs1 = [] /\
      Forall (iteration_event (bvid v)
                (api_key API_KEYS (current_key_idx L1))
                (processed (w_st w'))) evs2) \/
   (h = Some HaltQuota /\
    none_for API_KEYS E (duration v) L w w' /\
    List.filter is_backend_call evs = [])).
Proof.
  intros Hstart Hqueue Hpre Htr Hnd.
  destruct (process_video API_KEYS E v L w) as [[[L' h] w'] evs] eqn:Hv.
  destruct (main_from_loop_start queue st0 L0 w0 Hstart) as (Hok0 & Hmain).
  pose proof (run_loop_key_ok _ _ _ _ _ _ _ Hpre Hok0) as Hok.
  split.
  - unfold run. rewrite Hmain, Hqueue. unfold drain.
    pose proof (run_loop_app pre (v :: rest) _ _ _ _ _ Hpre) as Happ.
    simpl run_loop in Happ.
    rewrite (SMFacts.bind_run _ _ _ _ _ _ Hv) in Happ.
    destruct (match h with
              | Some _ => SM.ret (L', h)
              | None => run_loop API_KEYS E rest L'
              end w') as [[r2 w2] e2] eqn:Hrest.
    rewrite (SMFacts.bind_run _ _ _ _ _ _ Happ).
    destruct r2 as [Ll hl].
    destruct ((let* _ := save_status in
               let* _ := final_report E API_KEYS in
               SM.ret hl)%sm w2) as [[b3 w3] e3].
    exists (e2 ++ e3). unfold SM.events. simpl.
    rewrite <- !app_assoc. reflexivity.
  - assert (Hshort : short_enough v = true).
    { assert (Hin : In v (List.filter short_enough queue))
        by (rewrite Hqueue; apply in_elt).
      apply filter_In in Hin as (_ & Hs). exact Hs. }
    apply short_enough_within in Hshort.
    apply process_video_inv in Hv. cbv zeta in Hv.
    rewrite Htr, Hnd in Hv. simpl in Hv.
    destruct Hv as (r & w1 & evs1 & Hr & Hv).
    apply rotate_if_needed_tied in Hr as (Hquiet & Hsel).
    destruct r as [L1|].
    + left. destruct Hsel as (wsel & Hsel & Hhead & Hok1).
      destruct Hv as (n1 & n2 & evs2 & -> & Hev & _).
      exists L1, wsel, w1, evs1, evs2.
      split; [exact Hsel|]. split; [exact Hhead|].
      split; [|split; [auto|split; [reflexivity|split; assumption]]].
      destruct Hsel as [(_ & _ & ->) | (wq & ku & wa & ku1 & _ & _ & _ & _ & Hk)];
        [exact Hhead|].
      eapply get_key_usage_keeps_headroom; eauto.
    + right. destruct Hv as (-> & -> & -> & ->). auto.
Qed.

(** *** C6: the pool is exhausted *)

Lemma no_reset now ku :
  (now - hour_start ku < 3600)%Q -> (now - day_start ku < 86400)%Q ->
  reset_day now (reset_hour now ku) = ku.
Proof.
  intros Hh Hd. unfold reset_hour.
  destruct (Qle_bool 3600 (now - hour_start ku)) eqn:Hb.
  { apply Qle_bool_iff in Hb. lra. }
  unfold reset_day.
  destruct (Qle_bool 86400 (now - day_start ku)) eqn:Hb'.
  { apply Qle_bool_iff in Hb'. lra. }
  reflexivity.
Qed.

Lemma set_key_usage_id kh ku st :
  key_usage st !! kh = Some ku -> set_key_usage kh ku st = st.
Proof.
  intros H. destruct st as [p u t]. unfold set_key_usage. simpl in *.
  f_equal. apply insert_id. exact H.
Qed.

Lemma exhausted_later w w' d :
  exhausted API_KEYS E w d -> w_st w' = w_st w -> w_tick w <= w_tick w' ->
  exhausted API_KEYS E w' d.
Proof.
  intros Hx Hst Ht k Hk. destruct (Hx k Hk) as (ku & Hku & Hlim & Hclock).
  exists ku. rewrite Hst. repeat split; auto; apply Hclock; lia.
Qed.

Lemma get_key_usage_exhausted k w d :
  exhausted API_KEYS E w d -> k ∈ API_KEYS ->
  exists ku w',
    get_key_usage E (key_hash k) w = (ku, w', []) /\
    within_limits ku d = false /\
    w_st w' = w_st w /\ w_tick w <= w_tick w'.
Proof.
  intros Hx Hk. destruct (Hx k Hk) as (ku & Hku & Hlim & Hclock).
  destruct (Hclock (w_tick w) (Nat.le_refl _)) as (Hh & Hd).
  exists ku, (mkWorld (w_st w) (S (w_tick w))).
  unfold get_key_usage, SM.bind, get_st, SM.gets, time_time, SM.bind,
    next_tick, upd_st, SM.modify, SM.ret.
  rewrite Hku. simpl. rewrite (no_reset _ _ Hh Hd).
  rewrite (set_key_usage_id _ _ _ Hku). repeat split; auto.
Qed.

Lemma key_has_quota_exhausted k w d :
  exhausted API_KEYS E w d -> k ∈ API_KEYS ->
  exists w',
    key_has_quota E (key_hash k) d w = (false, w', []) /\
    w_st w' = w_st w /\ w_tick w <= w_tick w'.
Proof.
  intros Hx Hk.
  destruct (get_key_usage_exhausted k w d Hx Hk) as (ku & w' & Hg & Hlim & Hst & Ht).
  exists w'. unfold key_has_quota.
  rewrite (SMFacts.bind_run _ _ _ _ _ _ Hg). unfold SM.ret. rewrite Hlim. auto.
Qed.

Lemma api_key_in idx :
  idx < length API_KEYS -> api_key API_KEYS idx ∈ API_KEYS.
Proof. intros H. apply list_elem_of_In. apply nth_In. exact H. Qed.

Lemma find_loop_exhausted js s d w :
  0 < length API_KEYS -> exhausted API_KEYS E w d ->
  exists w',
    find_loop API_KEYS E js s d w = (None, w', []) /\
    w_st w' = w_st w /\ w_tick w <= w_tick w'.
Proof.
  intros Hn. revert w. induction js as [|j js IH]; intros w Hx; simpl.
  - exists w. auto.
  - assert (Hin : api_key API_KEYS ((s + j) mod length API_KEYS) ∈ API_KEYS).
    { apply api_key_in. apply Nat.mod_upper_bound. lia. }
    destruct (key_has_quota_exhausted _ w d Hx Hin) as (w1 & Hq & Hst & Ht).
    rewrite (SMFacts.bind_run _ _ _ _ _ _ Hq).
    destruct (IH w1 (exhausted_later _ _ _ Hx Hst Ht)) as (w2 & Hf & Hst2 & Ht2).
    rewrite Hf. exists w2. split; [reflexivity|]. split; [congruence | lia].
Qed.

Lemma rotate_if_needed_exhausted L d w :
  key_ok API_KEYS L -> exhausted API_KEYS E w d ->
  exists w',
    rotate_if_needed API_KEYS E L d w = (None, w', [EvSave (w_st w)]) /\
    w_st w' = w_st w /\ w_tick w <= w_tick w'.
Proof.
  intros (Hlt & Hkh) Hx. unfold rotate_if_needed. rewrite Hkh.
  pose proof (api_key_in _ Hlt) as Hin.
  destruct (key_has_quota_exhausted _ w d Hx Hin) as (w1 & Hq & Hst1 & Ht1).
  rewrite (SMFacts.bind_run _ _ _ _ _ _ Hq).
  pose proof (exhausted_later _ _ _ Hx Hst1 Ht1) as Hx1.
  destruct (get_key_usage_exhausted _ w1 d Hx1 Hin) as (ku & w2 & Hg & _ & Hst2 & Ht2).
  rewrite (SMFacts.bind_run _ _ _ _ _ _ Hg).
  assert (Hx2 : exhausted API_KEYS E w2 d)
    by (apply (exhausted_later w1); auto).
  destruct (find_loop_exhausted (seq 0 (length API_KEYS))
              (current_key_idx L + 1) d w2 ltac:(lia) Hx2)
    as (w3 & Hf & Hst3 & Ht3).
  assert (Hs : save_status w2 = (tt, w2, [EvSave (w_st w2)])) by reflexivity.
  rewrite (SMFacts.bind_run _ _ _ _ _ _ Hs).
  change (find_loop API_KEYS E (seq 0 (length API_KEYS)))
    with (find_available_key API_KEYS E) in Hf.
  rewrite (SMFacts.bind_run _ _ _ _ _ _ Hf). unfold SM.ret. simpl.
  exists w3. rewrite Hst2, Hst1. split; [reflexivity|].
  split; [congruence | lia].
Qed.

Lemma process_video_exhausted v L w :
  key_ok API_KEYS L ->
  Str.truthy (bvid v) = true ->
  is_done (processed (w_st w) !! bvid v) = false ->
  exhausted API_KEYS E w (duration v) ->
  exists w',
    process_video API_KEYS E v L w = (L, Some HaltQuota, w', [EvSave (w_st w)]) /\
    w_st w' = w_st w /\ w_tick w <= w_tick w'.
Proof.
  intros Hok Htr Hnd Hx. unfold process_video.
  unfold get_st, SM.gets, SM.bind at 1. rewrite Htr, Hnd. simpl.
  destruct (rotate_if_needed_exhausted L (duration v) w Hok Hx)
    as (w' & Hr & Hst & Ht).
  rewrite (SMFacts.bind_run _ _ _ _ _ _ Hr). unfold SM.ret. simpl.
  exists w'. auto.
Qed.

Lemma final_report_exhausted keys w d :
  (forall k, k ∈ keys -> k ∈ API_KEYS) -> exhausted API_KEYS E w d ->
  exists w', final_report E keys w = (tt, w', []) /\ w_st w' = w_st w.
Proof.
  revert w. induction keys as [|k keys IH]; intros w Hsub Hx; simpl.
  - exists w. auto.
  - assert (Hk : k ∈ API_KEYS) by (apply Hsub; left).
    destruct (get_key_usage_exhausted k w d Hx Hk) as (ku & w1 & Hg & _ & Hst & Ht).
    rewrite (SMFacts.bind_run _ _ _ _ _ _ Hg).
    destruct (IH w1 (fun k' Hk' => Hsub k' (list_elem_of_further _ _ _ Hk'))
                (exhausted_later _ _ _ Hx Hst Ht)) as (w2 & Hf & Hst2).
    rewrite Hf. exists w2. split; [reflexivity | congruence].
Qed.

(** C6.  The loop has reached the item [v], which is still to be processed,
    with the variables [L] in the state [w], and no key of the pool can take
    its duration ([exhausted]).  Then the run ends there: [main] returns
    normally (the [break] of line 186), the only events after those of the
    earlier items are the save before the search and the save at the end of
    the run, so that the downloads and backend calls of the run are those of
    the earlier items, and the status that is saved is the one of that
    moment. *)
Theorem halts_when_pool_exhausted pre v rest L0 w0 L w evs_pre :
  run_loop API_KEYS E pre L0 w0 = (L, None, w, evs_pre) ->
  key_ok API_KEYS L ->
  Str.truthy (bvid v) = true ->
  is_done (processed (w_st w) !! bvid v) = false ->
  exhausted API_KEYS E w (duration v) ->
  let r := drain API_KEYS E (pre ++ v :: rest) L0 w0 in
  SM.value r = Some HaltQuota /\
  SM.events r = evs_pre ++ [EvSave (w_st w); EvSave (w_st w)] /\
  List.filter is_backend_call (SM.events r) = List.filter is_backend_call evs_pre /\
  w_st (SM.world r) = w_st w.
Proof.
  intros Hpre Hok Htr Hnd Hx r. subst r.
  destruct (process_video_exhausted v L w Hok Htr Hnd Hx) as (w1 & Hv & Hst1 & Ht1).
  assert (Hloop : run_loop API_KEYS E (pre ++ v :: rest) L0 w0 =
            (L, Some HaltQuota, w1, evs_pre ++ [EvSave (w_st w)])).
  { rewrite (run_loop_app pre (v :: rest) _ _ _ _ _ Hpre). simpl run_loop.
    rewrite (SMFacts.bind_run _ _ _ _ _ _ Hv). unfold SM.ret.
    rewrite app_nil_r. reflexivity. }
  unfold drain. rewrite (SMFacts.bind_run _ _ _ _ _ _ Hloop).
  destruct (final_report_exhausted API_KEYS w1 (duration v) (fun _ H => H)
              (exhausted_later _ _ _ Hx Hst1 Ht1)) as (w2 & Hf & Hst2).
  unfold save_status, get_st, emit, SM.gets, SM.emit, SM.bind, SM.ret.
  rewrite Hf. unfold SM.value, SM.events, SM.world. simpl.
  rewrite Hst1, <- app_assoc. simpl.
  split; [reflexivity|]. split; [reflexivity|].
  split; [|congruence].
  rewrite List.filter_app. simpl. apply app_nil_r.
Qed.

(** *** Items that a run does not touch *)

Lemma process_video_leaves_alone b0 v L w L' h w' evs :
  process_video API_KEYS E v L w = (L', h, w', evs) ->
  is_done (processed (w_st w) !! b0) = true \/ bvid v <> b0 ->
  Forall (leaves_alone b0 (processed (w_st w))) evs /\
  processed (w_st w') !! b0 = processed (w_st w) !! b0.
Proof.
  intros H Hb0. apply process_video_inv in H. cbv zeta in H.
  destruct (negb (Str.truthy (bvid v)) || is_done (processed (w_st w) !! bvid v))
    eqn:Hskip.
  { destruct H as (-> & -> & -> & ->). split; [constructor | reflexivity]. }
  assert (Hne : bvid v <> b0).
  { destruct Hb0 as [Hd | Hne]; [|exact Hne]. intros Heq.
    rewrite Heq, Hd, orb_true_r in Hskip. discriminate. }
  destruct H as (r & w1 & evs1 & Hr & H).
  pose proof (rotate_if_needed_inv _ _ _ _ _ _ Hr) as (Hp1 & Hevs1 & _).
  assert (H1 : Forall (leaves_alone b0 (processed (w_st w))) evs1).
  { destruct Hevs1 as [-> | (s & -> & Hs)]; [constructor|].
    repeat constructor. simpl. rewrite Hs. reflexivity. }
  destruct r as [L1|].
  - destruct H as (n1 & n2 & evs2 & -> & Hev & _ & Hout).
    assert (Hsame : processed (w_st w') !! b0 = processed (w_st w) !! b0).
    { destruct (download_audio E n1 (bvid v)).
      - destruct (transcribe E n2 _ (bvid v)) as [text actual | msg].
        + destruct Hout as (_ & ->). apply lookup_insert_ne. exact Hne.
        + destruct (is_rate_limit msg).
          * destruct Hout as (-> & _). reflexivity.
          * destruct Hout as (_ & ->). apply lookup_insert_ne. exact Hne.
      - destruct Hout as (-> & _). apply lookup_insert_ne. exact Hne. }
    split; [|exact Hsame].
    apply Forall_app. split; [exact H1|].
    constructor; [exact Hne|].
    eapply Forall_impl; [exact Hev|].
    intros e He. destruct e; simpl in *; try congruence.
    destruct He as (_ & ->). exact Hne.
  - destruct H as (-> & -> & -> & ->). split; [exact H1|].
    rewrite Hp1. reflexivity.
Qed.

Lemma leaves_alone_same b0 P P' e :
  P !! b0 = P' !! b0 -> leaves_alone b0 P e -> leaves_alone b0 P' e.
Proof. intros HP. destruct e; simpl; auto. congruence. Qed.

Lemma run_loop_leaves_alone b0 vs L w L' h w' evs :
  run_loop API_KEYS E vs L w = (L', h, w', evs) ->
  is_done (processed (w_st w) !! b0) = true \/
    (forall v, v ∈ vs -> bvid v <> b0) ->
  Forall (leaves_alone b0 (processed (w_st w))) evs /\
  processed (w_st w') !! b0 = processed (w_st w) !! b0.
Proof.
  revert L w evs. induction vs as [|v vs IH]; intros L w evs H Hb0; simpl in H.
  - sm_ret H. split; [constructor | reflexivity].
  - sm_bind H r w1 e1 Hv. destruct r as [L1 h1].
    assert (Hv0 : is_done (processed (w_st w) !! b0) = true \/ bvid v <> b0).
    { destruct Hb0 as [Hd | Hall]; [left; exact Hd|].
      right. apply Hall. left. }
    destruct (process_video_leaves_alone b0 _ _ _ _ _ _ _ Hv Hv0) as (He1 & Hp1).
    destruct h1 as [hh|].
    + sm_ret H. rewrite app_nil_r. auto.
    + assert (Hb1 : is_done (processed (w_st w1) !! b0) = true \/
                    (forall v', v' ∈ vs -> bvid v' <> b0)).
      { destruct Hb0 as [Hd | Hall]; [left; rewrite Hp1; exact Hd|].
        right. intros v' Hin. apply Hall. right. exact Hin. }
      destruct (IH _ _ _ H Hb1) as (He2 & Hp2).
      split; [|congruence].
      apply Forall_app. split; [exact He1|].
      eapply Forall_impl; [exact He2|].
      intros ev. apply leaves_alone_same. exact Hp1.
Qed.

Lemma main_leaves_alone b0 queue w h w' evs :
  main API_KEYS E queue w = (h, w', evs) ->
  is_done (processed (w_st w) !! b0) = true \/
    (forall v, v ∈ List.filter short_enough queue -> bvid v <> b0) ->
  Forall (leaves_alone b0 (processed (w_st w))) evs /\
  processed (w_st w') !! b0 = processed (w_st w) !! b0.
Proof.
  intros H Hb0.
  apply main_inv in H as [(_ & Hp & s & -> & Hs) | H].
  { split; [|rewrite Hp; reflexivity].
    repeat constructor. simpl. rewrite Hs. reflexivity. }
  destruct H as (L0 & w1 & Ll & w2 & evsl & _ & _ & Hp1 & Hl & -> & Hp2).
  rewrite <- Hp1 in Hb0 |- *.
  destruct (run_loop_leaves_alone b0 _ _ _ _ _ _ _ Hl Hb0) as (Hev & Hp).
  split; [|congruence].
  apply Forall_app. split; [exact Hev|].
  repeat constructor. exact Hp.
Qed.

Lemma filter_short_enough_idem queue :
  List.filter short_enough (List.filter short_enough queue)
  = List.filter short_enough queue.
Proof.
  induction queue as [|v queue IH]; simpl; [reflexivity|].
  destruct (short_enough v) eqn:Hs; simpl; [rewrite Hs, IH|]; auto.
Qed.

(** C10.  An item of the queue whose duration exceeds 1800 seconds is
    dropped before the loop: the run is the run on the queue without the
    long items; no download, backend call or transcript in it is for the
    identifier of [v], every checkpoint that is saved has for this
    identifier the entry that the loaded checkpoint had, and so has the
    status map at the end.  Statuses are kept by identifier, so [v] is
    supposed to share its identifier with long items only. *)
Theorem long_items_are_dropped queue st0 v :
  v ∈ queue ->
  (MAX_DURATION_SEC < duration v)%Z ->
  (forall v', v' ∈ queue -> bvid v' = bvid v ->
      (MAX_DURATION_SEC < duration v')%Z) ->
  let r := run API_KEYS E queue st0 in
  r = run API_KEYS E (List.filter short_enough queue) st0 /\
  (v ∉ List.filter short_enough queue) /\
  Forall (leaves_alone (bvid v) (processed st0)) (SM.events r) /\
  processed (w_st (SM.world r)) !! bvid v = processed st0 !! bvid v.
Proof.
  intros Hin Hlong Huniq r. subst r.
  split; [unfold run, main; rewrite filter_short_enough_idem; reflexivity|].
  split.
  { intros Hf. apply list_elem_of_In, filter_In in Hf as (_ & Hs).
    unfold short_enough in Hs. apply Z.leb_le in Hs. lia. }
  unfold run, SM.events, SM.world.
  destruct (main API_KEYS E queue (mkWorld st0 0)) as [[h w'] evs] eqn:Hm.
  simpl. apply (main_leaves_alone (bvid v)) in Hm; [exact Hm|].
  right. intros v' Hv' Heq.
  apply list_elem_of_In, filter_In in Hv' as (Hv' & Hs).
  apply list_elem_of_In in Hv'. specialize (Huniq v' Hv' Heq).
  unfold short_enough in Hs. apply Z.leb_le in Hs. lia.
Qed.

(** *** What the loop amounts to for a backend that answers by item *)

Section Settle.

Context (dl : string -> bool) (tr : string -> TranscribeResult).

Lemma settle_lookup P v b :
  settle dl tr P v !! b =
    if bool_decide (bvid v = b) && Str.truthy b && negb (is_done (P !! b))
    then match outcome dl tr b with Some s => Some s | None => P !! b end
    else P !! b.
Proof.
  unfold settle. destruct (decide (bvid v = b)) as [<- | Hne].
  - rewrite bool_decide_eq_true_2 by reflexivity. simpl.
    destruct (Str.truthy (bvid v)); simpl; [|reflexivity].
    destruct (is_done (P !! bvid v)); simpl; [reflexivity|].
    destruct (outcome dl tr (bvid v)); [apply lookup_insert_eq | reflexivity].
  - rewrite bool_decide_eq_false_2 by exact Hne. simpl.
    destruct (negb (Str.truthy (bvid v)) || is_done (P !! bvid v)); [reflexivity|].
    destruct (outcome dl tr (bvid v)); [apply lookup_insert_ne; exact Hne | reflexivity].
Qed.

Lemma settle_all_lookup P vs b :
  settle_all dl tr P vs !! b =
    if negb (is_done (P !! b)) && Str.truthy b && bool_decide (b ∈ map bvid vs)
    then match outcome dl tr b with Some s => Some s | None => P !! b end
    else P !! b.
Proof.
  revert P. induction vs as [|v vs IH]; intros P.
  - simpl. rewrite andb_false_r. reflexivity.
  - unfold settle_all in *. simpl fold_left. rewrite IH.
    rewrite !settle_lookup.
    destruct (decide (bvid v = b)) as [Heq | Hne].
    + rewrite (bool_decide_eq_true_2 (bvid v = b)) by exact Heq.
      rewrite (bool_decide_eq_true_2 (b ∈ map bvid (v :: vs)))
        by (rewrite <- Heq; left).
      destruct (is_done (P !! b)) eqn:Hd; simpl.
      { rewrite andb_false_r. simpl. rewrite Hd. reflexivity. }
      destruct (Str.truthy b) eqn:Ht; simpl.
      2:{ rewrite Hd. reflexivity. }
      destruct (outcome dl tr b) as [s|].
      * destruct s; simpl; destruct (bool_decide (b ∈ map bvid vs));
          reflexivity.
      * rewrite Hd. simpl.
        destruct (bool_decide (b ∈ map bvid vs)); reflexivity.
    + rewrite (bool_decide_eq_false_2 (bvid v = b)) by exact Hne. simpl.
      assert (Hmem : bool_decide (b ∈ bvid v :: map bvid vs)
                     = bool_decide (b ∈ map bvid vs)).
      { apply bool_decide_ext. rewrite elem_of_cons. split; [|auto].
        intros [Heq | Hin]; [congruence | exact Hin]. }
      rewrite Hmem. reflexivity.
Qed.

Lemma elem_of_map_take (vs : list Video) k b :
  b ∈ map bvid (take k vs) -> b ∈ map bvid vs.
Proof.
  intros H. apply list_elem_of_fmap in H as (v & -> & Hin).
  apply list_elem_of_fmap. exists v. split; [reflexivity|].
  apply (subseteq_take k vs). exact Hin.
Qed.

(** Going once more through the queue after any part of it has been
    settled gives what going through it once gives. *)
Lemma settle_all_absorb P vs k :
  settle_all dl tr (settle_all dl tr P (take k vs)) vs = settle_all dl tr P vs.
Proof.
  apply map_eq. intros b.
  rewrite (settle_all_lookup (settle_all dl tr P (take k vs)) vs b).
  rewrite (settle_all_lookup P vs b).
  rewrite (settle_all_lookup P (take k vs) b).
  destruct (is_done (P !! b)) eqn:Hd; simpl.
  { rewrite Hd. reflexivity. }
  destruct (Str.truthy b) eqn:Ht; simpl.
  2:{ rewrite Hd. reflexivity. }
  destruct (bool_decide (b ∈ map bvid (take k vs))) eqn:Hk.
  - apply bool_decide_eq_true_1, elem_of_map_take in Hk.
    rewrite (bool_decide_eq_true_2 _ Hk).
    destruct (outcome dl tr b) as [s|].
    + destruct s; reflexivity.
    + rewrite Hd. reflexivity.
  - rewrite Hd. reflexivity.
Qed.

Lemma process_video_settle v L w L' h w' evs :
  deterministic dl tr E ->
  process_video API_KEYS E v L w = (L', h, w', evs) ->
  (processed (w_st w') = settle dl tr (processed (w_st w)) v \/
   (h = Some HaltQuota /\ processed (w_st w') = processed (w_st w))) /\
  (h = None -> processed (w_st w') = settle dl tr (processed (w_st w)) v) /\
  (forall s, EvSave s ∈ evs ->
     processed s = processed (w_st w) \/ processed s = processed (w_st w')).
Proof.
  intros (Hdl & Htr) H. apply process_video_inv in H. cbv zeta in H.
  unfold settle.
  destruct (negb (Str.truthy (bvid v)) || is_done (processed (w_st w) !! bvid v)).
  { destruct H as (-> & -> & -> & ->). split; [left; reflexivity|].
    split; [reflexivity|]. intros s Hs. inversion Hs. }
  destruct H as (r & w1 & evs1 & Hr & H).
  pose proof (rotate_if_needed_inv _ _ _ _ _ _ Hr) as (Hp1 & Hevs1 & _).
  assert (H1 : forall s, EvSave s ∈ evs1 -> processed s = processed (w_st w)).
  { intros s Hs. destruct Hevs1 as [-> | (s' & -> & Hs')]; [inversion Hs|].
    apply list_elem_of_singleton in Hs. congruence. }
  destruct r as [L1|].
  - destruct H as (n1 & n2 & evs2 & -> & Hev & _ & Hout).
    rewrite Hdl, Htr in Hout.
    assert (Hfin : processed (w_st w') =
              match outcome dl tr (bvid v) with
              | Some s => <[bvid v := s]> (processed (w_st w))
              | None => processed (w_st w)
              end).
    { unfold outcome. destruct (dl (bvid v)).
      - destruct (tr (bvid v)) as [text actual | msg].
        + destruct Hout as (_ & ->). reflexivity.
        + destruct (is_rate_limit msg).
          * destruct Hout as (-> & _). reflexivity.
          * destruct Hout as (_ & ->). reflexivity.
      - destruct Hout as (-> & _). reflexivity. }
    split; [left; exact Hfin|]. split; [intros _; exact Hfin|].
    intros s Hs. apply elem_of_app in Hs as [Hs | Hs]; [left; auto|].
    apply elem_of_cons in Hs as [Hs | Hs]; [discriminate|].
    rewrite Forall_forall in Hev. right. exact (Hev _ Hs).
  - destruct H as (-> & -> & -> & ->).
    split; [right; auto|]. split; [discriminate|].
    intros s Hs. left. auto.
Qed.

Lemma run_loop_settle vs L w L' h w' evs :
  deterministic dl tr E ->
  run_loop API_KEYS E vs L w = (L', h, w', evs) ->
  (exists k, processed (w_st w') = settle_all dl tr (processed (w_st w)) (take k vs)) /\
  (h = None -> processed (w_st w') = settle_all dl tr (processed (w_st w)) vs) /\
  (forall s, EvSave s ∈ evs ->
     exists k, processed s = settle_all dl tr (processed (w_st w)) (take k vs)).
Proof.
  intros Hdet. revert L w evs.
  induction vs as [|v vs IH]; intros L w evs H; simpl in H.
  - sm_ret H. split; [exists 0; reflexivity|]. split; [reflexivity|].
    intros s Hs. inversion Hs.
  - sm_bind H r w1 e1 Hv. destruct r as [L1 h1].
    destruct (process_video_settle _ _ _ _ _ _ _ Hdet Hv) as (Hfin & Hnone & Hsaves).
    assert (Hk1 : exists k, processed (w_st w1) =
                    settle_all dl tr (processed (w_st w)) (take k (v :: vs))).
    { destruct Hfin as [-> | (_ & ->)]; [exists 1 | exists 0]; simpl;
        rewrite ?take_0; reflexivity. }
    assert (Hs1 : forall s, EvSave s ∈ e1 ->
              exists k, processed s =
                settle_all dl tr (processed (w_st w)) (take k (v :: vs))).
    { intros s Hs. destruct (Hsaves s Hs) as [-> | ->];
        [exists 0; reflexivity | exact Hk1]. }
    destruct h1 as [hh|].
    + sm_ret H. split; [exact Hk1|]. split; [discriminate|].
      intros s Hs. rewrite app_nil_r in Hs. auto.
    + specialize (Hnone eq_refl).
      destruct (IH _ _ _ H) as ((k & Hk) & Hn & Hs2).
      rewrite Hnone in Hk, Hn, Hs2.
      split; [exists (S k); exact Hk|]. split; [exact Hn|].
      intros s Hs. apply elem_of_app in Hs as [Hs | Hs]; [auto|].
      destruct (Hs2 s Hs) as (k' & Hk'). exists (S k'). exact Hk'.
Qed.

Lemma main_settle queue w h w' evs :
  deterministic dl tr E ->
  main API_KEYS E queue w = (h, w', evs) ->
  (h = None ->
   processed (w_st w') =
     settle_all dl tr (processed (w_st w)) (List.filter short_enough queue)) /\
  (forall s, EvSave s ∈ evs ->
     exists k, processed s =
       settle_all dl tr (processed (w_st w))
                  (take k (List.filter short_enough queue))).
Proof.
  intros Hdet H.
  apply main_inv in H as [(-> & Hp & s & -> & Hs) | H].
  { split; [discriminate|]. intros s' Hs'.
    apply list_elem_of_singleton in Hs'. injection Hs' as ->.
    exists 0. rewrite take_0. exact Hs. }
  destruct H as (L0 & w1 & Ll & w2 & evsl & _ & _ & Hp1 & Hl & -> & Hp2).
  destruct (run_loop_settle _ _ _ _ _ _ _ Hdet Hl) as (Hk & Hn & Hsaves).
  rewrite Hp1 in Hk, Hn, Hsaves. rewrite Hp2.
  split; [exact Hn|].
  intros s Hs. apply elem_of_app in Hs as [Hs | Hs]; [auto|].
  apply list_elem_of_singleton in Hs. injection Hs as ->. exact Hk.
Qed.

End Settle.

End Facts.

Lemma selected_key_has_quota_witness :
  let L := fst (SM.value AsrCases.at_third) in
  let w := SM.world AsrCases.at_third in
  let v := mkVideo "BV1c" 1700 in
  let '(L', h, w', evs) := process_video AsrCases.keys2 AsrCases.steady v L w in
  (exists evs_rest,
     SM.events (run AsrCases.keys2 AsrCases.steady AsrCases.queue5 empty_status)
     = SM.events AsrCases.at_third ++ evs ++ evs_rest) /\
  ((exists L1 wsel w1 evs1 evs2,
      selected_for AsrCases.keys2 AsrCases.steady (duration v) L w L1 wsel w1 /\
      headroom (w_st wsel) (kh L1) (duration v) /\
      headroom (w_st w1) (kh L1) (duration v) /\
      key_ok AsrCases.keys2 L1 /\
      evs = evs1 ++ EvDownload (bvid v) :: evs2 /\
      List.filter is_backend_call evs1 = [] /\
      Forall (iteration_event (bvid v)
                (api_key AsrCases.keys2 (current_key_idx L1))
                (processed (w_st w'))) evs2) \/
   (h = Some HaltQuota /\
    none_for AsrCases.keys2 AsrCases.steady (duration v) L w w' /\
    List.filter is_backend_call evs = [])).
Proof.
  apply (selected_key_has_quota AsrCases.keys2 AsrCases.steady
           AsrCases.queue5 empty_status
           (take 2 AsrCases.queue5) (mkVideo "BV1c" 1700)
           (drop 3 AsrCases.queue5)
           AsrCases.start AsrCases.loop_world
           (fst (SM.value AsrCases.at_third)) (SM.world AsrCases.at_third)
           (SM.events AsrCases.at_third)).
  - vm_compute. reflexivity.
  - reflexivity.
  - vm_compute. reflexivity.
  - reflexivity.
  - vm_compute. reflexivity.
Defined.

(** In this instance the first key is full and the second is chosen. *)
Lemma selected_key_has_quota_rotates :
  let '(L', h, w', evs) :=
    process_video AsrCases.keys2 AsrCases.steady (mkVideo "BV1c" 1700)
                  (fst (SM.value AsrCases.at_third))
                  (SM.world AsrCases.at_third) in
  current_key_idx (fst (SM.value AsrCases.at_third)) = 0 /\
  current_key_idx L' = 1 /\ h = None /\
  List.filter is_backend_call evs
  = [EvDownload "BV1c"; EvTranscribe AsrCases.key2 "BV1c"].
Proof. vm_compute. auto. Qed.

Lemma halts_when_pool_exhausted_witness :
  let r := drain AsrCases.keys2 AsrCases.steady AsrCases.queue5
                 AsrCases.start (mkWorld empty_status 0) in
  SM.value r = Some HaltQuota /\
  SM.events r =
    SM.events AsrCases.at_fifth ++
    [EvSave (w_st (SM.world AsrCases.at_fifth));
     EvSave (w_st (SM.world AsrCases.at_fifth))] /\
  List.filter is_backend_call (SM.events r) =
    List.filter is_backend_call (SM.events AsrCases.at_fifth) /\
  w_st (SM.world r) = w_st (SM.world AsrCases.at_fifth).
Proof.
  apply (halts_when_pool_exhausted AsrCases.keys2 AsrCases.steady
           (take 4 AsrCases.queue5) (mkVideo "BV1e" 1700) []
           AsrCases.start (mkWorld empty_status 0)
           (fst (SM.value AsrCases.at_fifth)) (SM.world AsrCases.at_fifth)
           (SM.events AsrCases.at_fifth)).
  - vm_compute. reflexivity.
  - split; [vm_compute; lia | vm_compute; reflexivity].
  - reflexivity.
  - vm_compute. reflexivity.
  - intros k Hk.
    apply elem_of_cons in Hk as [-> | Hk];
      [|apply list_elem_of_singleton in Hk as ->];
      (eexists; split; [vm_compute; reflexivity|];
       split; [vm_compute; reflexivity|];
       intros t _; split; vm_compute; reflexivity).
Defined.

Lemma long_items_are_dropped_witness :
  let r := run AsrCases.keys2 AsrCases.steady AsrCases.queue_long empty_status in
  r = run AsrCases.keys2 AsrCases.steady
          (List.filter short_enough AsrCases.queue_long) empty_status /\
  (AsrCases.long_item ∉ List.filter short_enough AsrCases.queue_long) /\
  Forall (leaves_alone "BV9z" ∅) (SM.events r) /\
  processed (w_st (SM.world r)) !! "BV9z" = None.
Proof.
  apply (long_items_are_dropped AsrCases.keys2 AsrCases.steady
           AsrCases.queue_long empty_status AsrCases.long_item).
  - right. left.
  - reflexivity.
  - intros v' Hv' Heq.
    apply elem_of_cons in Hv' as [-> | Hv']; [discriminate Heq|].
    apply elem_of_cons in Hv' as [-> | Hv']; [reflexivity|].
    apply list_elem_of_singleton in Hv' as ->. discriminate Heq.
Defined.

(** *** C2: a rate limit on an item *)

(** C2 (what the code does).  The first key is rate limited on the first
    item: the processor rotates to the second key and goes on with the
    second item.  The first item is not sent to the backend again and has no
    status when the run ends. *)
Lemma rate_limited_item_is_not_retried :
  let r := run AsrCases.keys2 AsrCases.first_key_limited AsrCases.queue_ab
               empty_status in
  SM.value r = None /\
  List.filter is_backend_call (SM.events r) =
    [EvDownload "BV1a"; EvTranscribe AsrCases.key1 "BV1a";
     EvDownload "BV1b"; EvTranscribe AsrCases.key2 "BV1b"] /\
  processed (w_st (SM.world r)) !! "BV1a" = None /\
  processed (w_st (SM.world r)) !! "BV1b" = Some ok.
Proof. vm_compute. auto. Qed.

(** *** C3: a run that is killed and started again *)

(** C3 as stated fails.  The backend answers by item.  The run on
    [queue12] from an empty checkpoint goes through the whole queue and
    ends with the twelfth item [ok].  Killed after the save that follows the
    failed download of the eleventh item and started again, it counts nine
    failed downloads, skips the tenth item without resetting the count,
    counts the tenth failure on the eleventh item and stops: the twelfth item
    has no status. *)
Lemma restart_can_differ :
  deterministic AsrCases.dl_streak AsrCases.tr_plain AsrCases.streak_env /\
  let r1 := run AsrCases.keys2 AsrCases.streak_env AsrCases.queue12
                empty_status in
  let r2 := run AsrCases.keys2 AsrCases.streak_env AsrCases.queue12
                AsrCases.killed_after_11 in
  left_on_disk empty_status (SM.events r1) AsrCases.killed_after_11 /\
  SM.value r1 = None /\
  SM.value r2 = Some HaltStreak /\
  processed (w_st (SM.world r2)) <> processed (w_st (SM.world r1)).
Proof.
  split; [split; intros; reflexivity|].
  split; [right; vm_compute; repeat constructor|].
  split; [vm_compute; reflexivity|].
  split; [vm_compute; reflexivity|].
  intros Heq. apply (f_equal (fun m => m !! "BV12")) in Heq.
  vm_compute in Heq. discriminate Heq.
Qed.

Section Restart.

Context (API_KEYS : list string).
Context (dl : string -> bool) (tr : string -> TranscribeResult).
Context (E1 E2 : Env).

(** C3, amended.  The backend answers by item in the first run and in the
    second, which starts from a checkpoint [s] that a kill of the first can
    leave on disk.  An item that [s] records as [ok] or [no_speech] is
    skipped by the second run: no download, no backend call, no transcript,
    and every checkpoint the run writes, like the status map at its end,
    keeps the entry of [s].  When neither run stops early (both go through
    the whole queue), the second run ends with the status map of the
    first. *)
Theorem restart_same_status_map queue st0 s :
  deterministic dl tr E1 ->
  deterministic dl tr E2 ->
  left_on_disk st0 (SM.events (run API_KEYS E1 queue st0)) s ->
  let r1 := run API_KEYS E1 queue st0 in
  let r2 := run API_KEYS E2 queue s in
  (forall b, is_done (processed s !! b) = true ->
     Forall (leaves_alone b (processed s)) (SM.events r2) /\
     processed (w_st (SM.world r2)) !! b = processed s !! b) /\
  (SM.value r1 = None -> SM.value r2 = None ->
   processed (w_st (SM.world r2)) = processed (w_st (SM.world r1))).
Proof.
  intros Hd1 Hd2 Hdisk r1 r2. subst r1 r2. unfold run in *.
  destruct (main API_KEYS E1 queue (mkWorld st0 0)) as [[h1 w1] evs1] eqn:Hm1.
  destruct (main API_KEYS E2 queue (mkWorld s 0)) as [[h2 w2] evs2] eqn:Hm2.
  unfold SM.value, SM.world, SM.events in *. simpl in *.
  split.
  - intros b Hb.
    apply (main_leaves_alone API_KEYS E2 b) in Hm2; [exact Hm2|].
    left. exact Hb.
  - intros -> ->.
    destruct (main_settle API_KEYS E1 dl tr _ _ _ _ _ Hd1 Hm1) as (Hfin1 & Hsaves).
    destruct (main_settle API_KEYS E2 dl tr _ _ _ _ _ Hd2 Hm2) as (Hfin2 & _).
    rewrite (Hfin1 eq_refl), (Hfin2 eq_refl). simpl.
    assert (Hs : exists k, processed s =
              settle_all dl tr (processed st0)
                         (take k (List.filter short_enough queue))).
    { destruct Hdisk as [-> | Hin]; [exists 0; rewrite take_0; reflexivity|].
      exact (Hsaves s Hin). }
    destruct Hs as (k & ->). apply settle_all_absorb.
Qed.

End Restart.

Lemma restart_same_status_map_witness :
  let r1 := run AsrCases.keys2 AsrCases.streak_env AsrCases.queue12
                empty_status in
  let r2 := run AsrCases.keys2 AsrCases.streak_env_later AsrCases.queue12
                AsrCases.killed_after_4 in
  (forall b,
     is_done (processed AsrCases.killed_after_4 !! b) = true ->
     Forall (leaves_alone b (processed AsrCases.killed_after_4)) (SM.events r2) /\
     processed (w_st (SM.world r2)) !! b =
       processed AsrCases.killed_after_4 !! b) /\
  (SM.value r1 = None -> SM.value r2 = None ->
   processed (w_st (SM.world r2)) = processed (w_st (SM.world r1))).
Proof.
  apply (restart_same_status_map AsrCases.keys2
           AsrCases.dl_streak AsrCases.tr_plain
           AsrCases.streak_env AsrCases.streak_env_later AsrCases.queue12
           empty_status AsrCases.killed_after_4).
  - split; intros; reflexivity.
  - split; intros; reflexivity.
  - right. vm_compute. repeat constructor.
Defined.

(** In this instance both runs go through the whole queue. *)
Lemma restart_same_status_map_runs :
  SM.value (run AsrCases.keys2 AsrCases.streak_env AsrCases.queue12
                empty_status) = None /\
  SM.value (run AsrCases.keys2 AsrCases.streak_env_later AsrCases.queue12
                AsrCases.killed_after_4) = None.
Proof. vm_compute. auto. Qed.

End AsrFacts.

(** ** The collector *)

Module FetchFacts.

Import Fetch.

(** *** Scanning a page *)

Section Scan.

Context (incremental : bool) (cutoff : Z) (title : string).

Local Abbreviation scan_item := (scan_item incremental cutoff title).
Local Abbreviation scan_page := (scan_page incremental cutoff title).
Local Abbreviation known_below := (known_below incremental cutoff).

Lemma known_below_seen s s' i :
  seen s = seen s' -> known_below s i = known_below s' i.
Proof. unfold Fetch.known_below. intros ->. reflexivity. Qed.

Lemma scan_item_known s i :
  known_below s i = true ->
  scan_item s i =
    mkFState (videos s) (page s) (errors s) (S (consecutive_known s))
             (if INCREMENTAL_STOP_THRESHOLD <=? S (consecutive_known s)
              then true else should_stop_after_page s)
             (keys s) (seen s).
Proof. unfold Fetch.scan_item. intros ->. reflexivity. Qed.









(** A run of known items at or below the cursor adds its length to the
    count and changes nothing else but the flag. *)
Lemma scan_page_streak run s :
  (forall i, i ∈ run -> known_below s i = true) ->
  scan_page s run =
    mkFState (videos s) (page s) (errors s)
             (consecutive_known s + length run)
             (should_stop_after_page s
              || (0 <? length run)
                 && (INCREMENTAL_STOP_THRESHOLD <=? consecutive_known s + length run))
             (keys s) (seen s).
Proof.
  revert s. induction run as [|i run IH]; intros s Hall.
  - simpl. rewrite Nat.add_0_r, orb_false_r. destruct s; reflexivity.
  - simpl fold_left. unfold Fetch.scan_page in *. simpl fold_left.
    rewrite (scan_item_known s i) by (apply Hall; left).
    rewrite IH.
    2:{ intros j Hj. rewrite <- (Hall j (list_elem_of_further _ _ _ Hj)).
        apply known_below_seen. reflexivity. }
    cbn [videos page errors consecutive_known should_stop_after_page keys
         seen length].
    generalize (consecutive_known s) (should_stop_after_page s) (length run).
    intros c f n. unfold INCREMENTAL_STOP_THRESHOLD.
    f_equal; [lia|].
    change (0 <? S n) with true.
    destruct (Nat.leb_spec 3 (S c)), (Nat.leb_spec 3 (S c + n)),
      (Nat.leb_spec 3 (c + S n)), (Nat.ltb_spec 0 n), f;
      simpl; try reflexivity; lia.
Qed.





End Scan.

(** *** Reading a folder *)

Section Folder.

Context (R : Remote) (media_id : Z) (title : string).
Context (incremental : bool) (cutoff : Z).

Local Abbreviation body := (body R media_id title incremental cutoff).
Local Abbreviation fetch_loop := (fetch_loop R media_id title incremental cutoff).
Local Abbreviation process_page := (process_page title incremental cutoff).

Lemma call_fetch_page_run k pn w :
  call_fetch_page R k media_id pn w =
    (fetch_page R (w_tick w) k media_id pn, ticked w, [EvFetch media_id pn]).
Proof. reflexivity. Qed.


Lemma fetch_loop_step fuel s w st w' e :
  body s w = (st, w', e) ->
  fetch_loop (S fuel) s w =
    match st with
    | Done r => (Some r, w', e)
    | Again s' => let '(r, w2, e2) := fetch_loop fuel s' w' in (r, w2, e ++ e2)
    end.
Proof.
  intros H. simpl. rewrite (SMFacts.bind_run _ _ _ _ _ _ H).
  destruct st as [s'|r].
  - destruct (Fetch.fetch_loop _ _ _ _ _ fuel s' w') as [[r w2] e2]. reflexivity.
  - unfold SM.ret. rewrite app_nil_r. reflexivity.
Qed.

End Folder.



(** *** C9: errors on a page *)

Section Retry.

Context (R : Remote) (media_id : Z) (title : string).
Context (incremental : bool) (cutoff : Z).

Local Abbreviation body := (body R media_id title incremental cutoff).
Local Abbreviation fetch_loop := (fetch_loop R media_id title incremental cutoff).

(** While the remote times out, each pass asks for the same page again
    and leaves the variables as they are: [errors] does not move. *)
Lemma fetch_loop_timeouts fuel s w :
  (forall n k pn, fetch_page R n k media_id pn = Timeout) ->
  fetch_loop fuel s w =
    (None, later fuel w,
     concat (replicate fuel [EvFetch media_id (page s); EvSleep 10])).
Proof.
  intros Hto. revert w. induction fuel as [|fuel IH]; intros w; [reflexivity|].
  assert (Hb : body s w =
            (Again s, ticked w, [EvFetch media_id (page s); EvSleep 10])).
  { unfold Fetch.body.
    rewrite (SMFacts.bind_run _ _ _ _ _ _ (call_fetch_page_run R media_id _ _ _)).
    rewrite Hto. reflexivity. }
  rewrite (fetch_loop_step R media_id title incremental cutoff fuel s w _ _ _ Hb).
  rewrite IH. reflexivity.
Qed.



End Retry.

(** C9 (what the code does).  The remote times out on every read.  The
    read of the first page of folder 10 is then still running after any
    number [fuel] of passes through the loop: each pass has asked for page 1
    and slept ten seconds, and [errors] has stayed at 0, so that the bound of
    five is never reached. *)
Theorem timeouts_are_retried_without_bound (fuel : nat) :
  fetch_folder FetchCases.always_timeout 10 "A" false 0 fuel
               FetchCases.keys0 1 ∅ (mkWorld 0 FetchCases.fresh_disk)
  = (None, later fuel (mkWorld 0 FetchCases.fresh_disk),
     concat (replicate fuel [EvFetch 10 1; EvSleep 10])).
Proof.
  unfold fetch_folder.
  apply (fetch_loop_timeouts FetchCases.always_timeout 10 "A" false 0 fuel).
  reflexivity.
Qed.

(** With error answers instead, the folder is given up after the fifth and
    the next folder is read. *)
Lemma error_answers_are_bounded :
  List.filter is_fetch
    (SM.events (run FetchCases.always_error true 5 FetchCases.fresh_disk))
  = replicate 5 (EvFetch 10 1) ++ replicate 5 (EvFetch 20 1) /\
  SM.value (run FetchCases.always_error true 5 FetchCases.fresh_disk)
  = Some ExitOk.
Proof. vm_compute. auto. Qed.

(** *** C5: the progress of a full run *)

(** C5 (what the code does).  A full run reads the first page of folder 10
    and is stopped by the expired cookie on the second page.  The progress
    it leaves names the next folder and page 1.  The next full run, with a
    renewed cookie, starts at folder 20: the second page of folder 10 is
    never asked for, its item is missing from the result, and the progress
    file is removed. *)
Theorem resumed_run_skips_rest_of_folder :
  let r1 := run FetchCases.expiring true 9 FetchCases.fresh_disk in
  let r2 := run FetchCases.renewed true 9 (w_disk (SM.world r1)) in
  SM.value r1 = Some ExitCookieExpired /\
  List.filter is_fetch (SM.events r1) = [EvFetch 10 1; EvFetch 10 2] /\
  (folder_idx <$> progress_file (w_disk (SM.world r1))) = Some 1 /\
  (next_page <$> progress_file (w_disk (SM.world r1))) = Some 1 /\
  SM.value r2 = Some ExitOk /\
  List.filter is_fetch (SM.events r2) = [EvFetch 20 1] /\
  (map bvid <$> output_file (w_disk (SM.world r2)))
    = Some ["BV1a"; "BV1b"; "BV1c"] /\
  progress_file (w_disk (SM.world r2)) = None.
Proof. vm_compute. repeat split; reflexivity. Qed.

(** *** C4: the cursor *)

(** C4 fails on a full run that the cookie stops.  The files hold the
    two videos and the cursor 100 of an earlier scan.  A run with [--full]
    takes its videos from the progress file, here absent, and starts from
    the cursor 0; the cookie is rejected on the first page.  The run then
    writes what it has, an empty list, over [videos.json], and saves the
    cursor 0 with 0 known videos: the test of lines 378-380, which is to
    keep the cursor from falling to 0, looks at [all_videos], which is
    empty. *)
Lemma full_run_can_lower_cursor :
  let r := run FetchCases.expired true 9 FetchCases.scanned_disk in
  SM.value r = Some ExitCookieExpired /\
  (latest_fav_time <$> last_scan_file FetchCases.scanned_disk) = Some 100%Z /\
  (length <$> output_file FetchCases.scanned_disk) = Some 2 /\
  last_scan_file (w_disk (SM.world r)) = Some (mkLastScan 0 0) /\
  output_file (w_disk (SM.world r)) = Some [].
Proof. vm_compute. auto 6. Qed.

Section Cursor.

Context (R : Remote).

Lemma keeps_disk_ret {A} (a : A) : keeps_disk (SM.ret a).
Proof. intros w. reflexivity. Qed.

Lemma keeps_disk_bind {A B} (m : SM.M World Event A) (f : A -> SM.M World Event B) :
  keeps_disk m -> (forall a, keeps_disk (f a)) -> keeps_disk (SM.bind m f).
Proof.
  intros Hm Hf w. specialize (Hm w). unfold SM.bind, SM.world in *.
  destruct (m w) as [[a w1] e1]. specialize (Hf a w1). unfold SM.world in Hf.
  destruct (f a w1) as [[b w2] e2]. simpl in *. congruence.
Qed.

Lemma keeps_disk_sleep q : keeps_disk (sleep q).
Proof. intros w. reflexivity. Qed.

Lemma keeps_disk_fetch_page k media_id pn :
  keeps_disk (call_fetch_page R k media_id pn).
Proof. intros w. reflexivity. Qed.

Lemma keeps_disk_wbi : keeps_disk (call_get_wbi_keys R).
Proof. intros w. reflexivity. Qed.

Lemma keeps_disk_retry s : keeps_disk (retry_or_give_up s).
Proof.
  unfold retry_or_give_up. destruct (5 <=? errors s).
  - apply keeps_disk_ret.
  - apply keeps_disk_bind; [apply keeps_disk_sleep|].
    intros _. apply keeps_disk_ret.
Qed.

Lemma keeps_disk_timeout s : keeps_disk (on_timeout s).
Proof.
  unfold on_timeout. apply keeps_disk_bind; [apply keeps_disk_sleep|].
  intros _. apply keeps_disk_ret.
Qed.

Lemma keeps_disk_page title incremental cutoff s medias has_more :
  keeps_disk (process_page title incremental cutoff s medias has_more).
Proof.
  unfold process_page. destruct medias as [|m ms]; [apply keeps_disk_ret|].
  cbv zeta. destruct (should_stop_after_page _); [apply keeps_disk_ret|].
  destruct (negb has_more); [apply keeps_disk_ret|].
  apply keeps_disk_bind; [apply keeps_disk_sleep|].
  intros _. apply keeps_disk_ret.
Qed.

Lemma body_disk media_id title incremental cutoff s w :
  w_disk (SM.world (body R media_id title incremental cutoff s w)) = w_disk w.
Proof.
  revert w. change (keeps_disk (body R media_id title incremental cutoff s)).
  unfold body. apply keeps_disk_bind; [apply keeps_disk_fetch_page|].
  intros [| |code medias has_more];
    [apply keeps_disk_timeout | apply keeps_disk_ret |].
  destruct (negb (code =? 0)%Z); [|apply keeps_disk_page].
  cbv zeta. destruct (code =? -403)%Z.
  - apply keeps_disk_bind; [apply keeps_disk_wbi|].
    intros [| |k']; [apply keeps_disk_timeout | apply keeps_disk_ret |].
    apply keeps_disk_bind; [apply keeps_disk_sleep|]. intros _.
    apply keeps_disk_bind; [apply keeps_disk_fetch_page|].
    intros [| |code2 medias2 has_more2];
      [apply keeps_disk_timeout | apply keeps_disk_ret |].
    destruct (code2 =? -101)%Z; [apply keeps_disk_ret|].
    destruct (negb (code2 =? 0)%Z); [apply keeps_disk_retry | apply keeps_disk_page].
  - destruct (code =? -101)%Z; [apply keeps_disk_ret | apply keeps_disk_retry].
Qed.

Lemma fetch_loop_disk media_id title incremental cutoff fuel s w :
  w_disk (SM.world (fetch_loop R media_id title incremental cutoff fuel s w))
  = w_disk w.
Proof.
  revert s w. induction fuel as [|fuel IH]; intros s w; [reflexivity|].
  pose proof (body_disk media_id title incremental cutoff s w) as Hb.
  destruct (body R media_id title incremental cutoff s w) as [[st w1] e1] eqn:Hbody.
  rewrite (fetch_loop_step R media_id title incremental cutoff fuel s w _ _ _ Hbody).
  unfold SM.world in *. simpl in Hb.
  destruct st as [s'|r]; [|exact Hb].
  specialize (IH s' w1).
  destruct (fetch_loop R media_id title incremental cutoff fuel s' w1) as [[r w2] e2].
  simpl in *. congruence.
Qed.

Lemma track_fav_time_ge vs m : (m <= track_fav_time m vs)%Z.
Proof.
  revert m. induction vs as [|v vs IH]; intros m; simpl; [lia|].
  unfold track_fav_time in *. simpl.
  destruct (m <? fav_time v)%Z eqn:Hlt.
  - apply Z.ltb_lt in Hlt. specialize (IH (fav_time v)). lia.
  - apply IH.
Qed.

Lemma fold_left_max_ge ts t : (t <= fold_left Z.max ts t)%Z.
Proof.
  revert t. induction ts as [|u ts IH]; intros t; simpl; [lia|].
  specialize (IH (Z.max t u)). lia.
Qed.

Lemma max_known_fav_time_nonneg vs : (0 <= max_known_fav_time vs)%Z.
Proof.
  unfold max_known_fav_time.
  destruct (List.filter _ _) as [|t ts] eqn:Hf; [lia|].
  assert (Hin : In t (List.filter (fun t => (0 <? t)%Z) (map fav_time vs)))
    by (rewrite Hf; left; reflexivity).
  apply filter_In in Hin as (_ & Hpos). apply Z.ltb_lt in Hpos.
  pose proof (fold_left_max_ge ts t). lia.
Qed.

Lemma final_cursor_ge m vs : (m <= final_cursor m vs)%Z.
Proof.
  unfold final_cursor.
  destruct (m =? 0)%Z eqn:Hm; simpl; [|lia].
  apply Z.eqb_eq in Hm. subst m.
  destruct (negb _); [apply max_known_fav_time_nonneg | lia].
Qed.

Lemma visit_folder_incremental cutoff te sfi fuel i f ms w r w' evs :
  visit_folder R true cutoff te sfi fuel i f ms w = (r, w', evs) ->
  w_disk w' = w_disk w /\
  forall ms' b, r = Some (ms', b) ->
    (max_fav_time ms <= max_fav_time ms')%Z.
Proof.
  intros H. unfold visit_folder in H. cbn [negb andb] in H.
  destruct (media_count f =? 0).
  { sm_ret H. split; [reflexivity|].
    intros ms' b [= <- <-]. simpl. lia. }
  sm_bind H r0 w1 e1 Hf.
  pose proof (fetch_loop_disk (id f) (title f) true cutoff fuel
                (mkFState [] 1 0 0 false (m_keys ms) (m_seen ms)) w) as Hd.
  unfold fetch_folder in Hf. cbn [m_keys m_seen] in Hf.
  rewrite Hf in Hd. unfold SM.world in Hd. simpl in Hd.
  destruct r0 as [r0|]; [|sm_ret H; split; [exact Hd | discriminate]].
  sm_bind H u w2 e2 Hu. sm_ret Hu.
  destruct (r_expired r0).
  - sm_ret H. split; [exact Hd|]. intros ms' b [= <- <-]. simpl.
    apply track_fav_time_ge.
  - sm_bind H u' w3 e3 Hs. cbn in Hs. injection Hs as <- <- <-.
    sm_ret H. split; [exact Hd|]. intros ms' b [= <- <-]. simpl.
    apply track_fav_time_ge.
Qed.

Lemma visit_folders_incremental cutoff te sfi fuel fs i ms w r w' evs :
  visit_folders R true cutoff te sfi fuel i fs ms w = (r, w', evs) ->
  w_disk w' = w_disk w /\
  forall ms', r = Some ms' -> (max_fav_time ms <= max_fav_time ms')%Z.
Proof.
  revert i ms w evs. induction fs as [|f fs IH]; intros i ms w evs H; simpl in H.
  - sm_ret H. split; [reflexivity|]. intros ms' [= <-]. lia.
  - sm_bind H r1 w1 e1 Hv.
    apply visit_folder_incremental in Hv as (Hd1 & Hm1).
    destruct r1 as [[ms1 [|]]|].
    + sm_ret H. split; [exact Hd1|]. intros ms' [= <-]. eauto.
    + apply IH in H as (Hd2 & Hm2). split; [congruence|].
      intros ms' Hr. specialize (Hm1 ms1 false eq_refl).
      specialize (Hm2 ms' Hr). lia.
    + sm_ret H. split; [exact Hd1 | discriminate].
Qed.

Lemma finish_last_scan ms w :
  last_scan_file (w_disk (SM.world (finish ms w)))
  = Some (mkLastScan (final_cursor (max_fav_time ms) (all_videos ms))
                     (length (all_videos ms))).
Proof.
  unfold finish, write_output, unlink_progress, save_last_scan, get_disk,
    put_disk, SM.bind, SM.emit, SM.gets, SM.modify, SM.ret, SM.world.
  simpl. destruct (negb (cookie_expired ms) && _); reflexivity.
Qed.

(** X20.  A run in incremental mode (no [--full], and a saved
    cursor) leaves on disk a cursor that is at least the one it found,
    however the run ends: with no new item, with the cookie rejected, with
    an exception before the folders are read, or still reading after [fuel]
    passes. *)
Theorem incremental_cursor_never_decreases fuel d ls :
  last_scan_file d = Some ls ->
  exists ls',
    last_scan_file (w_disk (SM.world (run R false fuel d))) = Some ls' /\
    (latest_fav_time ls <= latest_fav_time ls')%Z.
Proof.
  intros Hls. unfold run.
  destruct (main R false fuel (mkWorld 0 d)) as [[e w'] evs] eqn:Hm.
  unfold SM.world. simpl.
  assert (Hsame : w_disk w' = d -> exists ls',
            last_scan_file (w_disk w') = Some ls' /\
            (latest_fav_time ls <= latest_fav_time ls')%Z).
  { intros ->. exists ls. split; [exact Hls | lia]. }
  unfold main in Hm. sm_bind Hm d0 w0 xa Hd. cbn in Hd. injection Hd as <- <- <-.
  simpl w_disk in Hm. rewrite Hls in Hm. simpl in Hm.
  sm_bind Hm k w1 xb Hk. cbn in Hk. injection Hk as <- <- <-.
  destruct (get_wbi_keys R 0) as [| |k]; try (sm_ret Hm; apply Hsame; reflexivity).
  sm_bind Hm u w2 xc Hu. cbn in Hu. injection Hu as <- <- <-.
  sm_bind Hm n w3 xd Hn. cbn in Hn. injection Hn as <- <- <-.
  destruct (list_folders R 1 k) as [folders|];
    [|sm_ret Hm; apply Hsame; reflexivity].
  sm_bind Hm r w4 xe Hv.
  apply visit_folders_incremental in Hv as (Hd4 & Hmax).
  destruct r as [ms|]; [|sm_ret Hm; apply Hsame; exact Hd4].
  sm_bind Hm xt w5 xf Hf. sm_ret Hm.
  pose proof (finish_last_scan ms w4) as Hfin. rewrite Hf in Hfin.
  unfold SM.world in Hfin. simpl in Hfin.
  eexists. split; [exact Hfin|]. simpl.
  specialize (Hmax ms eq_refl). simpl in Hmax.
  pose proof (final_cursor_ge (max_fav_time ms) (all_videos ms)). lia.
Qed.

End Cursor.

Lemma incremental_cursor_never_decreases_witness :
  exists ls',
    last_scan_file
      (w_disk (SM.world (run FetchCases.renewed false 9 FetchCases.scanned_disk)))
    = Some ls' /\
    (latest_fav_time (mkLastScan 100 2) <= latest_fav_time ls')%Z.
Proof.
  apply (incremental_cursor_never_decreases FetchCases.renewed 9
           FetchCases.scanned_disk (mkLastScan 100 2)).
  reflexivity.
Defined.

End FetchFacts.

(** ** The checkpoint writers *)

Module CkptFacts.

Import Ckpt.

Lemma length_append (a b : string) :
  String.length (a ++ b)%string = String.length a + String.length b.
Proof. induction a as [|c a IH]; simpl; [reflexivity | rewrite IH; reflexivity]. Qed.

Lemma tmp_is_sibling (path : string) : (path ++ ".tmp")%string <> path.
Proof.
  intros H. apply (f_equal String.length) in H.
  rewrite length_append in H. simpl in H. lia.
Qed.

(** The writer of step 1: whenever the process or the machine stops, the
    target holds the old text or the new one. *)
Lemma atomic_write_json_old_or_new path old json fs k :
  fs !! path = Some (mkFile old old) ->
  let fs' := exec_all fs (take k (atomic_write_json path json)) in
  (read fs' path = Some old \/ read fs' path = Some json) /\
  (read_after_crash fs' path = Some old \/ read_after_crash fs' path = Some json).
Proof.
  intros Hold. pose proof (tmp_is_sibling path) as Hne.
  unfold atomic_write_json, exec_all, read, read_after_crash.
  do 6 (destruct k as [|k];
        [cbn [firstn fold_left exec];
         repeat (rewrite lookup_insert_eq; cbn [visible durable exec fold_left];
                 rewrite ?insert_insert_eq);
         rewrite ?lookup_insert_ne by exact Hne; rewrite Hold; simpl; auto|]).
  cbn [firstn fold_left exec].
  repeat (rewrite lookup_insert_eq; cbn [visible durable exec fold_left];
          rewrite ?insert_insert_eq).
  rewrite firstn_nil. cbn [fold_left]. rewrite lookup_insert_eq. simpl. auto.
Qed.

(** C8 (what the code does).  [save_status] of step 3 writes the sibling
    file and renames it over the target, but nothing forces the bytes to the
    disk in between, as [atomic_write_json] of step 1 does with [fsync].
    With the checkpoint ["old"] on disk and ["new"] saved, a reader sees
    ["new"], and after a power loss the target is empty: neither the old
    state nor the new one. *)
Theorem save_status_is_not_forced_to_disk :
  (forall json, existsb is_fsync (save_status json) = false) /\
  (forall path json, existsb is_fsync (atomic_write_json path json) = true) /\
  let fs := exec_all {[STATUS_PATH := mkFile "old" "old"]} (save_status "new") in
  read fs STATUS_PATH = Some "new" /\
  read_after_crash fs STATUS_PATH = Some "".
Proof.
  split; [reflexivity|]. split; [reflexivity|].
  vm_compute. auto.
Qed.

End CkptFacts.

(** ** More on the collector *)

Module FetchMoreFacts.

Import Fetch FetchMore.

(** *** Identifiers are collected once *)

Section Distinct.

Context (seen0 : gset string).

Lemma distinct_new_nil : distinct_new seen0 [] seen0.
Proof.
  split; [constructor|]. split; [intros v Hv; inversion Hv|].
  simpl. symmetry. apply union_empty_r_L.
Qed.

Lemma scan_item_distinct incremental cutoff title s i :
  distinct_new seen0 (videos s) (seen s) ->
  distinct_new seen0 (videos (scan_item incremental cutoff title s i))
                     (seen (scan_item incremental cutoff title s i)).
Proof.
  intros (Hnd & Hnew & Hseen). unfold scan_item.
  destruct (known_below incremental cutoff s i); [repeat split; assumption|].
  destruct (bool_decide (i_bvid i ∈ seen s)) eqn:Hin;
    [repeat split; assumption|].
  apply bool_decide_eq_false_1 in Hin. simpl.
  assert (Hfresh : (i_bvid i ∉ seen0) /\ (i_bvid i ∉ map bvid (videos s))).
  { rewrite Hseen in Hin. split.
    - intros H. apply Hin. apply elem_of_union. left. exact H.
    - intros H. apply Hin. apply elem_of_union. right.
      apply elem_of_list_to_set. exact H. }
  destruct Hfresh as (Hf0 & Hfv).
  split; [|split].
  - rewrite map_app. simpl. apply NoDup_app. split; [exact Hnd|].
    split; [|apply NoDup_singleton].
    intros b Hb Hb'. apply list_elem_of_singleton in Hb'. subst b. auto.
  - intros v Hv. apply elem_of_app in Hv as [Hv | Hv]; [auto|].
    apply list_elem_of_singleton in Hv. subst v. exact Hf0.
  - rewrite map_app, Hseen. simpl. rewrite list_to_set_app_L. simpl.
    set_solver.
Qed.

Lemma scan_page_distinct incremental cutoff title ms s :
  distinct_new seen0 (videos s) (seen s) ->
  distinct_new seen0 (videos (scan_page incremental cutoff title s ms))
                     (seen (scan_page incremental cutoff title s ms)).
Proof.
  revert s. induction ms as [|m ms IH]; intros s H; [exact H|].
  simpl. apply IH, scan_item_distinct, H.
Qed.

End Distinct.

Lemma yields_ret {A} (P : A -> Prop) (a : A) : P a -> yields P (SM.ret a).
Proof. intros H w. exact H. Qed.

Lemma yields_bind {A B} (P : B -> Prop) (m : SM.M World Event A)
    (f : A -> SM.M World Event B) :
  (forall a, yields P (f a)) -> yields P (SM.bind m f).
Proof.
  intros Hf w. unfold SM.bind, SM.value.
  destruct (m w) as [[a w1] e1]. specialize (Hf a w1). unfold SM.value in Hf.
  destruct (f a w1) as [[b w2] e2]. exact Hf.
Qed.

Section Folder.

Context (R : Remote) (media_id : Z) (title : string).
Context (incremental : bool) (cutoff : Z).
Context (seen0 : gset string).

Local Abbreviation good := (step_inv (distinct_new seen0)).

Lemma yields_again s :
  distinct_new seen0 (videos s) (seen s) -> yields good (SM.ret (Again s)).
Proof. intros H. apply yields_ret. exact H. Qed.

Lemma yields_done s e :
  distinct_new seen0 (videos s) (seen s) ->
  yields good (SM.ret (Done (result s e))).
Proof. intros H. apply yields_ret. exact H. Qed.

Lemma yields_retry s :
  distinct_new seen0 (videos s) (seen s) -> yields good (retry_or_give_up s).
Proof.
  intros H. unfold retry_or_give_up. destruct (5 <=? errors s).
  - apply yields_done, H.
  - apply yields_bind. intros _. apply yields_again, H.
Qed.

Lemma yields_timeout s :
  distinct_new seen0 (videos s) (seen s) -> yields good (on_timeout s).
Proof.
  intros H. unfold on_timeout. apply yields_bind. intros _.
  apply yields_again, H.
Qed.

Lemma yields_page s medias has_more :
  distinct_new seen0 (videos s) (seen s) ->
  yields good (process_page title incremental cutoff s medias has_more).
Proof.
  intros H. unfold process_page. destruct medias as [|m ms].
  { apply yields_done. exact H. }
  cbv zeta.
  pose proof (scan_page_distinct seen0 incremental cutoff title (m :: ms)
                (set_errors 0 s) H) as H'.
  destruct (should_stop_after_page _); [apply yields_done, H'|].
  destruct (negb has_more); [apply yields_done, H'|].
  apply yields_bind. intros _. apply yields_again, H'.
Qed.

Lemma body_distinct s :
  distinct_new seen0 (videos s) (seen s) ->
  yields good (body R media_id title incremental cutoff s).
Proof.
  intros H. unfold body. apply yields_bind.
  intros [| |code medias has_more];
    [apply yields_timeout, H | apply yields_done, H |].
  destruct (negb (code =? 0)%Z); [|apply yields_page, H].
  cbv zeta. destruct (code =? -403)%Z.
  - apply yields_bind.
    intros [| |k']; [apply yields_timeout, H | apply yields_done, H |].
    apply yields_bind. intros _. apply yields_bind.
    intros [| |code2 medias2 has_more2];
      [apply yields_timeout, H | apply yields_done, H |].
    destruct (code2 =? -101)%Z; [apply yields_done, H|].
    destruct (negb (code2 =? 0)%Z); [apply yields_retry, H | apply yields_page, H].
  - destruct (code =? -101)%Z; [apply yields_done, H | apply yields_retry, H].
Qed.

Lemma fetch_loop_distinct fuel s w r :
  distinct_new seen0 (videos s) (seen s) ->
  SM.value (fetch_loop R media_id title incremental cutoff fuel s w) = Some r ->
  distinct_new seen0 (r_videos r) (r_seen r).
Proof.
  revert s w. induction fuel as [|fuel IH]; intros s w H Hr; [discriminate|].
  pose proof (body_distinct s H w) as Hb.
  destruct (body R media_id title incremental cutoff s w) as [[st w1] e1] eqn:Hbody.
  rewrite (FetchFacts.fetch_loop_step R media_id title incremental cutoff
             fuel s w _ _ _ Hbody) in Hr.
  unfold SM.value in *. simpl in Hb.
  destruct st as [s'|r'].
  - apply (IH s' w1 Hb).
    destruct (fetch_loop R media_id title incremental cutoff fuel s' w1)
      as [[r2 w2] e2].
    exact Hr.
  - simpl in Hr. injection Hr as <-. exact Hb.
Qed.

(** X1.  What a read of a folder returns, in either mode and however it
    ends (last page, empty page, truncation, five error answers, an
    exception, an expired cookie): the identifiers of the new videos are
    pairwise distinct, none of them was in the set that was passed in, and
    the set that is handed back is that set with these identifiers added. *)
Theorem fetch_folder_collects_once fuel k start_page w r :
  SM.value (fetch_folder R media_id title incremental cutoff fuel k
                         start_page seen0 w) = Some r ->
  NoDup (map bvid (r_videos r)) /\
  (forall v, v ∈ r_videos r -> bvid v ∉ seen0) /\
  r_seen r = seen0 ∪ list_to_set (map bvid (r_videos r)).
Proof.
  unfold fetch_folder. intros H.
  apply (fetch_loop_distinct fuel
           (mkFState [] start_page 0 0 false k seen0) w r);
    [apply distinct_new_nil | exact H].
Qed.

End Folder.

(** *** The loop over the folders *)

Lemma track_fav_time_bound vs m v :
  v ∈ vs -> (fav_time v <= track_fav_time m vs)%Z.
Proof.
  revert m. induction vs as [|u vs IH]; intros m Hv; [inversion Hv|].
  apply elem_of_cons in Hv as [-> | Hv].
  - unfold track_fav_time. simpl.
    pose proof (FetchFacts.track_fav_time_ge vs
                  (if (m <? fav_time u)%Z then fav_time u else m)) as Hge.
    unfold track_fav_time in Hge.
    destruct (m <? fav_time u)%Z eqn:Hlt; [lia|].
    apply Z.ltb_ge in Hlt. lia.
  - unfold track_fav_time in *. simpl. apply IH. exact Hv.
Qed.

Lemma distinct_new_app seen0 new sn rv sn' :
  distinct_new seen0 new sn -> distinct_new sn rv sn' ->
  distinct_new seen0 (new ++ rv) sn'.
Proof.
  intros (Hnd & Hnew & ->) (Hnd' & Hnew' & ->).
  split; [|split].
  - rewrite map_app. apply NoDup_app. split; [exact Hnd|]. split; [|exact Hnd'].
    intros b Hb Hb'. apply list_elem_of_fmap in Hb' as (v & -> & Hv).
    apply (Hnew' v Hv). apply elem_of_union. right.
    apply elem_of_list_to_set. exact Hb.
  - intros v Hv. apply elem_of_app in Hv as [Hv | Hv]; [auto|].
    intros H0. apply (Hnew' v Hv). apply elem_of_union. left. exact H0.
  - rewrite map_app, list_to_set_app_L. symmetry. apply (assoc_L (∪)).
Qed.

Section Loop.

Context (R : Remote).
Context (vs0 : list Video) (seen0 : gset string).

Lemma grown_start k pg cutoff :
  grown vs0 seen0 (mkMState vs0 seen0 k pg 0 cutoff false).
Proof.
  exists []. simpl. split; [symmetry; apply app_nil_r|].
  split; [apply FetchMoreFacts.distinct_new_nil|].
  intros v Hv. inversion Hv.
Qed.

Lemma visit_folder_grown incr cutoff te sfi fuel i f ms w ms' b w' evs :
  grown vs0 seen0 ms ->
  cookie_expired ms = false ->
  visit_folder R incr cutoff te sfi fuel i f ms w = (Some (ms', b), w', evs) ->
  grown vs0 seen0 ms' /\ cookie_expired ms' = b.
Proof.
  intros Hg Hce H. unfold visit_folder in H.
  destruct (negb incr && (i <? sfi)).
  { sm_ret H. auto. }
  cbv zeta in H. cbn [all_videos m_seen m_keys start_page new_count
                     max_fav_time cookie_expired] in H.
  destruct (media_count f =? 0).
  { sm_ret H. split; [|exact Hce].
    destruct Hg as (new & Hall & Hd & Hf). exists new. auto. }
  sm_bind H r0 w1 x1 Hf.
  destruct r0 as [r0|]; [|sm_ret H].
  assert (Hr : distinct_new (m_seen ms) (r_videos r0) (r_seen r0)).
  { unfold fetch_folder in Hf.
    apply (fetch_loop_distinct R (id f) (title f) incr cutoff (m_seen ms) fuel
             (mkFState [] (if negb incr && (i =? sfi) then start_page ms else 1)
                       0 0 false (m_keys ms) (m_seen ms)) w r0);
      [apply distinct_new_nil|].
    rewrite Hf. reflexivity. }
  destruct Hg as (new & Hall & Hd & Hfav).
  assert (Hg' : forall pg ce,
            grown vs0 seen0
              (mkMState (all_videos ms ++ r_videos r0) (r_seen r0) (r_keys r0) pg
                        (new_count ms + length (r_videos r0))
                        (track_fav_time (max_fav_time ms) (r_videos r0)) ce)).
  { intros pg ce. exists (new ++ r_videos r0). simpl.
    split; [rewrite Hall; symmetry; apply app_assoc|].
    split; [eapply distinct_new_app; eauto|].
    intros v Hv. apply elem_of_app in Hv as [Hv | Hv].
    - pose proof (Hfav v Hv).
      pose proof (FetchFacts.track_fav_time_ge (r_videos r0) (max_fav_time ms)).
      lia.
    - apply track_fav_time_bound. exact Hv. }
  sm_bind H u w2 x2 Hs.
  destruct (r_expired r0).
  - sm_ret H. split; [apply Hg' | reflexivity].
  - sm_bind H u' w3 x3 Hsl. sm_ret H. split; [apply Hg' | exact Hce].
Qed.

Lemma visit_folders_grown incr cutoff te sfi fuel fs i ms w ms' w' evs :
  grown vs0 seen0 ms ->
  cookie_expired ms = false ->
  visit_folders R incr cutoff te sfi fuel i fs ms w = (Some ms', w', evs) ->
  grown vs0 seen0 ms'.
Proof.
  revert i ms w evs. induction fs as [|f fs IH]; intros i ms w evs Hg Hce H;
    simpl in H.
  - sm_ret H. exact Hg.
  - sm_bind H r1 w1 x1 Hv.
    destruct r1 as [[ms1 b]|]; [|sm_ret H].
    destruct (visit_folder_grown _ _ _ _ _ _ _ _ _ _ _ _ _ Hg Hce Hv) as (Hg1 & Hb).
    destruct b.
    + sm_ret H. exact Hg1.
    + eapply IH; eauto.
Qed.

End Loop.

(** *** The whole run *)

Section Run.

Context (R : Remote).

Lemma finish_run ms w :
  w_disk (SM.world (finish ms w)) =
    mkDisk (if negb (cookie_expired ms)
               && bool_decide (is_Some (progress_file (w_disk w)))
            then None else progress_file (w_disk w))
           (Some (mkLastScan (final_cursor (max_fav_time ms) (all_videos ms))
                             (length (all_videos ms))))
           (Some (all_videos ms)) /\
  SM.value (finish ms w) =
    (if cookie_expired ms then ExitCookieExpired else ExitOk).
Proof.
  unfold finish, write_output, unlink_progress, save_last_scan, get_disk,
    put_disk, SM.bind, SM.emit, SM.gets, SM.modify, SM.ret, SM.world, SM.value.
  simpl. destruct (negb (cookie_expired ms) && _); simpl; auto.
Qed.

(** How [main] can end: with an exception before the loop and the files
    untouched, still reading a folder, or through [finish] with what the
    loop has gathered. *)
Lemma main_cases full fuel d r w' evs :
  main R full fuel (mkWorld 0 d) = (r, w', evs) ->
  (r = Some ExitCrash /\ w_disk w' = d) \/
  r = None \/
  (exists ms w4,
     grown (initial_videos full d) (initial_seen full d) ms /\
     r = Some (if cookie_expired ms then ExitCookieExpired else ExitOk) /\
     w_disk w' = w_disk (SM.world (finish ms w4))).
Proof.
  intros Hm. unfold main in Hm.
  sm_bind Hm d0 w0 xa Hd. cbn in Hd. injection Hd as <- <- <-.
  simpl w_disk in Hm.
  sm_bind Hm k w1 xb Hk. cbn in Hk. injection Hk as <- <- <-.
  destruct (get_wbi_keys R 0) as [| |k]; try (sm_ret Hm; left; auto).
  sm_bind Hm u w2 xc Hu. cbn in Hu. injection Hu as <- <- <-.
  sm_bind Hm n w3 xd Hn. cbn in Hn. injection Hn as <- <- <-.
  destruct (list_folders R 1 k) as [folders|]; [|sm_ret Hm; left; auto].
  sm_bind Hm r0 w4 xe Hv.
  destruct r0 as [ms|]; [|sm_ret Hm; right; left; reflexivity].
  right. right.
  match type of Hv with
  | visit_folders _ _ _ _ _ _ _ _ ?m _ = _ =>
      assert (Hstart : grown (initial_videos full d) (initial_seen full d) m)
  end.
  { unfold initial_videos, initial_seen, is_incremental.
    destruct (negb full && bool_decide (is_Some (last_scan_file d)));
      apply grown_start. }
  apply (visit_folders_grown R (initial_videos full d) (initial_seen full d))
    in Hv; [|exact Hstart | reflexivity].
  sm_bind Hm xt w5 xf Hf. sm_ret Hm.
  exists ms, w4. split; [exact Hv|].
  pose proof (finish_run ms w4) as (_ & Hval).
  rewrite Hf in Hval. unfold SM.value in Hval. simpl in Hval.
  split; [rewrite Hval; reflexivity|].
  rewrite Hf. reflexivity.
Qed.

(** X2.  A run that ends through its normal exit or with the expired
    cookie writes a list that starts with the list it started from (the
    known videos in incremental mode, the videos of the progress file in
    full mode) and goes on with the videos of this run, whose identifiers
    are pairwise distinct and were not in the set of known identifiers:
    nothing known is dropped and nothing is added twice. *)
Theorem known_videos_are_kept full fuel d e :
  SM.value (run R full fuel d) = Some e ->
  e <> ExitCrash ->
  exists new,
    output_file (w_disk (SM.world (run R full fuel d)))
      = Some (initial_videos full d ++ new) /\
    NoDup (map bvid new) /\
    (forall v, v ∈ new -> bvid v ∉ initial_seen full d).
Proof.
  unfold run. destruct (main R full fuel (mkWorld 0 d)) as [[r w'] evs] eqn:Hm.
  unfold SM.value, SM.world. simpl. intros -> Hne.
  apply main_cases in Hm as [(Hr & _) | [Hr | (ms & w4 & Hg & Hr & Hd)]].
  - injection Hr as ->. congruence.
  - discriminate.
  - destruct Hg as (new & Hall & (Hnd & Hnew & _) & _).
    exists new. rewrite Hd.
    destruct (finish_run ms w4) as (-> & _). simpl. rewrite Hall. auto.
Qed.

(** X3.  After such a run the cursor file holds the number of videos of
    the list that was written, and a marker that no video of this run
    exceeds. *)
Theorem cursor_bounds_new_videos full fuel d e :
  SM.value (run R full fuel d) = Some e ->
  e <> ExitCrash ->
  exists new ls,
    output_file (w_disk (SM.world (run R full fuel d)))
      = Some (initial_videos full d ++ new) /\
    last_scan_file (w_disk (SM.world (run R full fuel d))) = Some ls /\
    total_known ls = length (initial_videos full d ++ new) /\
    forall v, v ∈ new -> (fav_time v <= latest_fav_time ls)%Z.
Proof.
  unfold run. destruct (main R full fuel (mkWorld 0 d)) as [[r w'] evs] eqn:Hm.
  unfold SM.value, SM.world. simpl. intros -> Hne.
  apply main_cases in Hm as [(Hr & _) | [Hr | (ms & w4 & Hg & Hr & Hd)]].
  - injection Hr as ->. congruence.
  - discriminate.
  - destruct Hg as (new & Hall & _ & Hfav).
    exists new. eexists. rewrite Hd.
    destruct (finish_run ms w4) as (-> & _). simpl. rewrite Hall.
    split; [reflexivity|]. split; [reflexivity|]. split; [reflexivity|].
    intros v Hv. simpl. specialize (Hfav v Hv).
    pose proof (FetchFacts.final_cursor_ge (max_fav_time ms)
                  (initial_videos full d ++ new)).
    lia.
Qed.

(** X4.  A run that ends through its normal exit leaves no progress file,
    in either mode: the file of an interrupted full run is removed by the
    next run that is not stopped by the cookie, an incremental one
    included. *)
Theorem normal_exit_removes_progress full fuel d :
  SM.value (run R full fuel d) = Some ExitOk ->
  progress_file (w_disk (SM.world (run R full fuel d))) = None.
Proof.
  unfold run. destruct (main R full fuel (mkWorld 0 d)) as [[r w'] evs] eqn:Hm.
  unfold SM.value, SM.world. simpl. intros ->.
  apply main_cases in Hm as [(Hr & _) | [Hr | (ms & w4 & _ & Hr & Hd)]];
    [discriminate | discriminate |].
  rewrite Hd. destruct (finish_run ms w4) as (-> & _). simpl.
  destruct (cookie_expired ms); [discriminate|]. simpl.
  destruct (bool_decide (is_Some (progress_file (w_disk w4)))) eqn:Hp;
    [reflexivity|].
  apply bool_decide_eq_false_1 in Hp.
  destruct (progress_file (w_disk w4)); [|reflexivity].
  exfalso. apply Hp. eauto.
Qed.

(** X5.  When [get_wbi_keys] raises, or [get_all_folders] does once the
    keys are there, the script ends on the exception: its only effects are
    these one or two requests, and the three files are as it found
    them. *)
Theorem early_exception_leaves_files full fuel d :
  get_wbi_keys R 0 = WbiTimeout \/
  get_wbi_keys R 0 = WbiError \/
  (exists k, get_wbi_keys R 0 = WbiKeys k /\ list_folders R 1 k = None) ->
  let r := run R full fuel d in
  SM.value r = Some ExitCrash /\
  w_disk (SM.world r) = d /\
  (SM.events r = [EvWbi] \/ SM.events r = [EvWbi; EvFolders]).
Proof.
  intros H r. subst r. unfold run.
  destruct (main R full fuel (mkWorld 0 d)) as [[r w'] evs] eqn:Hm.
  unfold SM.value, SM.world, SM.events. simpl.
  unfold main in Hm.
  sm_bind Hm d0 w0 xa Hd. cbn in Hd. injection Hd as <- <- <-.
  simpl w_disk in Hm.
  sm_bind Hm k w1 xb Hk. cbn in Hk. injection Hk as <- <- <-.
  destruct H as [H | [H | (k0 & H & Hf)]]; rewrite H in Hm.
  - sm_ret Hm. auto.
  - sm_ret Hm. auto.
  - sm_bind Hm u w2 xc Hu. cbn in Hu. injection Hu as <- <- <-.
    sm_bind Hm n w3 xd Hn. cbn in Hn. injection Hn as <- <- <-.
    rewrite Hf in Hm. sm_ret Hm. auto.
Qed.

(** X6.  Without a cursor file, a run without [--full] is the full run:
    the same requests, the same files, the same exit. *)
Theorem no_cursor_means_full_run fuel d :
  last_scan_file d = None ->
  run R false fuel d = run R true fuel d.
Proof.
  intros H. unfold run, main, SM.bind, get_disk, SM.gets. simpl.
  rewrite H. reflexivity.
Qed.

End Run.

Lemma fetch_folder_collects_once_witness :
  NoDup (map bvid (r_videos MoreCases.read_renewed_result)) /\
  (forall v, v ∈ r_videos MoreCases.read_renewed_result ->
             bvid v ∉ ({["BV1a"]} : gset string)) /\
  r_seen MoreCases.read_renewed_result =
    {["BV1a"]} ∪ list_to_set (map bvid (r_videos MoreCases.read_renewed_result)).
Proof.
  apply (fetch_folder_collects_once FetchCases.renewed 10 "A" false 0
           {["BV1a"]} 9 FetchCases.keys0 1 (mkWorld 0 FetchCases.fresh_disk)
           MoreCases.read_renewed_result).
  vm_compute. reflexivity.
Defined.

Lemma known_videos_are_kept_witness :
  exists new,
    output_file
      (w_disk (SM.world (run FetchCases.renewed false 9 FetchCases.scanned_disk)))
      = Some (initial_videos false FetchCases.scanned_disk ++ new) /\
    NoDup (map bvid new) /\
    (forall v, v ∈ new -> bvid v ∉ initial_seen false FetchCases.scanned_disk).
Proof.
  apply (known_videos_are_kept FetchCases.renewed false 9
           FetchCases.scanned_disk ExitOk).
  - vm_compute. reflexivity.
  - discriminate.
Defined.

Lemma cursor_bounds_new_videos_witness :
  exists new ls,
    output_file
      (w_disk (SM.world (run FetchCases.renewed true 9 FetchCases.fresh_disk)))
      = Some (initial_videos true FetchCases.fresh_disk ++ new) /\
    last_scan_file
      (w_disk (SM.world (run FetchCases.renewed true 9 FetchCases.fresh_disk)))
      = Some ls /\
    total_known ls = length (initial_videos true FetchCases.fresh_disk ++ new) /\
    forall v, v ∈ new -> (fav_time v <= latest_fav_time ls)%Z.
Proof.
  apply (cursor_bounds_new_videos FetchCases.renewed true 9
           FetchCases.fresh_disk ExitOk).
  - vm_compute. reflexivity.
  - discriminate.
Defined.

Lemma normal_exit_removes_progress_witness :
  progress_file
    (w_disk (SM.world (run FetchCases.renewed true 9 MoreCases.stopped_disk)))
  = None.
Proof.
  apply (normal_exit_removes_progress FetchCases.renewed true 9
           MoreCases.stopped_disk).
  vm_compute. reflexivity.
Defined.

Lemma early_exception_leaves_files_witness :
  let r := run MoreCases.unreachable true 9 FetchCases.scanned_disk in
  SM.value r = Some ExitCrash /\
  w_disk (SM.world r) = FetchCases.scanned_disk /\
  (SM.events r = [EvWbi] \/ SM.events r = [EvWbi; EvFolders]).
Proof.
  apply (early_exception_leaves_files MoreCases.unreachable true 9
           FetchCases.scanned_disk).
  right. left. reflexivity.
Defined.

Lemma no_cursor_means_full_run_witness :
  run FetchCases.renewed false 9 FetchCases.fresh_disk
  = run FetchCases.renewed true 9 FetchCases.fresh_disk.
Proof.
  apply (no_cursor_means_full_run FetchCases.renewed 9 FetchCases.fresh_disk).
  reflexivity.
Defined.

(** *** Reading in full mode, and error answers *)






End FetchMoreFacts.

(** ** More on the checkpoint writers *)

Module CkptMoreFacts.

Import Ckpt.

(** X9.  [atomic_write_json] of step 1, stopped after any number of its
    file operations: a reader finds under the target the old text or the
    new one, while the process runs and after a power loss, provided the
    old text was on the disk. *)
Theorem atomic_write_json_is_atomic (path old json : string)
    (fs : gmap string File) (k : nat) :
  fs !! path = Some (mkFile old old) ->
  let fs' := exec_all fs (take k (atomic_write_json path json)) in
  (read fs' path = Some old \/ read fs' path = Some json) /\
  (read_after_crash fs' path = Some old \/ read_after_crash fs' path = Some json).
Proof.
  apply CkptFacts.atomic_write_json_old_or_new.
Qed.

Lemma atomic_write_json_is_atomic_witness :
  let fs' := exec_all {["videos.json" := mkFile "old" "old"]}
                      (take 5 (atomic_write_json "videos.json" "new")) in
  (read fs' "videos.json" = Some "old" \/ read fs' "videos.json" = Some "new") /\
  (read_after_crash fs' "videos.json" = Some "old" \/
   read_after_crash fs' "videos.json" = Some "new").
Proof.
  apply (atomic_write_json_is_atomic "videos.json" "old" "new"
           {["videos.json" := mkFile "old" "old"]} 5).
  reflexivity.
Defined.

End CkptMoreFacts.

(** ** More on the batch processor *)

Module AsrMoreFacts.

Import Asr AsrMore.

(** *** The hash of a key *)

Lemma substring_suffix (s : string) :
  forall n m, String.length s <= n + m -> n <= String.length s ->
    exists p, s = (p ++ String.substring n m s)%string /\ String.length p = n.
Proof.
  induction s as [|c s IH]; intros n m Hlen Hn; simpl in *.
  - assert (n = 0) by lia. subst n. exists EmptyString.
    destruct m; split; reflexivity.
  - destruct n as [|n].
    + destruct m as [|m]; [lia|].
      destruct (IH 0 m ltac:(lia) ltac:(lia)) as (p & Hp & Hl).
      destruct p; [|discriminate].
      change (s = String.substring 0 m s) in Hp.
      exists EmptyString. split; [|reflexivity].
      change (String c s = String c (String.substring 0 m s)).
      f_equal. exact Hp.
    + destruct (IH n m ltac:(lia) ltac:(lia)) as (p & Hp & Hl).
      exists (String c p). split; [|simpl; lia].
      change (String c s = String c (p ++ String.substring n m s)%string).
      f_equal. exact Hp.
Qed.

(** X10.  [key_hash] is the end of the key: the key is some prefix
    followed by its hash, and the hash has 8 characters, or is the whole
    key when the key is shorter. *)
Theorem key_hash_is_suffix (key : string) :
  exists p,
    key = (p ++ key_hash key)%string /\
    String.length (key_hash key) = Nat.min 8 (String.length key).
Proof.
  unfold key_hash, Str.last_chars.
  destruct (substring_suffix key (String.length key - 8) 8 ltac:(lia) ltac:(lia))
    as (p & Hp & Hl).
  exists p. split; [exact Hp|].
  apply (f_equal String.length) in Hp.
  rewrite CkptFacts.length_append in Hp. lia.
Qed.

(** *** Reading the usage of a key *)

Section Usage.

Context (E : Env).

(** X11.  [get_key_usage] performs no event, hands back the entry it
    leaves under the hash, leaves the entries of the other hashes, the
    statuses and the statistics as they are, and gives a hash that had no
    entry one whose two counters are 0. *)
Theorem get_key_usage_touches_one_key (kh : string) (w : World) :
  let '(ku, w', evs) := get_key_usage E kh w in
  evs = [] /\
  key_usage (w_st w') !! kh = Some ku /\
  (forall kh', kh' <> kh ->
     key_usage (w_st w') !! kh' = key_usage (w_st w) !! kh') /\
  processed (w_st w') = processed (w_st w) /\
  stats (w_st w') = stats (w_st w) /\
  (key_usage (w_st w) !! kh = None ->
   hourly_audio ku = 0%Q /\ daily_audio ku = 0%Q).
Proof.
  destruct (get_key_usage E kh w) as [[ku w'] evs] eqn:H.
  pose proof (AsrFacts.get_key_usage_inv E kh w ku w' evs H) as (-> & Hst & _).
  rewrite Hst. simpl.
  split; [reflexivity|]. split; [apply lookup_insert_eq|].
  split; [intros kh' Hne; apply lookup_insert_ne; congruence|].
  split; [reflexivity|]. split; [reflexivity|].
  intros Hnone. revert H.
  unfold get_key_usage, SM.bind, get_st, SM.gets, time_time, SM.bind,
    next_tick, upd_st, SM.modify, SM.ret.
  rewrite Hnone. simpl. intros [= <- _].
  unfold reset_day, reset_hour. simpl.
  repeat match goal with |- context [Qle_bool ?a ?b] => destruct (Qle_bool a b) end;
    simpl; auto.
Qed.

(** X12.  Reading the usage of a key takes no headroom away: a key that
    can take [d] more seconds in both windows, [d] being at most the hourly
    limit, can still take them after [get_key_usage], which can only empty
    a counter. *)
Theorem reading_usage_keeps_headroom (kh : string) (d : Z) (w : World) :
  (inject_Z d <= HOURLY_LIMIT_PER_KEY)%Q ->
  headroom (w_st w) kh d ->
  headroom (w_st (SM.world (get_key_usage E kh w))) kh d.
Proof.
  intros Hd Hh.
  destruct (get_key_usage E kh w) as [[ku w'] evs] eqn:H.
  unfold SM.world. simpl.
  exact (AsrFacts.get_key_usage_keeps_headroom E kh d w ku w' evs Hd Hh H).
Qed.

End Usage.

Lemma reading_usage_keeps_headroom_witness :
  headroom
    (w_st (SM.world (get_key_usage AsrCases.steady (key_hash AsrCases.key1)
                                   used_world)))
    (key_hash AsrCases.key1) 1700.
Proof.
  apply (reading_usage_keeps_headroom AsrCases.steady (key_hash AsrCases.key1)
           1700 used_world).
  - vm_compute. discriminate.
  - exists (mkKeyUsage 3600 0 3600 0).
    split; [vm_compute; reflexivity|].
    split; vm_compute; discriminate.
Defined.

(** *** The statistics, the last checkpoint and the streak *)

Section Tally.

Context (API_KEYS : list string) (E : Env).

Lemma keeps_stats_ret {A} (a : A) : keeps_stats (SM.ret a).
Proof. intros w. split; reflexivity. Qed.

Lemma keeps_stats_bind {A B} (m : SM.M World Event A)
    (f : A -> SM.M World Event B) :
  keeps_stats m -> (forall a, keeps_stats (f a)) -> keeps_stats (SM.bind m f).
Proof.
  intros Hm Hf w. specialize (Hm w). unfold SM.bind, SM.world, SM.events in *.
  destruct (m w) as [[a w1] e1]. specialize (Hf a w1).
  unfold SM.world, SM.events in Hf.
  destruct (f a w1) as [[b w2] e2]. simpl in *.
  destruct Hm as (Hm1 & Hm2), Hf as (Hf1 & Hf2).
  split; [congruence|]. rewrite List.filter_app, Hm2, Hf2. reflexivity.
Qed.

Lemma keeps_stats_get_key_usage kh : keeps_stats (get_key_usage E kh).
Proof.
  intros w. destruct (get_key_usage E kh w) as [[ku w'] evs] eqn:H.
  apply AsrFacts.get_key_usage_inv in H as (-> & Hst & _).
  unfold SM.world, SM.events. simpl. rewrite Hst. split; reflexivity.
Qed.

Lemma keeps_stats_key_has_quota kh d : keeps_stats (key_has_quota E kh d).
Proof.
  unfold key_has_quota. apply keeps_stats_bind; [apply keeps_stats_get_key_usage|].
  intros ku. apply keeps_stats_ret.
Qed.

Lemma keeps_stats_find_loop js s d : keeps_stats (find_loop API_KEYS E js s d).
Proof.
  induction js as [|j js IH]; simpl; [apply keeps_stats_ret|].
  apply keeps_stats_bind; [apply keeps_stats_key_has_quota|].
  intros [|]; [apply keeps_stats_ret | exact IH].
Qed.

Lemma keeps_stats_find_available_key s d :
  keeps_stats (find_available_key API_KEYS E s d).
Proof. apply keeps_stats_find_loop. Qed.

Lemma keeps_stats_save_status : keeps_stats save_status.
Proof. intros w. split; reflexivity. Qed.

Lemma keeps_stats_sleep q : keeps_stats (sleep q).
Proof. intros w. split; reflexivity. Qed.

Lemma keeps_stats_upd_key_usage kh ku : keeps_stats (upd_st (set_key_usage kh ku)).
Proof. intros w. split; reflexivity. Qed.

Lemma keeps_stats_rotate_if_needed L d :
  keeps_stats (rotate_if_needed API_KEYS E L d).
Proof.
  unfold rotate_if_needed.
  apply keeps_stats_bind; [apply keeps_stats_key_has_quota|].
  intros [|]; [apply keeps_stats_ret|].
  apply keeps_stats_bind; [apply keeps_stats_get_key_usage|]. intros _.
  apply keeps_stats_bind; [apply keeps_stats_save_status|]. intros _.
  apply keeps_stats_bind; [apply keeps_stats_find_available_key|].
  intros [[new_idx new_kh]|]; [|apply keeps_stats_ret].
  apply keeps_stats_bind; [apply keeps_stats_get_key_usage|]. intros _.
  apply keeps_stats_ret.
Qed.

Lemma keeps_stats_after_item L : keeps_stats (after_item E L).
Proof.
  unfold after_item. apply keeps_stats_bind; [|intros _; apply keeps_stats_sleep].
  destruct (_ && _); [|apply keeps_stats_ret].
  apply keeps_stats_bind; [apply keeps_stats_save_status|]. intros _.
  apply keeps_stats_bind; [apply keeps_stats_get_key_usage|]. intros _.
  apply keeps_stats_ret.
Qed.

Lemma keeps_stats_final_report keys : keeps_stats (final_report E keys).
Proof.
  induction keys as [|k keys IH]; simpl; [apply keeps_stats_ret|].
  apply keeps_stats_bind; [apply keeps_stats_get_key_usage|]. intros _. exact IH.
Qed.

Lemma keeps_stats_inv {A} (m : SM.M World Event A) w a w' evs :
  keeps_stats m -> m w = (a, w', evs) ->
  stats (w_st w') = stats (w_st w) /\
  List.filter is_download evs = [] /\
  List.filter is_transcribe evs = [] /\
  List.filter is_write_text evs = [].
Proof.
  intros Hm H. specialize (Hm w). rewrite H in Hm.
  unfold SM.world, SM.events in Hm. simpl in Hm. destruct Hm as (Hs & Hq).
  split; [exact Hs|].
  clear H Hs. induction evs as [|e evs IH]; [auto|].
  simpl in Hq. destruct (is_work e) eqn:He; [discriminate|].
  unfold is_work in He. apply orb_false_elim in He as (He & He3).
  apply orb_false_elim in He as (He1 & He2).
  simpl. rewrite He1, He2, He3. auto.
Qed.

Lemma accounted_refl t : accounted t t [].
Proof. unfold accounted, count. simpl. lia. Qed.

Lemma accounted_app t t1 t2 e1 e2 :
  accounted t t1 e1 -> accounted t1 t2 e2 -> accounted t t2 (e1 ++ e2).
Proof.
  unfold accounted, count. rewrite !List.filter_app, !length_app. lia.
Qed.

Lemma accounted_keeps {A} (m : SM.M World Event A) w a w' evs :
  keeps_stats m -> m w = (a, w', evs) ->
  accounted (stats (w_st w)) (stats (w_st w')) evs.
Proof.
  intros Hm H. destruct (keeps_stats_inv m w a w' evs Hm H) as (-> & H1 & H2 & H3).
  unfold accounted, count. rewrite H1, H2, H3. simpl. lia.
Qed.

Lemma record_stats b s w u w' evs :
  record b s w = (u, w', evs) ->
  evs = [] /\ stats (w_st w') = stats (bump_stats s (w_st w)).
Proof. cbn. intros [= <- <- <-]. auto. Qed.

Ltac tally :=
  unfold accounted, count;
  rewrite ?List.filter_app, ?length_app;
  repeat match goal with
         | Hq : List.filter _ ?e = [] |- _ => rewrite Hq
         end;
  simpl.

Lemma process_video_accounted v L w L' h w' evs :
  process_video API_KEYS E v L w = (L', h, w', evs) ->
  accounted (stats (w_st w)) (stats (w_st w')) evs.
Proof.
  intros H. unfold process_video in H.
  sm_bind H st w0 e0 Hg. cbn in Hg. injection Hg as <- <- <-.
  destruct (negb (Str.truthy (bvid v)) || is_done (processed (w_st w) !! bvid v)).
  { sm_ret H. apply accounted_refl. }
  sm_bind H r w1 evs1 Hr.
  pose proof (keeps_stats_inv _ _ _ _ _ (keeps_stats_rotate_if_needed L (duration v)) Hr)
    as (Hs1 & Hd1 & Ht1 & Hw1).
  destruct r as [L1|].
  2:{ sm_ret H. tally. rewrite Hs1. lia. }
  sm_bind H d w2 e2 Hd.
  apply AsrFacts.call_download_inv in Hd as (Hd & Hst2 & _ & ->).
  destruct d; simpl negb in H; cbv iota in H.
  - sm_bind H t w3 e3 Ht. simpl current_key_idx in *. simpl kh in *.
    apply AsrFacts.call_transcribe_inv in Ht as (Ht & Hst3 & _ & ->).
    destruct t as [text actual | msg].
    + sm_bind H ku w4 e4 Hk.
      pose proof (keeps_stats_inv _ _ _ _ _ (keeps_stats_get_key_usage _) Hk)
        as (Hs4 & Hd4 & Ht4 & Hw4).
      sm_bind H L2 w5 e5 Hrec. sm_bind H u w6 e6 Hu.
      pose proof (keeps_stats_inv _ _ _ _ _ (keeps_stats_upd_key_usage _ _) Hu)
        as (Hs6 & Hd6 & Ht6 & Hw6).
      sm_bind H u' w7 e7 Ha. sm_ret H.
      pose proof (keeps_stats_inv _ _ _ _ _ (keeps_stats_after_item _) Ha)
        as (Hs7 & Hd7 & Ht7 & Hw7).
      destruct (Str.truthy text).
      * sm_bind Hrec u1 wa ea He. apply AsrFacts.emit_inv in He as (-> & ->).
        sm_bind Hrec u2 wb eb Hrc. apply record_stats in Hrc as (-> & Hsb).
        sm_ret Hrec. tally. rewrite Hs7, Hs6, Hsb. simpl. rewrite Hs4, Hst3, Hst2, Hs1. lia.
      * sm_bind Hrec u2 wb eb Hrc. apply record_stats in Hrc as (-> & Hsb).
        sm_ret Hrec. tally. rewrite Hs7, Hs6, Hsb. simpl. rewrite Hs4, Hst3, Hst2, Hs1. lia.
    + destruct (is_rate_limit msg).
      * sm_bind H f w4 e4 Hf.
        pose proof (keeps_stats_inv _ _ _ _ _
                      (keeps_stats_find_available_key _ _) Hf)
          as (Hs4 & Hd4 & Ht4 & Hw4).
        destruct f as [[new_idx new_kh]|]; sm_ret H; tally;
          rewrite Hs4, Hst3, Hst2, Hs1; lia.
      * sm_bind H u w4 e4 Hrc. apply record_stats in Hrc as (-> & Hs4).
        sm_bind H u' w5 e5 Ha. sm_ret H.
        pose proof (keeps_stats_inv _ _ _ _ _ (keeps_stats_after_item _) Ha)
          as (Hs5 & Hd5 & Ht5 & Hw5).
        tally. rewrite Hs5, Hs4. simpl. rewrite Hst3, Hst2, Hs1. lia.
  - sm_bind H u w3 e3 Hrc. apply record_stats in Hrc as (-> & Hs3).
    sm_bind H u' w4 e4 Hs. apply AsrFacts.save_status_inv in Hs as (-> & ->).
    destruct (10 <=? _).
    + sm_ret H. tally. rewrite Hs3. simpl. rewrite Hst2, Hs1. lia.
    + sm_bind H u2 w5 e5 Hsl. apply AsrFacts.sleep_inv in Hsl as (-> & ->). sm_ret H.
      tally. rewrite Hs3. simpl. rewrite Hst2, Hs1. lia.
Qed.

Lemma run_loop_accounted vs L w L' h w' evs :
  run_loop API_KEYS E vs L w = (L', h, w', evs) ->
  accounted (stats (w_st w)) (stats (w_st w')) evs.
Proof.
  revert L w evs. induction vs as [|v vs IH]; intros L w evs H; simpl in H.
  - sm_ret H. apply accounted_refl.
  - sm_bind H r w1 e1 Hv. destruct r as [L1 h1].
    apply process_video_accounted in Hv.
    destruct h1 as [hh|].
    + sm_ret H. rewrite app_nil_r. exact Hv.
    + eapply accounted_app; [exact Hv|]. eapply IH. exact H.
Qed.

Lemma streak_app e1 e2 c : streak (e1 ++ e2) c = streak e2 (streak e1 c).
Proof. apply fold_left_app. Qed.

Lemma streak_quiet evs c :
  List.filter is_download evs = [] -> List.filter is_transcribe evs = [] ->
  streak evs c = c.
Proof.
  revert c. induction evs as [|e evs IH]; intros c Hd Ht; [reflexivity|].
  simpl in Hd, Ht. destruct e; simpl in *; try discriminate; auto.
Qed.

Ltac streaks :=
  rewrite ?streak_app;
  repeat match goal with
         | Hd : List.filter is_download ?e = [],
           Ht : List.filter is_transcribe ?e = [] |- context [streak ?e ?c] =>
             rewrite (streak_quiet e c Hd Ht)
         end;
  simpl.

Lemma process_video_streak v L w L' h w' evs :
  process_video API_KEYS E v L w = (L', h, w', evs) ->
  consecutive_dl_fails L' = streak evs (consecutive_dl_fails L) /\
  (h = Some HaltStreak -> 10 <= consecutive_dl_fails L').
Proof.
  intros H. unfold process_video in H.
  sm_bind H st w0 e0 Hg. cbn in Hg. injection Hg as <- <- <-.
  destruct (negb (Str.truthy (bvid v)) || is_done (processed (w_st w) !! bvid v)).
  { sm_ret H. split; [reflexivity | discriminate]. }
  sm_bind H r w1 evs1 Hr.
  pose proof (keeps_stats_inv _ _ _ _ _ (keeps_stats_rotate_if_needed L (duration v)) Hr)
    as (_ & Hd1 & Ht1 & _).
  pose proof (AsrFacts.rotate_if_needed_inv _ _ _ _ _ _ _ _ Hr) as (_ & _ & HL1).
  destruct r as [L1|].
  2:{ sm_ret H. streaks. split; [reflexivity | discriminate]. }
  destruct HL1 as (_ & HL1 & _).
  sm_bind H d w2 e2 Hd.
  apply AsrFacts.call_download_inv in Hd as (Hd & _ & _ & ->).
  destruct d; simpl negb in H; cbv iota in H.
  - sm_bind H t w3 e3 Ht. simpl current_key_idx in *. simpl kh in *.
    apply AsrFacts.call_transcribe_inv in Ht as (Ht & _ & _ & ->).
    destruct t as [text actual | msg].
    + sm_bind H ku w4 e4 Hk.
      pose proof (keeps_stats_inv _ _ _ _ _ (keeps_stats_get_key_usage _) Hk)
        as (_ & Hd4 & Ht4 & _).
      sm_bind H L2 w5 e5 Hrec. sm_bind H u w6 e6 Hu.
      pose proof (keeps_stats_inv _ _ _ _ _ (keeps_stats_upd_key_usage _ _) Hu)
        as (_ & Hd6 & Ht6 & _).
      sm_bind H u' w7 e7 Ha. sm_ret H.
      pose proof (keeps_stats_inv _ _ _ _ _ (keeps_stats_after_item _) Ha)
        as (_ & Hd7 & Ht7 & _).
      destruct (Str.truthy text).
      * sm_bind Hrec u1 wa ea He. apply AsrFacts.emit_inv in He as (-> & ->).
        sm_bind Hrec u2 wb eb Hrc. apply record_stats in Hrc as (-> & _).
        sm_ret Hrec. streaks. split; [reflexivity | discriminate].
      * sm_bind Hrec u2 wb eb Hrc. apply record_stats in Hrc as (-> & _).
        sm_ret Hrec. streaks. split; [reflexivity | discriminate].
    + destruct (is_rate_limit msg).
      * sm_bind H f w4 e4 Hf.
        pose proof (keeps_stats_inv _ _ _ _ _
                      (keeps_stats_find_available_key _ _) Hf)
          as (_ & Hd4 & Ht4 & _).
        destruct f as [[new_idx new_kh]|]; sm_ret H; streaks;
          (split; [reflexivity | discriminate]).
      * sm_bind H u w4 e4 Hrc. apply record_stats in Hrc as (-> & _).
        sm_bind H u' w5 e5 Ha. sm_ret H.
        pose proof (keeps_stats_inv _ _ _ _ _ (keeps_stats_after_item _) Ha)
          as (_ & Hd5 & Ht5 & _).
        streaks. split; [reflexivity | discriminate].
  - sm_bind H u w3 e3 Hrc. apply record_stats in Hrc as (-> & _).
    sm_bind H u' w4 e4 Hs. apply AsrFacts.save_status_inv in Hs as (-> & ->).
    cbn [consecutive_dl_fails] in H.
    destruct (10 <=? S (consecutive_dl_fails L1)) eqn:Hten.
    + sm_ret H. streaks. rewrite HL1. split; [reflexivity|].
      intros _. apply Nat.leb_le in Hten. lia.
    + sm_bind H u2 w5 e5 Hsl. apply AsrFacts.sleep_inv in Hsl as (-> & ->). sm_ret H.
      streaks. rewrite HL1. split; [reflexivity | discriminate].
Qed.

Lemma run_loop_streak vs L w L' h w' evs :
  run_loop API_KEYS E vs L w = (L', h, w', evs) ->
  consecutive_dl_fails L' = streak evs (consecutive_dl_fails L) /\
  (h = Some HaltStreak -> 10 <= consecutive_dl_fails L').
Proof.
  revert L w evs. induction vs as [|v vs IH]; intros L w evs H; simpl in H.
  - sm_ret H. split; [reflexivity | discriminate].
  - sm_bind H r w1 e1 Hv. destruct r as [L1 h1].
    apply process_video_streak in Hv as (Hc & Hh).
    destruct h1 as [hh|].
    + sm_ret H. rewrite app_nil_r. auto.
    + apply IH in H as (Hc' & Hh'). rewrite streak_app, <- Hc. auto.
Qed.

(** The downloads that end the list of downloads and backend calls. *)
Lemma streak_tail evs c :
  exists pre bs,
    List.filter is_backend_call evs = pre ++ map EvDownload bs /\
    (streak evs c = length bs \/ (pre = [] /\ streak evs c = c + length bs)).
Proof.
  induction evs as [|e evs IH] using rev_ind.
  - exists [], []. split; [reflexivity|]. right.
    split; [reflexivity | simpl; lia].
  - destruct IH as (pre & bs & Hf & Hs).
    rewrite List.filter_app, streak_app, Hf. simpl.
    destruct e as [s | b | key b | b text | q]; simpl; rewrite ?app_nil_r.
    + exists pre, bs. auto.
    + exists pre, (bs ++ [b]). rewrite map_app, length_app, app_assoc. simpl.
      split; [reflexivity|].
      destruct Hs as [-> | (-> & ->)]; [left | right; split; [reflexivity|]]; lia.
    + exists ((pre ++ map EvDownload bs) ++ [EvTranscribe key b]), [].
      simpl. rewrite app_nil_r. auto.
    + exists pre, bs. auto.
    + exists pre, bs. auto.
Qed.

(** X13.  An item that the checkpoint marks [ok] or [no_speech] is left
    alone by a run, whatever the queue, the keys and the backend: it is
    not downloaded, no backend call is made and no transcript is written
    for it, every checkpoint that the run saves has its entry unchanged,
    and so has the status map at the end. *)
Theorem done_items_are_left_alone (queue : list Video) (st0 : Status)
    (b0 : string) :
  is_done (processed st0 !! b0) = true ->
  let r := run API_KEYS E queue st0 in
  Forall (leaves_alone b0 (processed st0)) (SM.events r) /\
  processed (w_st (SM.world r)) !! b0 = processed st0 !! b0.
Proof.
  intros Hdone r. subst r. unfold run, SM.events, SM.world.
  destruct (main API_KEYS E queue (mkWorld st0 0)) as [[h w'] evs] eqn:Hm.
  simpl. apply (AsrFacts.main_leaves_alone API_KEYS E b0) in Hm; [exact Hm|].
  left. exact Hdone.
Qed.

(** X14.  Every run that comes to its end, on whichever [break] or on the
    early [return], writes the checkpoint as its last effect, and this
    checkpoint holds the status map and the statistics of the end of the
    run. *)
Theorem run_ends_with_checkpoint (queue : list Video) (st0 : Status) :
  let r := run API_KEYS E queue st0 in
  exists evs0 s,
    SM.events r = evs0 ++ [EvSave s] /\
    processed s = processed (w_st (SM.world r)) /\
    stats s = stats (w_st (SM.world r)).
Proof.
  intros r. subst r. unfold run, SM.events, SM.world.
  destruct (main API_KEYS E queue (mkWorld st0 0)) as [[h w'] evs] eqn:H.
  simpl. unfold main in H. sm_bind H f w0 ev0 Hf.
  destruct f as [[idx kh0]|].
  - sm_bind H ku w1 ev1 Hk. unfold drain in H.
    sm_bind H r w2 ev2 Hl. destruct r as [Ll hl].
    sm_bind H u w3 ev3 Hs. apply AsrFacts.save_status_inv in Hs as (-> & ->).
    sm_bind H u' w4 ev4 Hr. sm_ret H.
    pose proof (keeps_stats_inv _ _ _ _ _ (keeps_stats_final_report _) Hr)
      as (Hs4 & _).
    apply AsrFacts.final_report_inv in Hr as (-> & Hp4).
    exists (ev0 ++ ev1 ++ ev2), (w_st w2).
    rewrite !app_nil_r, <- !app_assoc. auto.
  - sm_bind H u w1 ev1 Hs. apply AsrFacts.save_status_inv in Hs as (-> & ->).
    sm_ret H. exists ev0, (w_st w0). auto.
Qed.

(** X15.  The statistics follow the work of the run: [ok] grows by the
    number of transcripts written; [error_download] by the number of
    downloads that no backend call followed; and the three other counters
    together by at most the number of backend calls, a call that is
    rejected for its rate being counted nowhere. *)
Theorem stats_follow_the_events (queue : list Video) (st0 : Status) :
  let r := run API_KEYS E queue st0 in
  let t0 := stats st0 in
  let t := stats (w_st (SM.world r)) in
  let evs := SM.events r in
  n_ok t = n_ok t0 + count is_write_text evs /\
  n_error_download t + count is_transcribe evs
    = n_error_download t0 + count is_download evs /\
  n_ok t + n_no_speech t + n_error_transcribe t
    <= n_ok t0 + n_no_speech t0 + n_error_transcribe t0
       + count is_transcribe evs.
Proof.
  intros r t0 t evs. subst r t0 t evs. unfold run, SM.events, SM.world.
  destruct (main API_KEYS E queue (mkWorld st0 0)) as [[h w'] evs] eqn:H.
  simpl. unfold main in H. sm_bind H f w0 ev0 Hf.
  pose proof (accounted_keeps _ _ _ _ _ (keeps_stats_find_available_key 0 0) Hf)
    as Hacc0.
  assert (Hacc : accounted (stats st0) (stats (w_st w')) (ev0 ++ e)).
  { eapply accounted_app; [exact Hacc0|]. clear Hacc0 Hf.
    destruct f as [[idx kh0]|].
    - sm_bind H ku w1 ev1 Hk.
      pose proof (accounted_keeps _ _ _ _ _ (keeps_stats_get_key_usage _) Hk) as A1.
      eapply accounted_app; [exact A1|]. unfold drain in H.
      sm_bind H r w2 ev2 Hl. destruct r as [Ll hl].
      apply run_loop_accounted in Hl.
      eapply accounted_app; [exact Hl|].
      sm_bind H u w3 ev3 Hs.
      pose proof (accounted_keeps _ _ _ _ _ keeps_stats_save_status Hs) as A3.
      eapply accounted_app; [exact A3|].
      sm_bind H u' w4 ev4 Hr. sm_ret H. rewrite app_nil_r.
      exact (accounted_keeps _ _ _ _ _ (keeps_stats_final_report _) Hr).
    - sm_bind H u w1 ev1 Hs. sm_ret H. rewrite app_nil_r.
      exact (accounted_keeps _ _ _ _ _ keeps_stats_save_status Hs). }
  destruct Hacc as (A & B & C & _). auto.
Qed.

(** X16.  A run stops on a streak of failed downloads only when the last
    ten downloads of the run came one after the other with no backend call
    between them, that is, when none of them succeeded. *)
Theorem streak_stop_follows_ten_downloads (queue : list Video) (st0 : Status) :
  let r := run API_KEYS E queue st0 in
  SM.value r = Some HaltStreak ->
  exists pre bs,
    List.filter is_backend_call (SM.events r) = pre ++ map EvDownload bs /\
    length bs = 10.
Proof.
  intros r. subst r. unfold run, SM.events, SM.value.
  destruct (main API_KEYS E queue (mkWorld st0 0)) as [[h w'] evs] eqn:H.
  simpl. intros ->. unfold main in H. sm_bind H f w0 ev0 Hf.
  apply AsrFacts.find_available_key_inv in Hf as (-> & _).
  destruct f as [[idx kh0]|].
  2:{ sm_bind H u w1 ev1 Hs. sm_ret H. }
  sm_bind H ku w1 ev1 Hk. apply AsrFacts.get_key_usage_inv in Hk as (-> & _).
  unfold drain in H. sm_bind H r w2 ev2 Hl. destruct r as [Ll hl].
  sm_bind H u w3 ev3 Hs. apply AsrFacts.save_status_inv in Hs as (-> & ->).
  sm_bind H u' w4 ev4 Hr. sm_ret H.
  apply AsrFacts.final_report_inv in Hr as (-> & _).
  apply run_loop_streak in Hl as (Hc & Hten). specialize (Hten eq_refl).
  simpl in Hc. rewrite Hc in Hten.
  destruct (streak_tail ev2 0) as (pre & bs & Hf & Hs).
  assert (Hlen : 10 <= length bs) by (destruct Hs as [Hs | (_ & Hs)]; lia).
  cbn [app]. rewrite List.filter_app, Hf. simpl. rewrite app_nil_r.
  exists (pre ++ map EvDownload (take (length bs - 10) bs)),
         (drop (length bs - 10) bs).
  rewrite <- app_assoc, <- map_app, take_drop. split; [reflexivity|].
  rewrite length_drop. lia.
Qed.

End Tally.

Lemma done_items_are_left_alone_witness :
  let r := run AsrCases.keys2 AsrCases.steady AsrCases.queue_ab half_done in
  Forall (leaves_alone "BV1a" (processed half_done)) (SM.events r) /\
  processed (w_st (SM.world r)) !! "BV1a" = processed half_done !! "BV1a".
Proof.
  apply (done_items_are_left_alone AsrCases.keys2 AsrCases.steady
           AsrCases.queue_ab half_done "BV1a").
  vm_compute. reflexivity.
Defined.

Lemma streak_stop_follows_ten_downloads_witness :
  exists pre bs,
    List.filter is_backend_call
      (SM.events (run AsrCases.keys2 no_network AsrCases.queue12 empty_status))
      = pre ++ map EvDownload bs /\
    length bs = 10.
Proof.
  apply (streak_stop_follows_ten_downloads AsrCases.keys2 no_network
           AsrCases.queue12 empty_status).
  vm_compute. reflexivity.
Defined.

End AsrMoreFacts.

(** ** The signing keys *)

Module WbiFacts.

Import Wbi.

Lemma get_none (s : string) : forall n,
  String.length s <= n -> String.get n s = None.
Proof.
  induction s as [|c s IH]; intros n H; [reflexivity|].
  destruct n as [|n]; simpl in *; [lia|]. apply IH. lia.
Qed.

Lemma get_some (s : string) : forall n,
  n < String.length s -> exists c, String.get n s = Some c.
Proof.
  induction s as [|c s IH]; intros n H; simpl in H; [lia|].
  destruct n as [|n]; simpl; [eauto|]. apply IH. lia.
Qed.

Lemma chars_append (s t : string) :
  list_ascii_of_string (s ++ t)%string
  = list_ascii_of_string s ++ list_ascii_of_string t.
Proof.
  induction s as [|c s IH]; [reflexivity|].
  change (c :: list_ascii_of_string (s ++ t)%string
          = c :: (list_ascii_of_string s ++ list_ascii_of_string t)).
  rewrite IH. reflexivity.
Qed.

Lemma chars_first (s : string) : forall n,
  list_ascii_of_string (String.substring 0 n s)
  = firstn n (list_ascii_of_string s).
Proof.
  induction s as [|c s IH]; intros [|n]; simpl; try reflexivity.
  rewrite IH. reflexivity.
Qed.

Lemma chars_length (s : string) :
  length (list_ascii_of_string s) = String.length s.
Proof. induction s as [|c s IH]; simpl; [reflexivity | rewrite IH; reflexivity]. Qed.

(** The loop appends the characters at the indices of the table, in the
    order of the table, when every index is within the string. *)
Lemma reduce_index_some orig tab : forall s,
  Forall (fun i => i < String.length orig) tab ->
  exists r,
    reduce_index orig tab s = Some r /\
    map Some (list_ascii_of_string r)
    = map Some (list_ascii_of_string s) ++ map (fun i => String.get i orig) tab.
Proof.
  induction tab as [|i tab IH]; intros s Hall; simpl.
  - exists s. rewrite app_nil_r. auto.
  - inversion Hall as [|? ? Hi Hrest]; subst.
    destruct (get_some orig i Hi) as (c & Hc). rewrite Hc.
    destruct (IH (s ++ String c EmptyString)%string Hrest) as (r & Hr & Hchars).
    exists r. split; [exact Hr|].
    rewrite Hchars, chars_append, map_app. simpl. rewrite <- app_assoc.
    reflexivity.
Qed.

Lemma reduce_index_none orig tab : forall s,
  Exists (fun i => String.length orig <= i) tab ->
  reduce_index orig tab s = None.
Proof.
  induction tab as [|i tab IH]; intros s Hex; simpl.
  - inversion Hex.
  - destruct (String.get i orig) as [c|] eqn:Hc; [|reflexivity].
    inversion Hex as [? ? Hi | ? ? Hrest]; subst.
    + rewrite (get_none orig i Hi) in Hc. discriminate.
    + apply IH. exact Hrest.
Qed.

Lemma table_below_64 : Forall (fun i => i < 64) MIXIN_KEY_ENC_TAB.
Proof. unfold MIXIN_KEY_ENC_TAB. repeat constructor. Qed.

Lemma table_has_63 : Exists (fun i => i = 63) MIXIN_KEY_ENC_TAB.
Proof. unfold MIXIN_KEY_ENC_TAB. do 55 apply Exists_cons_tl. left. reflexivity. Qed.

(** X17.  [get_mixin_key] raises exactly on the strings of fewer than 64
    characters, although it keeps 32 characters only: the whole table is
    walked before the result is cut.  On a longer string the result has 32
    characters, the characters of the string at the first 32 indices of
    the table, in this order. *)
Theorem get_mixin_key_wants_64_chars (orig : string) :
  match get_mixin_key orig with
  | None => String.length orig < 64
  | Some k =>
      64 <= String.length orig /\
      String.length k = 32 /\
      map Some (list_ascii_of_string k)
      = map (fun i => String.get i orig) (firstn 32 MIXIN_KEY_ENC_TAB)
  end.
Proof.
  unfold get_mixin_key.
  destruct (le_lt_dec 64 (String.length orig)) as [Hlong | Hshort].
  - destruct (reduce_index_some orig MIXIN_KEY_ENC_TAB EmptyString) as (r & -> & Hr).
    { eapply Forall_impl; [exact table_below_64|]. simpl. intros i Hi. lia. }
    simpl in Hr.
    assert (Hk : map Some (list_ascii_of_string (Str.first_chars 32 r))
                 = map (fun i => String.get i orig) (firstn 32 MIXIN_KEY_ENC_TAB)).
    { unfold Str.first_chars. rewrite chars_first, <- !firstn_map, Hr.
      reflexivity. }
    split; [exact Hlong|]. split; [|exact Hk].
    apply (f_equal (@length _)) in Hk.
    rewrite !length_map, chars_length in Hk. rewrite Hk. reflexivity.
  - rewrite reduce_index_none; [exact Hshort|].
    eapply Exists_impl; [exact table_has_63|]. simpl. intros i ->. lia.
Qed.

Lemma after_last_none sep s :
  has_char sep s = false -> after_last sep s = None.
Proof.
  induction s as [|c s IH]; simpl; [reflexivity|].
  intros H. apply orb_false_elim in H as (Hc & Hs).
  rewrite (IH Hs), Hc. reflexivity.
Qed.

Lemma after_last_app sep d t :
  has_char sep t = false ->
  after_last sep (d ++ String sep t)%string = Some t.
Proof.
  intros Ht. induction d as [|c d IH].
  - change (after_last sep (String sep t) = Some t). simpl.
    rewrite (after_last_none sep t Ht), Ascii.eqb_refl. reflexivity.
  - change (after_last sep (String c (d ++ String sep t)%string) = Some t).
    simpl. rewrite IH. reflexivity.
Qed.

Lemma has_char_app c s t :
  has_char c (s ++ t)%string = has_char c s || has_char c t.
Proof.
  induction s as [|d s IH]; [reflexivity|].
  change (has_char c (String d (s ++ t)%string)
          = has_char c (String d s) || has_char c t).
  simpl. rewrite IH, orb_assoc. reflexivity.
Qed.

Lemma before_first_app sep s t :
  has_char sep s = false ->
  before_first sep (s ++ String sep t)%string = s.
Proof.
  induction s as [|c s IH]; intros H.
  - change (before_first sep (String sep t) = EmptyString). simpl.
    rewrite Ascii.eqb_refl. reflexivity.
  - simpl in H. apply orb_false_elim in H as (Hc & Hs).
    change (before_first sep (String c (s ++ String sep t)%string) = String c s).
    simpl. rewrite Hc, (IH Hs). reflexivity.
Qed.

Lemma stem_of_url dir stem ext :
  has_char "/" stem = false -> has_char "." stem = false ->
  has_char "/" ext = false ->
  after_last "/" (dir ++ String "/" (stem ++ String "." ext))%string
  = Some (stem ++ String "." ext)%string /\
  before_first "." (stem ++ String "." ext)%string = stem.
Proof.
  intros H1 H2 H3. split; [|apply before_first_app; exact H2].
  apply after_last_app. rewrite has_char_app. simpl.
  rewrite H1, H3. reflexivity.
Qed.

(** X18.  From two addresses of the form directory, [/], name, [.],
    extension, where the names hold neither [/] nor [.] and the extensions
    no [/], [get_wbi_keys] returns the two names. *)
Theorem get_wbi_keys_takes_the_names (d1 n1 x1 d2 n2 x2 : string) :
  has_char "/" n1 = false -> has_char "." n1 = false ->
  has_char "/" x1 = false ->
  has_char "/" n2 = false -> has_char "." n2 = false ->
  has_char "/" x2 = false ->
  get_wbi_keys (d1 ++ String "/" (n1 ++ String "." x1))
               (d2 ++ String "/" (n2 ++ String "." x2))
  = Some (n1, n2).
Proof.
  intros A1 A2 A3 B1 B2 B3. unfold get_wbi_keys.
  destruct (stem_of_url d1 n1 x1 A1 A2 A3) as (-> & ->).
  destruct (stem_of_url d2 n2 x2 B1 B2 B3) as (-> & ->).
  reflexivity.
Qed.

Lemma get_wbi_keys_takes_the_names_witness :
  get_wbi_keys
    ("https://i0.hdslb.com/bfs/wbi" ++
       String "/" ("7cd084941338484aae1ad9425b84077c" ++ String "." "png"))
    ("https://i0.hdslb.com/bfs/wbi" ++
       String "/" ("4932caff0ff746eab6f01bf08b70ac45" ++ String "." "png"))
  = Some ("7cd084941338484aae1ad9425b84077c", "4932caff0ff746eab6f01bf08b70ac45").
Proof.
  apply (get_wbi_keys_takes_the_names
           "https://i0.hdslb.com/bfs/wbi" "7cd084941338484aae1ad9425b84077c" "png"
           "https://i0.hdslb.com/bfs/wbi" "4932caff0ff746eab6f01bf08b70ac45" "png");
    reflexivity.
Defined.

(** X19.  [get_wbi_keys] raises when one of the two addresses holds no
    [/], and only then. *)
Theorem get_wbi_keys_wants_a_slash (img_url sub_url : string) :
  get_wbi_keys img_url sub_url = None <->
  has_char "/" img_url = false \/ has_char "/" sub_url = false.
Proof.
  assert (Hsome : forall s, has_char "/" s = true -> exists t, after_last "/" s = Some t).
  { induction s as [|c s IH]; simpl; [discriminate|]. intros H.
    destruct (after_last "/" s) as [t|]; [eauto|].
    destruct (Ascii.eqb c "/"); [eauto|]. simpl in H.
    destruct (IH H) as (t & Ht). discriminate. }
  unfold get_wbi_keys. split.
  - intros H.
    destruct (has_char "/" img_url) eqn:Ha; [|auto].
    destruct (has_char "/" sub_url) eqn:Hb; [|auto].
    destruct (Hsome _ Ha) as (a & Ha'), (Hsome _ Hb) as (b & Hb').
    rewrite Ha', Hb' in H. discriminate.
  - intros [H | H]; rewrite (after_last_none _ _ H);
      [|destruct (after_last "/" img_url)]; reflexivity.
Qed.

End WbiFacts.
